(** * cpx-pomodoro: a shallow embedding of [lib/pomodoro.py]

    The module drives a Circuit Playground Express as a pomodoro timer.
    The program is a set of busy-polling loops around a monotonic clock,
    two buttons, a switch, ten pixels and a tone generator.

    Modelling choices.
    - In the control flow, numbers are exact rationals ([Q]).  Where
      the arithmetic itself is the subject (the seconds stored by the
      duration setters and returned in minutes by the getters, the
      shift of [led_start] after a pause), the code is modelled again
      over Python's numbers: unbounded integers, and floats with
      rounding to nearest, overflow to infinity and a NaN.
    - The inputs of the board form an environment [Env]: what the clock,
      the two raw buttons and the switch read at the n-th sample the
      program takes.  Every read consumes one sample, so the clock may
      advance between any two reads, as on the device.
    - The mutable store ([World]) holds the pixel buffer, the module-level
      [cpx] object and the [Pomodoro] object ([self]), plus the trace of
      calls made on the outputs.
    - [while True] loops take a fuel: [OutOfFuel] means that the loop did
      not return within that many iterations. *)

From Stdlib Require Import QArith ZArith String List Bool Lia Lqa Qabs Qround
  Qpower.
Import ListNotations.

Local Open Scope Q_scope.

(** ** Values *)

Definition RGB : Type := (Z * Z * Z)%type.

Definition RGB_eqb (c d : RGB) : bool :=
  let '(r1, g1, b1) := c in
  let '(r2, g2, b2) := d in
  (Z.eqb r1 r2 && Z.eqb g1 g2 && Z.eqb b1 b2)%bool.

Fixpoint pixels_eqb (xs ys : list RGB) : bool :=
  match xs, ys with
  | [], [] => true
  | x :: xs', y :: ys' => (RGB_eqb x y && pixels_eqb xs' ys')%bool
  | _, _ => false
  end.

Definition black : RGB := (0, 0, 0)%Z.
Definition red : RGB := (10, 0, 0)%Z.

(** Number of cells of the ring. *)
Definition N_PIXELS : nat := 10.

(** [a > b] on Python numbers. *)
Definition Qgtb (a b : Q) : bool := negb (Qle_bool a b).

(** ** Outputs and inputs of the board *)

(** Calls made on the pixel buffer, the tone generator and [sleep]. *)
Inductive Event : Type :=
| EvSetPixel (i : Z) (c : RGB)     (* cpx.pixels[i] = c *)
| EvSetAll (cs : list RGB)         (* cpx.pixels[:] = cs *)
| EvGetAll                         (* cpx.pixels[:] read *)
| EvTone (freq : Q) (dur : Q)      (* cpx.play_tone(freq, dur) *)
| EvSleep (secs : Q).              (* sleep(secs) *)

(** What the board reads at each successive sample. *)
Record Env : Type := mkEnv {
  clock : nat -> Q;        (* monotonic() *)
  raw_a : nat -> bool;     (* cpx.button_a *)
  raw_b : nat -> bool;     (* cpx.button_b *)
  raw_switch : nat -> bool (* cpx.switch *)
}.

(** ** The store *)

(** Attributes that [Express.__init__] adds to the board object. *)
Record Express : Type := mkExpress {
  last_button_a : Q;
  last_button_b : Q;
  sensitivity : Q
}.

(** Names of the private duration attributes, as passed to [getattr]. *)
Inductive attr : Type := _work_duration_ | _short_break_ | _long_break_.

(** Attributes of a [Pomodoro] object. *)
Record Pomodoro : Type := mkPomodoro {
  _work_duration : Q;
  _short_break : Q;
  _long_break : Q;
  schedule : list string;
  intervals : list (string * (attr * RGB));
  idle_update : Q;
  idle_led : Z;
  idle_time : Q;
  start_led : Z;
  stop_led : Z;
  led_state : list RGB
}.

Record World : Type := mkWorld {
  instant : nat;          (* number of input samples taken so far *)
  pixels : list RGB;      (* the pixel buffer of the board *)
  trace : list Event;     (* output calls, oldest first *)
  cpx : Express;          (* the module-level board object *)
  self : Pomodoro
}.

Definition advance (w : World) : World :=
  mkWorld (S (instant w)) (pixels w) (trace w) (cpx w) (self w).

Definition emit (e : Event) (w : World) : World :=
  mkWorld (instant w) (pixels w) (trace w ++ [e]) (cpx w) (self w).

Definition with_pixels (ps : list RGB) (w : World) : World :=
  mkWorld (instant w) ps (trace w) (cpx w) (self w).

Definition with_cpx (c : Express) (w : World) : World :=
  mkWorld (instant w) (pixels w) (trace w) c (self w).

Definition with_self (p : Pomodoro) (w : World) : World :=
  mkWorld (instant w) (pixels w) (trace w) (cpx w) p.

Definition set_last_button_a (t : Q) (c : Express) : Express :=
  mkExpress t (last_button_b c) (sensitivity c).

Definition set_last_button_b (t : Q) (c : Express) : Express :=
  mkExpress (last_button_a c) t (sensitivity c).

Definition set_work_duration (v : Q) (p : Pomodoro) : Pomodoro :=
  mkPomodoro v (_short_break p) (_long_break p) (schedule p) (intervals p)
    (idle_update p) (idle_led p) (idle_time p) (start_led p) (stop_led p)
    (led_state p).

Definition set_short_break (v : Q) (p : Pomodoro) : Pomodoro :=
  mkPomodoro (_work_duration p) v (_long_break p) (schedule p) (intervals p)
    (idle_update p) (idle_led p) (idle_time p) (start_led p) (stop_led p)
    (led_state p).

Definition set_long_break (v : Q) (p : Pomodoro) : Pomodoro :=
  mkPomodoro (_work_duration p) (_short_break p) v (schedule p) (intervals p)
    (idle_update p) (idle_led p) (idle_time p) (start_led p) (stop_led p)
    (led_state p).

Definition set_led_state (s : list RGB) (p : Pomodoro) : Pomodoro :=
  mkPomodoro (_work_duration p) (_short_break p) (_long_break p) (schedule p)
    (intervals p) (idle_update p) (idle_led p) (idle_time p) (start_led p)
    (stop_led p) s.

(** ** The monad of the program: store passing, exceptions, fuel *)

Inductive exn : Type :=
| ValueError | KeyError | IndexError | OverflowError | ZeroDivisionError.

Inductive Res (A : Type) : Type :=
| Done (a : A) (w : World)
| Raised (e : exn) (w : World)
| OutOfFuel.

Arguments Done {A} a w.
Arguments Raised {A} e w.
Arguments OutOfFuel {A}.

Definition M (A : Type) : Type := World -> Res A.

Definition ret {A} (a : A) : M A := fun w => Done a w.

Definition bind {A B} (m : M A) (k : A -> M B) : M B :=
  fun w =>
    match m w with
    | Done a w' => k a w'
    | Raised e w' => Raised e w'
    | OutOfFuel => OutOfFuel
    end.

Definition raise {A} (e : exn) : M A := fun w => Raised e w.

Definition get_world : M World := fun w => Done w w.

Definition modify (f : World -> World) : M unit := fun w => Done tt (f w).

Declare Scope prog_scope.
Delimit Scope prog_scope with prog.
Notation "x <- m ;; k" := (bind m (fun x => k))
  (at level 61, m at next level, right associativity) : prog_scope.
Notation "m ;;; k" := (bind m (fun _ => k))
  (at level 61, right associativity) : prog_scope.

Local Open Scope prog_scope.

(** ** The hardware collaborator *)

Section Board.

Variable E : Env.

(** [time.monotonic()]: one sample of the clock. *)
Definition monotonic : M Q :=
  fun w => Done (clock E (instant w)) (advance w).

(** [cpx.button_a], [cpx.button_b], [cpx.switch]: one sample each. *)
Definition button_a : M bool :=
  fun w => Done (raw_a E (instant w)) (advance w).

Definition button_b : M bool :=
  fun w => Done (raw_b E (instant w)) (advance w).

Definition switch : M bool :=
  fun w => Done (raw_switch E (instant w)) (advance w).

(** [time.sleep(secs)] and [cpx.play_tone(freq, dur)]. *)
Definition sleep (secs : Q) : M unit := modify (emit (EvSleep secs)).

Definition play_tone (freq dur : Q) : M unit := modify (emit (EvTone freq dur)).

(** Replace the cell at position [n] of a buffer. *)
Fixpoint update_nth (n : nat) (c : RGB) (ps : list RGB) : list RGB :=
  match ps, n with
  | [], _ => []
  | _ :: ps', O => c :: ps'
  | p :: ps', S n' => p :: update_nth n' c ps'
  end.

(** Modelled from the spec: the pixel buffer of the hardware driver, which
    is not part of the sources; section 6 of the spec gives [get_pixels],
    [set_pixel(index, RGB)] and [set_all_pixels(sequence of N triples)].
    As Python sequences do, an index outside the buffer raises
    [IndexError] (negative indices count from the end) and a slice
    assignment of another length raises [ValueError]. *)
Definition pixels_get_all : M (list RGB) :=
  fun w => Done (pixels w) (emit EvGetAll w).

Definition pixels_set_all (cs : list RGB) : M unit :=
  fun w =>
    if Nat.eqb (length cs) (length (pixels w))
    then Done tt (emit (EvSetAll cs) (with_pixels cs w))
    else Raised ValueError w.

Definition pixel_index (len : nat) (i : Z) : option nat :=
  let n := Z.of_nat len in
  if ((0 <=? i) && (i <? n))%Z%bool then Some (Z.to_nat i)
  else if ((- n <=? i) && (i <? 0))%Z%bool then Some (Z.to_nat (i + n))
  else None.

Definition pixels_set (i : Z) (c : RGB) : M unit :=
  fun w =>
    match pixel_index (length (pixels w)) i with
    | Some n => Done tt (emit (EvSetPixel i c)
                           (with_pixels (update_nth n c (pixels w)) w))
    | None => Raised IndexError w
    end.

(** ** class Express *)

(** [Express.__init__], without the driver's own initialisation. *)
Definition Express_init : M unit :=
  t1 <- monotonic ;;
  t2 <- monotonic ;;
  modify (with_cpx (mkExpress t1 t2 (25 # 100))).

(** Property [single_press_a]. *)
Definition single_press_a : M bool :=
  b <- button_a ;;
  if negb b then ret false
  else
    t <- monotonic ;;
    w <- get_world ;;
    if Qgtb (t - last_button_a (cpx w)) (sensitivity (cpx w)) then
      t' <- monotonic ;;
      modify (fun w => with_cpx (set_last_button_a t' (cpx w)) w) ;;;
      ret true
    else ret false.

(** Property [single_press_b]. *)
Definition single_press_b : M bool :=
  b <- button_b ;;
  if negb b then ret false
  else
    t <- monotonic ;;
    w <- get_world ;;
    if Qgtb (t - last_button_b (cpx w)) (sensitivity (cpx w)) then
      t' <- monotonic ;;
      modify (fun w => with_cpx (set_last_button_b t' (cpx w)) w) ;;;
      ret true
    else ret false.

End Board.

(** ** class Pomodoro *)

Section Timer.

Variable E : Env.

(** Minutes to seconds and back, as the setters and getters compute them. *)
Definition to_seconds (duration : Q) : Q := duration * 60.
Definition to_minutes (seconds : Q) : Q := seconds / 60.

(** The three duration properties: getter and setter. *)
Definition work_duration : M Q :=
  fun w => Done (to_minutes (_work_duration (self w))) w.

Definition work_duration_setter (duration : Q) : M unit :=
  if Qle_bool duration 0 then raise ValueError
  else modify (fun w => with_self (set_work_duration (to_seconds duration) (self w)) w).

Definition short_break : M Q :=
  fun w => Done (to_minutes (_short_break (self w))) w.

Definition short_break_setter (duration : Q) : M unit :=
  if Qle_bool duration 0 then raise ValueError
  else modify (fun w => with_self (set_short_break (to_seconds duration) (self w)) w).

Definition long_break : M Q :=
  fun w => Done (to_minutes (_long_break (self w))) w.

Definition long_break_setter (duration : Q) : M unit :=
  if Qle_bool duration 0 then raise ValueError
  else modify (fun w => with_self (set_long_break (to_seconds duration) (self w)) w).

(** [Pomodoro.__init__].  [led_state] is not assigned by the constructor;
    [pause] assigns it before anything reads it. *)
Definition Pomodoro_init (usb_down : bool) : M unit :=
  work_duration_setter 45 ;;;
  short_break_setter 10 ;;;
  long_break_setter 20 ;;;
  t <- monotonic E ;;
  modify (fun w =>
    with_self
      (mkPomodoro (_work_duration (self w)) (_short_break (self w))
         (_long_break (self w))
         ["w"; "sb"; "w"; "lb"; "w"; "sb"; "w"]%string
         [ ("w"%string, (_work_duration_, (0, 0, 5)%Z));
           ("sb"%string, (_short_break_, (0, 5, 0)%Z));
           ("lb"%string, (_long_break_, (4, 1, 3)%Z)) ]
         (5 # 10) 0%Z t
         (if usb_down then 4%Z else 9%Z)
         (if usb_down then 5%Z else 0%Z)
         [])
      w).

(** [getattr(self, name)] for the three private duration attributes. *)
Definition getattr (name : attr) : M Q :=
  fun w =>
    Done match name with
         | _work_duration_ => _work_duration (self w)
         | _short_break_ => _short_break (self w)
         | _long_break_ => _long_break (self w)
         end w.

(** [self.intervals[period]]: a missing key raises [KeyError]. *)
Fixpoint lookup (key : string) (d : list (string * (attr * RGB)))
  : option (attr * RGB) :=
  match d with
  | [] => None
  | (k, v) :: d' => if String.eqb k key then Some v else lookup key d'
  end.

Definition intervals_get (period : string) : M (attr * RGB) :=
  fun w =>
    match lookup period (intervals (self w)) with
    | Some v => Done v w
    | None => Raised KeyError w
    end.

(** [idle_animation]. *)
Definition idle_animation : M unit :=
  t <- monotonic E ;;
  w <- get_world ;;
  if Qgtb (t - idle_time (self w)) (idle_update (self w)) then
    pixels_set (idle_led (self w)) black ;;;
    let led := ((idle_led (self w) - 1) mod 10)%Z in
    pixels_set led (0, 5, 0)%Z ;;;
    t' <- monotonic E ;;
    modify (fun w =>
      with_self
        (mkPomodoro (_work_duration (self w)) (_short_break (self w))
           (_long_break (self w)) (schedule (self w)) (intervals (self w))
           (idle_update (self w)) led t' (start_led (self w))
           (stop_led (self w)) (led_state (self w)))
        w)
  else ret tt.

(** [blink]. *)
Definition blink : M unit :=
  cur <- pixels_get_all ;;
  w <- get_world ;;
  if pixels_eqb cur (led_state (self w))
  then pixels_set_all (repeat black N_PIXELS)
  else pixels_set_all (led_state (self w)).

(** One iteration of the loop of [pause]: [inl pause_time] to go round
    again, [inr tt] for [return]. *)
Definition pause_iter (pause_time : Q) : M (Q + unit) :=
  t <- monotonic E ;;
  pause_time' <- (if Qgtb (t - pause_time) (3 # 10)
                  then blink ;;; monotonic E
                  else ret pause_time) ;;
  a <- single_press_a E ;;
  pressed <- (if a then ret true else single_press_b E) ;;
  if pressed then
    w <- get_world ;;
    pixels_set_all (led_state (self w)) ;;;
    ret (inr tt)
  else ret (inl pause_time').

Fixpoint pause_loop (fuel : nat) (pause_time : Q) : M unit :=
  match fuel with
  | O => fun _ => OutOfFuel
  | S fuel' =>
      r <- pause_iter pause_time ;;
      match r with
      | inl pause_time' => pause_loop fuel' pause_time'
      | inr _ => ret tt
      end
  end.

(** [pause]. *)
Definition pause (fuel : nat) : M unit :=
  pause_time <- monotonic E ;;
  snapshot <- pixels_get_all ;;
  modify (fun w => with_self (set_led_state snapshot (self w)) w) ;;;
  pause_loop fuel pause_time.

(** The two [return] statements of [interval].  Both return [None] in
    Python; the tag records which one was executed. *)
Inductive exit_tag : Type := Completed | Cancelled.

(** Local variables of [interval] that the loop updates. *)
Record locals : Type := mkLocals {
  led_start : Q;
  led_current : Z
}.

(** Outcome of a part of the loop body: [return], or carry on. *)
Inductive flow : Type :=
| Return (x : exit_tag)
| Next (s : locals).

(** First [if] of the loop body: the countdown. *)
Definition interval_tick (led_duration : Q) (s : locals) : M flow :=
  t <- monotonic E ;;
  if Qgtb (t - led_start s) led_duration then
    pixels_set (led_current s) black ;;;
    w <- get_world ;;
    if Z.eqb (led_current s) (stop_led (self w)) then
      sw <- switch E ;;
      (if sw then play_tone 1720 (1 # 10) else ret tt) ;;;
      ret (Return Completed)
    else
      let led_current' := ((led_current s - 1) mod 10)%Z in
      t' <- monotonic E ;;
      ret (Next (mkLocals t' led_current'))
  else ret (Next s).

(** Second [if]: button A pauses. *)
Definition interval_pause (fuel : nat) (s : locals) : M locals :=
  a <- single_press_a E ;;
  if a then
    pre_pause <- monotonic E ;;
    pause fuel ;;;
    t <- monotonic E ;;
    ret (mkLocals (led_start s + (t - pre_pause)) (led_current s))
  else ret s.

(** [for _ in range(n)] around the red flash. *)
Fixpoint flash (n : nat) : M unit :=
  match n with
  | O => ret tt
  | S n' =>
      pixels_set_all (repeat red N_PIXELS) ;;;
      sleep (2 # 10) ;;;
      pixels_set_all (repeat black N_PIXELS) ;;;
      sleep (1 # 10) ;;;
      flash n'
  end.

(** Third [if]: button B cancels. *)
Definition interval_cancel (s : locals) : M flow :=
  b <- single_press_b E ;;
  if b then flash 2 ;;; ret (Return Cancelled)
  else ret (Next s).

(** The loop body. *)
Definition interval_iter (fuel : nat) (led_duration : Q) (s : locals)
  : M flow :=
  r <- interval_tick led_duration s ;;
  match r with
  | Return x => ret (Return x)
  | Next s1 =>
      s2 <- interval_pause fuel s1 ;;
      interval_cancel s2
  end.

Fixpoint interval_loop (pfuel fuel : nat) (led_duration : Q) (s : locals)
  : M exit_tag :=
  match fuel with
  | O => fun _ => OutOfFuel
  | S fuel' =>
      r <- interval_iter pfuel led_duration s ;;
      match r with
      | Return x => ret x
      | Next s' => interval_loop pfuel fuel' led_duration s'
      end
  end.

(** [interval]. *)
Definition interval (fuel : nat) (duration : Q) (color : RGB) : M exit_tag :=
  pixels_set_all (repeat color N_PIXELS) ;;;
  led_start <- monotonic E ;;
  let led_duration := duration / 10 in
  w <- get_world ;;
  let led_current := start_led (self w) in
  interval_loop fuel fuel led_duration (mkLocals led_start led_current).

(** The body of the [for] loop of [work_session]; the value of
    [self.interval(...)] is dropped by the caller. *)
Definition run_period (fuel : nat) (period : string) : M exit_tag :=
  entry <- intervals_get period ;;
  let '(name, color) := entry in
  duration <- getattr name ;;
  interval fuel duration color.

Fixpoint for_each {A} (xs : list A) (body : A -> M unit) : M unit :=
  match xs with
  | [] => ret tt
  | x :: xs' => body x ;;; for_each xs' body
  end.

(** [work_session]. *)
Definition work_session (fuel : nat) : M unit :=
  w <- get_world ;;
  for_each (schedule (self w))
    (fun period => run_period fuel period ;;; ret tt).

(** [work_session] again, keeping the tag of every [interval] call it
    makes (what the Python loop throws away). *)
Fixpoint collect {A B} (xs : list A) (body : A -> M B) : M (list B) :=
  match xs with
  | [] => ret []
  | x :: xs' =>
      r <- body x ;;
      rs <- collect xs' body ;;
      ret (r :: rs)
  end.

Definition session_exits (fuel : nat) : M (list exit_tag) :=
  w <- get_world ;;
  collect (schedule (self w)) (run_period fuel).

(** [start]: the idle loop. *)
Fixpoint start (fuel sfuel : nat) : M unit :=
  match fuel with
  | O => fun _ => OutOfFuel
  | S fuel' =>
      idle_animation ;;;
      a <- single_press_a E ;;
      (if a then work_session sfuel else ret tt) ;;;
      start fuel' sfuel
  end.

End Timer.

(** ** Python's numbers

    The control flow above is over exact rationals.  The two places
    where the program's arithmetic is itself the subject, the duration
    properties and the shift of [led_start] after a pause, are modelled
    again here over Python's numbers: unbounded integers, and floats
    that round every result to the nearest value of the format (ties to
    even), overflow to an infinity and have a NaN. *)

Inductive pyfloat : Type :=
| Fin (q : Q)
| Inf (negative : bool)
| NaN.

Inductive pynum : Type :=
| PyInt (z : Z)
| PyFloat (x : pyfloat).

(** The arithmetic of floats: exact, or a binary format with [precision]
    bits of significand, whose least positive value is [2 ^ emin] and
    whose values are below [2 ^ emax]. *)
Inductive arith : Type :=
| Exact
| Binary (precision emin emax : Z).

(** CPython's [float], and the single-precision format. *)
Definition binary64 : arith := Binary 53 (-1074) 1024.
Definition binary32 : arith := Binary 24 (-149) 128.

(** The nearest integer, ties to the even one. *)
Definition round_half_even (x : Q) : Z :=
  let f := Qfloor x in
  match Qcompare (x - inject_Z f) (1 # 2) with
  | Lt => f
  | Gt => (f + 1)%Z
  | Eq => if Z.even f then f else (f + 1)%Z
  end.

(** The exponent of the power of two at or below a positive [x]. *)
Definition ilog2 (x : Q) : Z :=
  let e := (Z.log2 (Qnum x) - Z.log2 (Zpos (Qden x)))%Z in
  if Qle_bool (2 ^ e) x then e else (e - 1)%Z.

(** The nearest multiple of the spacing of the format at [x]: the
    significand has [p] bits, the spacing is never below [2 ^ emin]. *)
Definition round_float (p emin : Z) (x : Q) : Q :=
  let a := Qabs x in
  if Qeq_bool a 0 then 0
  else
    let e := Z.max (ilog2 a - (p - 1)) emin in
    let r := inject_Z (round_half_even (a / 2 ^ e)) * 2 ^ e in
    if Qle_bool 0 x then r else - r.

Definition rnd (A : arith) (x : Q) : Q :=
  match A with
  | Exact => x
  | Binary p emin _ => Qred (round_float p emin (Qred x))
  end.

(** The largest finite value. *)
Definition largest (A : arith) : option Q :=
  match A with
  | Exact => None
  | Binary p _ emax => Some (inject_Z (2 ^ p - 1) * 2 ^ (emax - p))
  end.

Definition fits (A : arith) (r : Q) : bool :=
  match largest A with
  | None => true
  | Some L => Qle_bool (Qabs r) L
  end.

(** Half the spacing relative to the value, and half the least spacing. *)
Definition unit_roundoff (A : arith) : Q :=
  match A with Exact => 0 | Binary p _ _ => 2 ^ (- p) end.

Definition eta (A : arith) : Q :=
  match A with Exact => 0 | Binary _ emin _ => 2 ^ (emin - 1) end.

(** The float that an operation returns when its exact result is [x]. *)
Definition finish (A : arith) (x : Q) : pyfloat :=
  let r := rnd A x in
  if fits A r then Fin r else Inf (negb (Qle_bool 0 x)).

(** [x <= y], [x * y], [x / y], [x + y] and [x - y] on floats. *)
Definition float_le (x y : pyfloat) : bool :=
  match x, y with
  | NaN, _ | _, NaN => false
  | Inf true, _ => true
  | _, Inf false => true
  | Inf false, _ => false
  | _, Inf true => false
  | Fin p, Fin q => Qle_bool p q
  end.

Definition float_mul (A : arith) (x y : pyfloat) : pyfloat :=
  match x, y with
  | NaN, _ | _, NaN => NaN
  | Inf s, Inf t => Inf (xorb s t)
  | Inf s, Fin q | Fin q, Inf s =>
      if Qeq_bool q 0 then NaN else Inf (xorb s (negb (Qle_bool 0 q)))
  | Fin p, Fin q => finish A (p * q)
  end.

Definition float_div (A : arith) (x y : pyfloat) : exn + pyfloat :=
  match x, y with
  | _, Fin q =>
      if Qeq_bool q 0 then inl ZeroDivisionError
      else inr match x with
               | Fin p => finish A (p / q)
               | Inf s => Inf (xorb s (negb (Qle_bool 0 q)))
               | NaN => NaN
               end
  | Fin _, Inf _ => inr (Fin 0)
  | _, _ => inr NaN
  end.

Definition float_add (A : arith) (x y : pyfloat) : pyfloat :=
  match x, y with
  | NaN, _ | _, NaN => NaN
  | Inf s, Inf t => if Bool.eqb s t then Inf s else NaN
  | Inf s, Fin _ | Fin _, Inf s => Inf s
  | Fin p, Fin q => finish A (p + q)
  end.

Definition float_neg (x : pyfloat) : pyfloat :=
  match x with
  | Fin p => Fin (- p)
  | Inf s => Inf (negb s)
  | NaN => NaN
  end.

Definition float_sub (A : arith) (x y : pyfloat) : pyfloat :=
  match x, y with
  | Fin p, Fin q => finish A (p - q)
  | _, _ => float_add A x (float_neg y)
  end.

(** [float(k)] for an integer [k]. *)
Definition float_of_int (A : arith) (k : Z) : exn + pyfloat :=
  match finish A (inject_Z k) with
  | Fin r => inr (Fin r)
  | _ => inl OverflowError
  end.

(** [x <= k], [x * k] and [x / k] for a number [x] and an integer
    literal [k].  A float operand converts [k] to a float; two integers
    multiply exactly, and their quotient is the float nearest to it. *)
Definition num_le_int (x : pynum) (k : Z) : bool :=
  match x with
  | PyInt z => (z <=? k)%Z
  | PyFloat f => float_le f (Fin (inject_Z k))
  end.

Definition num_mul_int (A : arith) (x : pynum) (k : Z) : exn + pynum :=
  match x with
  | PyInt z => inr (PyInt (z * k))
  | PyFloat f =>
      match float_of_int A k with
      | inl e => inl e
      | inr kf => inr (PyFloat (float_mul A f kf))
      end
  end.

Definition num_div_int (A : arith) (x : pynum) (k : Z) : exn + pynum :=
  match x with
  | PyInt z =>
      if (k =? 0)%Z then inl ZeroDivisionError
      else match finish A (inject_Z z / inject_Z k) with
           | Fin r => inr (PyFloat (Fin r))
           | _ => inl OverflowError
           end
  | PyFloat f =>
      match float_of_int A k with
      | inl e => inl e
      | inr kf =>
          match float_div A f kf with
          | inl e => inl e
          | inr r => inr (PyFloat r)
          end
      end
  end.

(** The body shared by the three duration setters: what is stored for
    the argument [duration], or the exception raised.  And the body
    shared by the three getters, for the number [stored]. *)
Definition duration_setter (A : arith) (duration : pynum) : exn + pynum :=
  if num_le_int duration 0 then inl ValueError
  else num_mul_int A duration 60.

Definition duration_getter (A : arith) (stored : pynum) : exn + pynum :=
  num_div_int A stored 60.

(** An assignment to a duration property followed by a read of it. *)
Definition set_then_get (A : arith) (duration : pynum) : exn + pynum :=
  match duration_setter A duration with
  | inl e => inl e
  | inr stored => duration_getter A stored
  end.

(** The second [if] of the loop body of [interval] again, with
    [led_start] a float: the clock is read, [pause] runs, the clock is
    read again and the difference is added to [led_start]. *)
Definition interval_pause_float (A : arith) (E : Env) (fuel : nat)
  (led_start : pyfloat) : M pyfloat :=
  a <- single_press_a E ;;
  if a then
    pre_pause <- monotonic E ;;
    pause E fuel ;;;
    t <- monotonic E ;;
    ret (float_add A led_start (float_sub A (Fin t) (Fin pre_pause)))
  else ret led_start.

(** ** Notions used to state the properties *)

(** Trigger times recorded by [n] successive reads of [single_press_a]
    (resp. [single_press_b]), oldest first. *)
Fixpoint poll_times_a (E : Env) (n : nat) (w : World) : list Q :=
  match n with
  | O => []
  | S n' =>
      match single_press_a E w with
      | Done true w' => last_button_a (cpx w') :: poll_times_a E n' w'
      | Done false w' => poll_times_a E n' w'
      | _ => []
      end
  end.

Fixpoint poll_times_b (E : Env) (n : nat) (w : World) : list Q :=
  match n with
  | O => []
  | S n' =>
      match single_press_b E w with
      | Done true w' => last_button_b (cpx w') :: poll_times_b E n' w'
      | Done false w' => poll_times_b E n' w'
      | _ => []
      end
  end.

(** Every time of [ts] is more than [gap] after the one before it, the
    first one more than [gap] after [prev]. *)
Fixpoint spaced (gap prev : Q) (ts : list Q) : Prop :=
  match ts with
  | [] => True
  | t :: ts' => gap < t - prev /\ spaced gap t ts'
  end.

(** The clock never goes back, and passes every bound. *)
Definition monotone (E : Env) : Prop :=
  forall n, clock E n <= clock E (S n).

Definition unbounded (E : Env) : Prop :=
  forall T, exists n, T < clock E n.

(** Nobody touches the buttons. *)
Definition no_press (E : Env) : Prop :=
  forall n, raw_a E n = false /\ raw_b E n = false.

(** The cells that a countdown of [n] steps from cell [c] turns off. *)
Fixpoint countdown (c : Z) (n : nat) : list Z :=
  match n with
  | O => []
  | S n' => c :: countdown ((c - 1) mod 10)%Z n'
  end.

(** Counting down from [c], the cell [stop] is met after exactly [n]
    decrements, and not before. *)
Fixpoint reaches (stop c : Z) (n : nat) : bool :=
  match n with
  | O => Z.eqb c stop
  | S n' => (negb (Z.eqb c stop) && reaches stop ((c - 1) mod 10)%Z n')%bool
  end.

Definition turn_off (ps : list RGB) (c : Z) : list RGB :=
  update_nth (Z.to_nat c) black ps.

Definition off_event (c : Z) : Event := EvSetPixel c black.

Definition completion_tone : Event := EvTone 1720 (1 # 10).

Definition tone_if (b : bool) : list Event :=
  if b then [completion_tone] else [].

(** Two cycles of red flash, then blank. *)
Definition abort_animation : list Event :=
  [ EvSetAll (repeat red N_PIXELS); EvSleep (2 # 10);
    EvSetAll (repeat black N_PIXELS); EvSleep (1 # 10);
    EvSetAll (repeat red N_PIXELS); EvSleep (2 # 10);
    EvSetAll (repeat black N_PIXELS); EvSleep (1 # 10) ].

(** Which part of the loop body of [interval] an output call belongs to:
    the countdown writes single cells and plays the tone, only [pause]
    reads the buffer, only the cancel path sleeps. *)
Definition is_tick (e : Event) : bool :=
  match e with EvSetPixel _ _ | EvTone _ _ => true | _ => false end.

Definition is_tone (e : Event) : bool :=
  match e with EvTone _ _ => true | _ => false end.

Definition is_pause (e : Event) : bool :=
  match e with EvGetAll | EvSetAll _ => true | _ => false end.

Definition is_snapshot (e : Event) : bool :=
  match e with EvGetAll => true | _ => false end.

Definition is_sleep (e : Event) : bool :=
  match e with EvSleep _ => true | _ => false end.

Definition is_off_at (c : Z) (e : Event) : bool :=
  match e with EvSetPixel i _ => Z.eqb i c | _ => false end.

(** Number of the three actions of the loop body (countdown step, pause,
    cancel) that left a call in [evs]. *)
Definition handled (evs : list Event) : nat :=
  Nat.b2n (existsb is_tick evs) + Nat.b2n (existsb is_snapshot evs)
  + Nat.b2n (existsb is_sleep evs).

(** [w'] is [w] after some more input samples, nothing else changed. *)
Definition later (w w' : World) : Prop :=
  (instant w <= instant w')%nat /\ pixels w' = pixels w
  /\ trace w' = trace w /\ cpx w' = cpx w /\ self w' = self w.

(** What a part of [pause] may change: it takes samples, appends reads
    and whole-buffer writes to the trace, keeps the number of cells and
    keeps [self]. *)
Definition pause_frame (w w' : World) : Prop :=
  self w' = self w
  /\ (instant w <= instant w')%nat
  /\ List.length (pixels w') = List.length (pixels w)
  /\ exists evs, trace w' = trace w ++ evs /\ forallb is_pause evs = true.

(** What the rounds of [pause] that do not return may change: as
    [pause_frame], and the board object, with its trigger times, is
    kept. *)
Definition pause_kept (w w' : World) : Prop :=
  pause_frame w w' /\ cpx w' = cpx w.

(** No tone, no write that darkens cell [stop], no sleep among [evs]. *)
Definition countdown_only (stop : Z) (evs : list Event) : Prop :=
  existsb is_tone evs = false
  /\ existsb (is_off_at stop) evs = false
  /\ existsb is_sleep evs = false.

(** Two [Pomodoro] objects that differ at most in [led_state]. *)
Definition same_config (p q : Pomodoro) : Prop :=
  set_led_state [] q = set_led_state [] p.

(** The part of the trace that one interval of a session wrote: it starts
    by lighting the whole ring in the colour that [intervals] gives for
    the period. *)
Definition segment_of (p : Pomodoro) (period : string) (seg : list Event)
  : Prop :=
  exists name color evs,
    lookup period (intervals p) = Some (name, color)
    /\ seg = EvSetAll (repeat color N_PIXELS) :: evs.

(** One of the two channels accepts a press when polled in [w0], as the
    [or] of [pause] polls them; [w1] is the store afterwards. *)
Definition press_accepted (E : Env) (w0 w1 : World) : Prop :=
  single_press_a E w0 = Done true w1
  \/ exists wm, single_press_a E w0 = Done false wm
                /\ single_press_b E wm = Done true w1.

(** The statement that a cancelled interval ends the session: in the
    tags of the intervals that a session ran, [Cancelled] can only be
    the last one. *)
Definition stops_on_cancel (exits : list exit_tag) : Prop :=
  forall k, nth_error exits k = Some Cancelled -> List.length exits = S k.

(** The statement that the loop body handles at most one of its three
    actions. *)
Definition at_most_one_handled (E : Env) : Prop :=
  forall pfuel led_duration s w r w' evs,
    interval_iter E pfuel led_duration s w = Done r w' ->
    trace w' = trace w ++ evs ->
    (handled evs <= 1)%nat.

(** ** Concrete boards and stores, for examples *)

(** The object that [Pomodoro(usb_down)] builds, apart from [idle_time]. *)
Definition fresh_pomodoro (usb_down : bool) : Pomodoro :=
  mkPomodoro 2700 600 1200
    ["w"; "sb"; "w"; "lb"; "w"; "sb"; "w"]%string
    [ ("w"%string, (_work_duration_, (0, 0, 5)%Z));
      ("sb"%string, (_short_break_, (0, 5, 0)%Z));
      ("lb"%string, (_long_break_, (4, 1, 3)%Z)) ]
    (5 # 10) 0%Z 0
    (if usb_down then 4%Z else 9%Z)
    (if usb_down then 5%Z else 0%Z)
    [].

(** A store right after start-up: ten dark cells, nothing output yet. *)
Definition fresh_world (usb_down : bool) : World :=
  mkWorld 0 (repeat black N_PIXELS) [] (mkExpress 0 0 (25 # 100))
    (fresh_pomodoro usb_down).

(** Both buttons held down for ever; the clock gains 1/8 s per sample. *)
Definition E_held : Env :=
  mkEnv (fun n => Z.of_nat n # 8) (fun _ => true) (fun _ => true)
    (fun _ => true).

(** An interval under way: blue ring, cell 4 already dark. *)
Definition running_world : World :=
  mkWorld 0 (turn_off (repeat (0, 0, 5)%Z N_PIXELS) 4) []
    (mkExpress 0 0 (25 # 100)) (fresh_pomodoro true).

(** Button A is down at the first sample, released, and down again from
    sample 30 on; the clock starts at 1 s and gains 1/8 s per sample. *)
Definition E_pause : Env :=
  mkEnv (fun n => Z.of_nat (n + 8) # 8)
    (fun n => (Nat.eqb n 0 || Nat.leb 30 n)%bool)
    (fun _ => false) (fun _ => true).

(** Button B held down, button A untouched; the clock reads 1.0005 s at
    the first sample and gains 1 ms per sample. *)
Definition E_cancel : Env :=
  mkEnv (fun n => Z.of_nat (2001 + 2 * n) # 2000) (fun _ => false)
    (fun _ => true) (fun _ => true).

(** Button B is down at sample 7 only.  Every sample is 1000 s after the
    one before: a coarse clock, which keeps a whole session short. *)
Definition E_cancel_once : Env :=
  mkEnv (fun n => inject_Z (1000 * Z.of_nat (S n))) (fun _ => false)
    (fun n => Nat.eqb n 7) (fun _ => true).

(** Nobody touches the board; the switch is on; 1/4 s per sample. *)
Definition E_idle : Env :=
  mkEnv (fun n => Z.of_nat n # 4) (fun _ => false) (fun _ => false)
    (fun _ => true).

(** Start-up: [cpx = Express()] and then [Pomodoro(usb_down)]. *)
Definition boot (E : Env) (usb_down : bool) : M unit :=
  bind (Express_init E) (fun _ => Pomodoro_init E usb_down).

(** A session run right after start-up, with the tags of its intervals. *)
Definition session_after_boot (E : Env) (usb_down : bool) (fuel : nat)
  : Res (list exit_tag) :=
  bind (boot E usb_down) (fun _ => session_exits E fuel) (fresh_world usb_down).

(** The store that start-up leaves. *)
Definition booted (E : Env) (usb_down : bool) : World :=
  match boot E usb_down (fresh_world usb_down) with
  | Done _ w => w
  | _ => fresh_world usb_down
  end.

(** ** Notions for the idle loop, the blinking and whole runs *)

(** The colour of the idle light, and the ring with only cell [c] lit in
    that colour. *)
Definition idle_green : RGB := (0, 5, 0)%Z.

Definition one_lit (c : Z) : list RGB :=
  update_nth (Z.to_nat c) idle_green (repeat black N_PIXELS).

(** The ring as the idle animation keeps it: dark, or lit at the idle
    cell only; the idle cell is a cell of the ring. *)
Definition idle_ring (w : World) : Prop :=
  (0 <= idle_led (self w) < 10)%Z
  /\ (pixels w = repeat black N_PIXELS
      \/ pixels w = one_lit (idle_led (self w))).

(** Writes of a single cell. *)
Definition is_single (e : Event) : bool :=
  match e with EvSetPixel _ _ => true | _ => false end.

(** The time of [S n] segments of [led_duration] each. *)
Fixpoint segments_time (n : nat) (led_duration : Q) : Q :=
  match n with
  | O => led_duration
  | S n' => led_duration + segments_time n' led_duration
  end.

(** The calls that blinking may make on the buffer: a read, or a write of
    the snapshot, or a write of ten dark cells. *)
Definition pause_write (snapshot : list RGB) (e : Event) : Prop :=
  e = EvGetAll \/ e = EvSetAll snapshot
  \/ e = EvSetAll (repeat black N_PIXELS).

(** One of the two buttons is held down for ever. *)
Definition held (E : Env) : Prop :=
  (forall n, raw_a E n = true) \/ (forall n, raw_b E n = true).

(** Assignment to the attribute [schedule]. *)
Definition set_schedule (sch : list string) (p : Pomodoro) : Pomodoro :=
  mkPomodoro (_work_duration p) (_short_break p) (_long_break p) sch
    (intervals p) (idle_update p) (idle_led p) (idle_time p) (start_led p)
    (stop_led p) (led_state p).

(** Every tag of [tags] is a key of [intervals]. *)
Definition known_tags (p : Pomodoro) (tags : list string) : Prop :=
  Forall (fun t => lookup t (intervals p) <> None) tags.

(** Button A held down, button B untouched; 1/8 s per sample. *)
Definition E_hold_a : Env :=
  mkEnv (fun n => Z.of_nat n # 8) (fun _ => true) (fun _ => false)
    (fun _ => true).

(** A store in which the idle light is on cell 0. *)
Definition idle_world : World :=
  mkWorld 0 (one_lit 0) [] (mkExpress 0 0 (25 # 100)) (fresh_pomodoro true).

(** From [w] to [w'] the object [self] is kept and the trace grows by
    calls that blinking may make for the snapshot [led_state]. *)
Definition blinks_only (w w' : World) : Prop :=
  self w' = self w
  /\ exists evs, trace w' = trace w ++ evs
                 /\ Forall (pause_write (led_state (self w))) evs.

(** A store whose schedule names a period, ["x"], that [intervals] does
    not have. *)
Definition misconfigured_world : World :=
  with_self (set_schedule ["w"; "x"; "sb"]%string (fresh_pomodoro true))
    (fresh_world true).

(** Button B held down for ever, button A never touched; 1/8 s per
    sample. *)
Definition E_hold_b : Env :=
  mkEnv (fun n => Z.of_nat n # 8) (fun _ => false) (fun _ => true)
    (fun _ => true).


(** The first [n] rounds of the loop of [start]. *)
Fixpoint idle_rounds (E : Env) (n sfuel : nat) : M unit :=
  match n with
  | O => ret tt
  | S n' =>
      idle_animation E ;;;
      a <- single_press_a E ;;
      (if a then work_session E sfuel else ret tt) ;;;
      idle_rounds E n' sfuel
  end.


(** ** Notions for the arithmetic of floats *)

(** A format in which 60 is a value, half the relative spacing is at
    most one, and a sixtieth of the largest value, rounded, is in range.
    Every format in use is one. *)
Definition ordinary (A : arith) : Prop :=
  float_of_int A 60 = inr (Fin 60)
  /\ unit_roundoff A <= 1
  /\ forall L, largest A = Some L ->
               L * (1 + unit_roundoff A) / 60 + eta A <= L.

(** The statement that the round trip through a duration property
    returns every positive value of the format within the relative
    tolerance [tol]. *)
Definition roundtrip_within (A : arith) (tol : Q) : Prop :=
  forall d, 0 < d -> rnd A d == d ->
    exists r, set_then_get A (PyFloat (Fin d)) = inr (PyFloat (Fin r))
              /\ Qabs (r - d) <= tol * d.

(** The statement that a pause leaves the time to the next transition
    exactly as it was: [led_start] after the pause is as far before the
    clock read that follows the pause as it was, before the pause, before
    the clock read that precedes it. *)
Definition remaining_preserved_exactly (A : arith) (E : Env) : Prop :=
  forall fuel led_duration a b w w1 w',
    single_press_a E w = Done true w1 ->
    interval_pause_float A E fuel (Fin a) w = Done (Fin b) w' ->
    (b + led_duration) - clock E (Nat.pred (instant w'))
    == (a + led_duration) - clock E (instant w1).

(** The doubles written [0.1], [0.3] and [0.7]. *)
Definition double_0_1 : Q := rnd binary64 (1 # 10).
Definition double_0_3 : Q := rnd binary64 (3 # 10).
Definition double_0_7 : Q := rnd binary64 (7 # 10).

(** Button A held down; the clock reads [0.3] up to the read that
    precedes a pause entered at once, and [0.7] from then on. *)
Definition E_float : Env :=
  mkEnv (fun n => if Nat.leb n 3 then double_0_3 else double_0_7)
    (fun _ => true) (fun _ => false) (fun _ => true).

(** ** Arithmetic and list facts *)

Ltac splits := repeat match goal with |- _ /\ _ => split end.

Lemma Qgtb_true (a b : Q) : Qgtb a b = true <-> b < a.
Proof.
  unfold Qgtb. rewrite negb_true_iff, <- not_true_iff_false, Qle_bool_iff.
  split; intro H; [apply Qnot_le_lt | apply Qlt_not_le]; exact H.
Qed.

Lemma Qgtb_false (a b : Q) : Qgtb a b = false <-> a <= b.
Proof.
  unfold Qgtb. rewrite negb_false_iff. apply Qle_bool_iff.
Qed.

Lemma Qle_bool_false (a b : Q) : Qle_bool a b = false <-> b < a.
Proof.
  rewrite <- not_true_iff_false, Qle_bool_iff.
  split; intro H; [apply Qnot_le_lt | apply Qlt_not_le]; exact H.
Qed.

(** ** The duration properties *)

Section Durations.

Lemma setter_cases (d : Q) : (d <= 0 /\ Qle_bool d 0 = true)
                              \/ (0 < d /\ Qle_bool d 0 = false).
Proof.
  destruct (Qle_bool d 0) eqn:H.
  - left. split; [apply Qle_bool_iff; exact H | reflexivity].
  - right. split; [apply Qle_bool_false; exact H | reflexivity].
Qed.

Lemma work_duration_setter_raises (d : Q) (w : World) :
  work_duration_setter d w = Raised ValueError w <-> d <= 0.
Proof.
  unfold work_duration_setter, raise, modify.
  destruct (setter_cases d) as [[Hd ->] | [Hd ->]].
  - tauto.
  - split; [discriminate | intro H; exfalso; lra].
Qed.

Lemma work_duration_setter_stores (d : Q) (w : World) :
  (exists w', work_duration_setter d w = Done tt w') <-> 0 < d.
Proof.
  unfold work_duration_setter, raise, modify.
  destruct (setter_cases d) as [[Hd ->] | [Hd ->]].
  - split; [intros [w' H]; discriminate | intro H; exfalso; lra].
  - split; [intros _; exact Hd | intros _; eexists; reflexivity].
Qed.

Lemma short_break_setter_raises (d : Q) (w : World) :
  short_break_setter d w = Raised ValueError w <-> d <= 0.
Proof.
  unfold short_break_setter, raise, modify.
  destruct (setter_cases d) as [[Hd ->] | [Hd ->]].
  - tauto.
  - split; [discriminate | intro H; exfalso; lra].
Qed.

Lemma short_break_setter_stores (d : Q) (w : World) :
  (exists w', short_break_setter d w = Done tt w') <-> 0 < d.
Proof.
  unfold short_break_setter, raise, modify.
  destruct (setter_cases d) as [[Hd ->] | [Hd ->]].
  - split; [intros [w' H]; discriminate | intro H; exfalso; lra].
  - split; [intros _; exact Hd | intros _; eexists; reflexivity].
Qed.

Lemma long_break_setter_raises (d : Q) (w : World) :
  long_break_setter d w = Raised ValueError w <-> d <= 0.
Proof.
  unfold long_break_setter, raise, modify.
  destruct (setter_cases d) as [[Hd ->] | [Hd ->]].
  - tauto.
  - split; [discriminate | intro H; exfalso; lra].
Qed.

Lemma long_break_setter_stores (d : Q) (w : World) :
  (exists w', long_break_setter d w = Done tt w') <-> 0 < d.
Proof.
  unfold long_break_setter, raise, modify.
  destruct (setter_cases d) as [[Hd ->] | [Hd ->]].
  - split; [intros [w' H]; discriminate | intro H; exfalso; lra].
  - split; [intros _; exact Hd | intros _; eexists; reflexivity].
Qed.

Lemma minutes_of_seconds (d : Q) : to_minutes (to_seconds d) == d.
Proof. unfold to_minutes, to_seconds. field. Qed.

End Durations.

(** C6.  Each of the three duration setters raises [ValueError] exactly
    when the duration is at most zero (zero and every negative number),
    leaving the store as it was, and stores the duration without raising
    exactly when it is positive. *)
Theorem duration_setters_reject_nonpositive (d : Q) (w : World) :
  (work_duration_setter d w = Raised ValueError w <-> d <= 0)
  /\ ((exists w', work_duration_setter d w = Done tt w') <-> 0 < d)
  /\ (short_break_setter d w = Raised ValueError w <-> d <= 0)
  /\ ((exists w', short_break_setter d w = Done tt w') <-> 0 < d)
  /\ (long_break_setter d w = Raised ValueError w <-> d <= 0)
  /\ ((exists w', long_break_setter d w = Done tt w') <-> 0 < d).
Proof.
  repeat split;
    first [ apply work_duration_setter_raises
          | apply work_duration_setter_stores
          | apply short_break_setter_raises
          | apply short_break_setter_stores
          | apply long_break_setter_raises
          | apply long_break_setter_stores ].
Qed.

(** In exact arithmetic, setting a positive duration and reading it back
    through the getter of the same property gives the duration again:
    the setter stores [d * 60], the getter returns the stored number
    divided by 60.  [roundtrip_rounded] below bounds the error when both
    operations round, and [duration_roundtrip_float] treats Python's
    numbers. *)
Lemma duration_roundtrip (d : Q) (w : World) :
  0 < d ->
  (exists v w', (work_duration_setter d ;;; work_duration) w = Done v w'
                /\ v == d)
  /\ (exists v w', (short_break_setter d ;;; short_break) w = Done v w'
                   /\ v == d)
  /\ (exists v w', (long_break_setter d ;;; long_break) w = Done v w'
                   /\ v == d).
Proof.
  intro Hd.
  destruct (setter_cases d) as [[Hn _] | [_ Hb]]; [exfalso; lra |].
  unfold bind, work_duration_setter, short_break_setter, long_break_setter,
    work_duration, short_break, long_break, modify.
  rewrite Hb. cbn.
  repeat split; do 2 eexists; (split; [reflexivity | apply minutes_of_seconds]).
Qed.

(** The same round trip when the multiplication and the division each
    round their result with relative error at most [u], as floating-point
    arithmetic does away from overflow and underflow. *)
Section Rounding.

Variable fl : Q -> Q.
Variable u : Q.
Hypothesis u_nonneg : 0 <= u.
Hypothesis fl_error : forall x, Qabs (fl x - x) <= u * Qabs x.


End Rounding.

(** ** Rounding to a float *)

Lemma round_half_even_error (x : Q) :
  Qabs (inject_Z (round_half_even x) - x) <= 1 # 2.
Proof.
  unfold round_half_even.
  pose proof (Qfloor_le x) as Hlo. pose proof (Qlt_floor x) as Hhi.
  rewrite inject_Z_plus in Hhi.
  assert (H1 : inject_Z 1 == 1) by reflexivity. rewrite H1 in Hhi.
  apply Qabs_Qle_condition.
  destruct (Qcompare (x - inject_Z (Qfloor x)) (1 # 2)) eqn:Hc.
  - apply Qeq_alt in Hc.
    destruct (Z.even (Qfloor x)); [|rewrite inject_Z_plus, H1]; lra.
  - apply Qlt_alt in Hc. lra.
  - apply Qgt_alt in Hc. rewrite inject_Z_plus, H1. lra.
Qed.

Lemma two_pow_pos (e : Z) : 0 < 2 ^ e.
Proof. apply Qpower_0_lt. reflexivity. Qed.

Lemma two_pow_pred (e : Z) : 2 ^ (e - 1) == 2 ^ e / 2.
Proof. rewrite Qpower_minus by (intro H; discriminate H). reflexivity. Qed.

Lemma inject_Z_pos (z : Z) : (0 < z)%Z -> 0 < inject_Z z.
Proof. intro H. change 0 with (inject_Z 0). rewrite <- Zlt_Qlt. exact H. Qed.

(** [ilog2] never overshoots. *)
Lemma ilog2_le (x : Q) : 0 < x -> 2 ^ ilog2 x <= x.
Proof.
  intro Hx. unfold ilog2.
  set (n := Qnum x). set (d := Qden x).
  destruct (Qle_bool (2 ^ (Z.log2 n - Z.log2 (Z.pos d))) x) eqn:Hb.
  - apply Qle_bool_iff. exact Hb.
  - clear Hb.
    assert (Hn : (0 < n)%Z).
    { unfold Qlt in Hx. cbn in Hx. fold n in Hx. lia. }
    pose proof (Z.log2_spec n Hn) as [Hn1 _].
    pose proof (Z.log2_spec (Z.pos d) (Pos2Z.is_pos d)) as [_ Hd2].
    pose proof (Z.log2_nonneg n) as Hln.
    pose proof (Z.log2_nonneg (Z.pos d)) as Hld.
    replace (Z.log2 n - Z.log2 (Z.pos d) - 1)%Z
      with (Z.log2 n - Z.succ (Z.log2 (Z.pos d)))%Z by lia.
    rewrite Qpower_minus by (intro H; discriminate H).
    rewrite <- (Zpower_Qpower 2 (Z.log2 n)) by lia.
    rewrite <- (Zpower_Qpower 2 (Z.succ (Z.log2 (Z.pos d)))) by lia.
    set (N := (2 ^ Z.log2 n)%Z) in *.
    set (D := (2 ^ Z.succ (Z.log2 (Z.pos d)))%Z) in *.
    assert (HD : 0 < inject_Z D).
    { apply inject_Z_pos. unfold D. apply Z.pow_pos_nonneg; lia. }
    apply Qle_shift_div_r; [exact HD|].
    assert (Hx' : x == inject_Z n / inject_Z (Z.pos d)).
    { destruct x as [xn xd]. apply Qmake_Qdiv. }
    assert (Hdpos : 0 < inject_Z (Z.pos d)).
    { apply inject_Z_pos. lia. }
    assert (HND : inject_Z N * inject_Z (Z.pos d) <= inject_Z n * inject_Z D).
    { rewrite <- !inject_Z_mult, <- Zle_Qle. nia. }
    rewrite Hx'. unfold Qdiv.
    rewrite <- Qmult_assoc, (Qmult_comm (/ _)), Qmult_assoc.
    apply Qle_shift_div_l; assumption.
Qed.

(** Nor does it undershoot: it is the exponent of the binade of [x]. *)
Lemma ilog2_lt (x : Q) : 0 < x -> x < 2 ^ (ilog2 x + 1).
Proof.
  intro Hx. unfold ilog2.
  set (n := Qnum x). set (d := Qden x).
  destruct (Qle_bool (2 ^ (Z.log2 n - Z.log2 (Z.pos d))) x) eqn:Hb.
  - clear Hb.
    assert (Hn : (0 < n)%Z).
    { unfold Qlt in Hx. cbn in Hx. fold n in Hx. lia. }
    pose proof (Z.log2_spec n Hn) as [_ Hn2].
    pose proof (Z.log2_spec (Z.pos d) (Pos2Z.is_pos d)) as [Hd1 _].
    pose proof (Z.log2_nonneg n) as Hln.
    pose proof (Z.log2_nonneg (Z.pos d)) as Hld.
    replace (Z.log2 n - Z.log2 (Z.pos d) + 1)%Z
      with (Z.succ (Z.log2 n) - Z.log2 (Z.pos d))%Z by lia.
    rewrite Qpower_minus by (intro H; discriminate H).
    rewrite <- (Zpower_Qpower 2 (Z.succ (Z.log2 n))) by lia.
    rewrite <- (Zpower_Qpower 2 (Z.log2 (Z.pos d))) by lia.
    set (N := (2 ^ Z.succ (Z.log2 n))%Z) in *.
    set (D := (2 ^ Z.log2 (Z.pos d))%Z) in *.
    assert (HD : 0 < inject_Z D).
    { apply inject_Z_pos. unfold D. apply Z.pow_pos_nonneg; lia. }
    apply Qlt_shift_div_l; [exact HD|].
    assert (Hx' : x == inject_Z n / inject_Z (Z.pos d)).
    { destruct x as [xn xd]. apply Qmake_Qdiv. }
    assert (Hdpos : 0 < inject_Z (Z.pos d)).
    { apply inject_Z_pos. lia. }
    assert (HDpos : (0 < D)%Z) by (unfold D; apply Z.pow_pos_nonneg; lia).
    assert (HND : inject_Z n * inject_Z D < inject_Z N * inject_Z (Z.pos d)).
    { rewrite <- !inject_Z_mult, <- Zlt_Qlt. nia. }
    rewrite Hx'. unfold Qdiv.
    rewrite <- Qmult_assoc, (Qmult_comm (/ _)), Qmult_assoc.
    apply Qlt_shift_div_r; assumption.
  - apply Qle_bool_false in Hb.
    replace (Z.log2 n - Z.log2 (Z.pos d) - 1 + 1)%Z
      with (Z.log2 n - Z.log2 (Z.pos d))%Z by lia.
    exact Hb.
Qed.

(** Rounding to a format errs by at most half a spacing: half the
    relative spacing times the value, or half the least spacing. *)
Lemma round_float_error (p emin : Z) (x : Q) :
  Qabs (round_float p emin x - x) <= 2 ^ (- p) * Qabs x + 2 ^ (emin - 1).
Proof.
  unfold round_float.
  pose proof (two_pow_pos (- p)) as Hu.
  pose proof (two_pow_pos (emin - 1)) as He.
  pose proof (Qabs_nonneg x) as Ha.
  destruct (Qeq_bool (Qabs x) 0) eqn:Hz.
  - apply Qeq_bool_iff in Hz.
    assert (Hx : x == 0).
    { assert (Hle : Qabs x <= 0) by lra.
      apply Qabs_Qle_condition in Hle. lra. }
    assert (Hm0 : 0 <= 2 ^ (- p) * Qabs x) by (apply Qmult_le_0_compat; lra).
    setoid_replace (0 - x) with 0 by (rewrite Hx; ring).
    change (Qabs 0) with 0. lra.
  - apply Qeq_bool_neq in Hz.
    assert (Hpos : 0 < Qabs x).
    { apply Qle_lteq in Ha. destruct Ha as [Ha|Ha]; [lra|].
      symmetry in Ha. contradiction. }
    set (a := Qabs x) in *.
    set (e := Z.max (ilog2 a - (p - 1)) emin).
    set (m := round_half_even (a / 2 ^ e)).
    pose proof (two_pow_pos e) as Hpe.
    pose proof (round_half_even_error (a / 2 ^ e)) as Hm. fold m in Hm.
    assert (Hr : Qabs (inject_Z m * 2 ^ e - a) <= 2 ^ e / 2).
    { setoid_replace (inject_Z m * 2 ^ e - a)
        with ((inject_Z m - a / 2 ^ e) * 2 ^ e) by (field; lra).
      rewrite Qabs_Qmult, (Qabs_pos (2 ^ e)) by lra.
      setoid_replace (2 ^ e / 2) with ((1 # 2) * 2 ^ e) by field.
      apply Qmult_le_compat_r; lra. }
    assert (Hbound : 2 ^ e / 2 <= 2 ^ (- p) * a + 2 ^ (emin - 1)).
    { assert (0 <= 2 ^ (- p) * a) by (apply Qmult_le_0_compat; lra).
      unfold e.
      destruct (Z.max_spec (ilog2 a - (p - 1)) emin) as [[_ ->] | [_ ->]].
      - rewrite <- two_pow_pred. lra.
      - rewrite <- two_pow_pred.
        replace (ilog2 a - (p - 1) - 1)%Z with (- p + ilog2 a)%Z by lia.
        rewrite Qpower_plus by (intro H0; discriminate H0).
        pose proof (ilog2_le a Hpos) as Hl.
        assert (2 ^ (- p) * 2 ^ ilog2 a <= 2 ^ (- p) * a).
        { rewrite !(Qmult_comm (2 ^ (- p))). apply Qmult_le_compat_r; lra. }
        lra. }
    destruct (Qle_bool 0 x) eqn:Hs.
    + apply Qle_bool_iff in Hs.
      assert (Hax : a == x) by (unfold a; apply Qabs_pos; exact Hs).
      setoid_replace (inject_Z m * 2 ^ e - x)
        with (inject_Z m * 2 ^ e - a) by (rewrite Hax; ring).
      lra.
    + assert (Hs' : x < 0).
      { destruct (Qlt_le_dec x 0) as [H0|H0]; [exact H0|].
        apply Qle_bool_iff in H0. congruence. }
      assert (Hax : a == - x) by (unfold a; apply Qabs_neg; lra).
      setoid_replace (- (inject_Z m * 2 ^ e) - x)
        with (- (inject_Z m * 2 ^ e - a)) by (rewrite Hax; ring).
      rewrite Qabs_opp. lra.
Qed.

Lemma unit_roundoff_nonneg (A : arith) : 0 <= unit_roundoff A.
Proof.
  destruct A as [|p emin emax]; cbn [unit_roundoff]; [lra|].
  apply Qlt_le_weak, two_pow_pos.
Qed.

Lemma eta_nonneg (A : arith) : 0 <= eta A.
Proof.
  destruct A as [|p emin emax]; cbn [eta]; [lra|].
  apply Qlt_le_weak, two_pow_pos.
Qed.

Lemma rnd_error (A : arith) (x : Q) :
  Qabs (rnd A x - x) <= unit_roundoff A * Qabs x + eta A.
Proof.
  destruct A as [|p emin emax]; cbn [rnd unit_roundoff eta].
  - setoid_replace (x - x) with 0 by ring. change (Qabs 0) with 0. lra.
  - set (y := Qred x). assert (Hy : y == x) by apply Qred_correct.
    clearbody y. rewrite Qred_correct, <- Hy. apply round_float_error.
Qed.

(** The same bound without absolute values, for a value that is not
    negative. *)
Lemma rnd_near (A : arith) (x : Q) :
  0 <= x ->
  x - (unit_roundoff A * x + eta A) <= rnd A x
  /\ rnd A x <= x + (unit_roundoff A * x + eta A).
Proof.
  intro Hx. pose proof (rnd_error A x) as H.
  rewrite (Qabs_pos x Hx) in H.
  apply Qabs_Qle_condition in H. lra.
Qed.

Lemma rnd_proper (A : arith) (x y : Q) : x == y -> rnd A x == rnd A y.
Proof.
  intro H. destruct A as [|p emin emax]; cbn [rnd]; [exact H|].
  rewrite (Qred_complete x y H). reflexivity.
Qed.

Lemma fits_proper (A : arith) (r r' : Q) : r == r' -> fits A r = fits A r'.
Proof.
  intro H. unfold fits. destruct (largest A) as [L|]; [|reflexivity].
  rewrite H. reflexivity.
Qed.

Lemma finish_Fin (A : arith) (x r : Q) :
  finish A x = Fin r -> r = rnd A x /\ fits A r = true.
Proof.
  unfold finish. destruct (fits A (rnd A x)) eqn:Hf; [|discriminate].
  intro H. injection H as <-. split; [reflexivity | exact Hf].
Qed.

Lemma finish_fits (A : arith) (x : Q) :
  fits A (rnd A x) = true -> finish A x = Fin (rnd A x).
Proof. unfold finish. intros ->. reflexivity. Qed.

Lemma finish_overflow (A : arith) (x : Q) :
  fits A (rnd A x) = false -> finish A x = Inf (negb (Qle_bool 0 x)).
Proof. unfold finish. intros ->. reflexivity. Qed.

Lemma finish_proper (A : arith) (x y : Q) :
  x == y ->
  (forall r, finish A x = Fin r ->
             exists r', finish A y = Fin r' /\ r' == r)
  /\ (forall s, finish A x = Inf s -> finish A y = Inf s).
Proof.
  intro H. pose proof (rnd_proper A x y H) as Hr.
  pose proof (fits_proper A _ _ Hr) as Hf.
  unfold finish. rewrite <- Hf. destruct (fits A (rnd A x)); split.
  - intros r Hx. injection Hx as <-. eexists. split; [reflexivity|].
    symmetry. exact Hr.
  - intros s Hx. discriminate Hx.
  - intros r Hx. discriminate Hx.
  - intros s Hx. injection Hx as <-. rewrite H. reflexivity.
Qed.

Lemma fits_bound (A : arith) (r : Q) :
  fits A r = true <-> forall L, largest A = Some L -> Qabs r <= L.
Proof.
  unfold fits. destruct (largest A) as [L|].
  - rewrite Qle_bool_iff. split.
    + intros H L' HL. injection HL as <-. exact H.
    + intro H. apply H. reflexivity.
  - split; [intros _ L HL; discriminate HL | reflexivity].
Qed.

Lemma ordinary_exact : ordinary Exact.
Proof.
  unfold ordinary. split; [|split].
  - reflexivity.
  - cbn. lra.
  - intros L HL. discriminate HL.
Qed.

Lemma ordinary_binary64 : ordinary binary64.
Proof.
  unfold ordinary. split; [|split].
  - vm_compute. reflexivity.
  - apply Qle_bool_iff. vm_compute. reflexivity.
  - intros L HL. injection HL as <-.
    apply Qle_bool_iff. vm_compute. reflexivity.
Qed.

Lemma ordinary_binary32 : ordinary binary32.
Proof.
  unfold ordinary. split; [|split].
  - vm_compute. reflexivity.
  - apply Qle_bool_iff. vm_compute. reflexivity.
  - intros L HL. injection HL as <-.
    apply Qle_bool_iff. vm_compute. reflexivity.
Qed.

(** ** The duration properties over floats *)

Lemma float_path (A : arith) (d s : Q) :
  ordinary A -> 0 < d -> finish A (d * 60) = Fin s ->
  let u := unit_roundoff A in
  duration_setter A (PyFloat (Fin d)) = inr (PyFloat (Fin s))
  /\ set_then_get A (PyFloat (Fin d)) = inr (PyFloat (Fin (rnd A (s / 60))))
  /\ Qabs (rnd A (s / 60) - d) <= (2 * u + u * u) * d + 2 * eta A.
Proof.
  intros (H60 & Hu1 & Hroom) Hd Hs u.
  pose proof (unit_roundoff_nonneg A) as Hu0. fold u in Hu0, Hu1, Hroom.
  pose proof (eta_nonneg A) as He0.
  assert (Hle : Qle_bool d (inject_Z 0) = false)
    by (apply Qle_bool_false; exact Hd).
  assert (Hset : duration_setter A (PyFloat (Fin d)) = inr (PyFloat (Fin s))).
  { unfold duration_setter, num_le_int, float_le. rewrite Hle.
    unfold num_mul_int. rewrite H60. unfold float_mul. rewrite Hs.
    reflexivity. }
  destruct (finish_Fin _ _ _ Hs) as [Hsr Hsf].
  assert (Hx1 : 0 <= d * 60) by lra.
  destruct (rnd_near A (d * 60) Hx1) as [Hs1 Hs2].
  fold u in Hs1, Hs2. rewrite <- Hsr in Hs1, Hs2.
  assert (Ht : s / 60 * 60 == s) by field.
  pose proof (rnd_error A (s / 60)) as Hr. fold u in Hr.
  set (t := s / 60) in *. set (r := rnd A t) in *.
  assert (Hrt : r = rnd A t) by reflexivity.
  assert (Htt : t = s / 60) by reflexivity.
  clearbody r t.
  pose proof (Qabs_nonneg t) as Hn.
  pose proof (Qle_Qabs t) as Hq.
  pose proof (Qle_Qabs (- t)) as Hq'. rewrite Qabs_opp in Hq'.
  assert (Hud : 0 <= u * d) by (apply Qmult_le_0_compat; lra).
  assert (Huud : 0 <= u * (u * d)) by (apply Qmult_le_0_compat; lra).
  assert (Hue : 0 <= u * eta A) by (apply Qmult_le_0_compat; lra).
  assert (Hue1 : u * eta A <= eta A).
  { setoid_replace (eta A) with (1 * eta A) at 2 by ring.
    apply Qmult_le_compat_r; lra. }
  assert (Hta : Qabs t <= d + u * d + eta A * (1 # 60)).
  { apply Qabs_Qle_condition. split; lra. }
  assert (Hut : u * Qabs t <= u * d + u * (u * d) + u * eta A * (1 # 60)).
  { setoid_replace (u * d + u * (u * d) + u * eta A * (1 # 60))
      with (u * (d + u * d + eta A * (1 # 60))) by ring.
    rewrite !(Qmult_comm u). apply Qmult_le_compat_r; lra. }
  assert (Hfit : fits A r = true).
  { apply fits_bound. intros L HL.
    pose proof (proj1 (fits_bound A s) Hsf L HL) as HsL.
    pose proof (Hroom L HL) as HLroom.
    apply Qabs_Qle_condition in HsL.
    assert (HtL : Qabs t <= L * (1 # 60)).
    { apply Qabs_Qle_condition. lra. }
    assert (HutL : u * Qabs t <= u * (L * (1 # 60))).
    { rewrite !(Qmult_comm u). apply Qmult_le_compat_r; lra. }
    assert (Hx : L * (1 + u) / 60 == L * (1 # 60) + u * (L * (1 # 60)))
      by field.
    rewrite Hx in HLroom.
    apply Qabs_Qle_condition in Hr.
    apply Qabs_Qle_condition. lra. }
  split; [exact Hset|]. split.
  - unfold set_then_get. rewrite Hset.
    unfold duration_getter, num_div_int. rewrite H60.
    unfold float_div. change (Qeq_bool 60 0) with false. cbv iota.
    rewrite <- Htt, (finish_fits A t); rewrite <- Hrt; [reflexivity|].
    exact Hfit.
  - apply Qabs_Qle_condition in Hr. apply Qabs_Qle_condition. lra.
Qed.

Lemma overflow_path (A : arith) (d : Q) :
  ordinary A -> 0 < d -> finish A (d * 60) = Inf false ->
  set_then_get A (PyFloat (Fin d)) = inr (PyFloat (Inf false)).
Proof.
  intros (H60 & _) Hd Hs.
  assert (Hle : Qle_bool d (inject_Z 0) = false)
    by (apply Qle_bool_false; exact Hd).
  unfold set_then_get, duration_setter, num_le_int, float_le.
  rewrite Hle. unfold num_mul_int. rewrite H60. unfold float_mul.
  rewrite Hs. unfold duration_getter, num_div_int. rewrite H60.
  reflexivity.
Qed.

Lemma float_product_cases (A : arith) (d : Q) :
  0 < d ->
  (exists s, finish A (d * 60) = Fin s) \/ finish A (d * 60) = Inf false.
Proof.
  intro Hd. unfold finish. destruct (fits A (rnd A (d * 60))).
  - left. eexists. reflexivity.
  - right. assert (H : Qle_bool 0 (d * 60) = true)
      by (apply Qle_bool_iff; lra).
    rewrite H. reflexivity.
Qed.

Lemma int_path (A : arith) (z : Z) :
  (0 < z)%Z ->
  duration_setter A (PyInt z) = inr (PyInt (z * 60))
  /\ (forall r, finish A (inject_Z z) = Fin r ->
        exists r', set_then_get A (PyInt z) = inr (PyFloat (Fin r'))
                   /\ r' == r
                   /\ Qabs (r' - inject_Z z)
                      <= unit_roundoff A * inject_Z z + eta A)
  /\ (forall s, finish A (inject_Z z) = Inf s ->
        set_then_get A (PyInt z) = inl OverflowError).
Proof.
  intro Hz.
  assert (Hle : (z <=? 0)%Z = false) by (apply Z.leb_gt; exact Hz).
  assert (Hset : duration_setter A (PyInt z) = inr (PyInt (z * 60))).
  { unfold duration_setter, num_le_int. rewrite Hle. reflexivity. }
  assert (Hq : inject_Z z == inject_Z (z * 60) / inject_Z 60).
  { rewrite inject_Z_mult. field. }
  destruct (finish_proper A _ _ Hq) as [HFin HInf].
  split; [exact Hset|]. split.
  - intros r Hr. destruct (HFin r Hr) as (r' & Hr' & Heq).
    exists r'. split; [|split].
    + unfold set_then_get. rewrite Hset.
      unfold duration_getter, num_div_int. cbn [Z.eqb]. rewrite Hr'.
      reflexivity.
    + exact Heq.
    + destruct (finish_Fin _ _ _ Hr) as [-> _]. rewrite Heq.
      pose proof (rnd_error A (inject_Z z)) as He.
      rewrite (Qabs_pos (inject_Z z)) in He; [exact He|].
      apply Qlt_le_weak, inject_Z_pos. exact Hz.
  - intros sg Hs. unfold set_then_get. rewrite Hset.
    unfold duration_getter, num_div_int. cbn [Z.eqb].
    rewrite (HInf sg Hs). reflexivity.
Qed.

Lemma exact_path (d : Q) :
  0 < d ->
  set_then_get Exact (PyFloat (Fin d))
  = inr (PyFloat (Fin (to_minutes (to_seconds d)))).
Proof.
  intro Hd.
  assert (Hle : Qle_bool d (inject_Z 0) = false)
    by (apply Qle_bool_false; exact Hd).
  unfold set_then_get, duration_setter, num_le_int, float_le.
  rewrite Hle. reflexivity.
Qed.

(** C7, as the spec states it, fails for floats, whatever the tolerance:
    the double [2 ^ 1023] is accepted, its product by 60 overflows, the
    setter stores [inf] and the getter returns [inf].  An integer beyond
    the range of floats is stored exactly, and the getter raises
    [OverflowError]. *)
Lemma duration_roundtrip_overflows :
  rnd binary64 (2 ^ 1023) == 2 ^ 1023
  /\ duration_setter binary64 (PyFloat (Fin (2 ^ 1023)))
     = inr (PyFloat (Inf false))
  /\ set_then_get binary64 (PyFloat (Fin (2 ^ 1023)))
     = inr (PyFloat (Inf false))
  /\ set_then_get binary64 (PyInt (10 ^ 400)) = inl OverflowError
  /\ ~ exists tol, roundtrip_within binary64 tol.
Proof.
  assert (Hr : rnd binary64 (2 ^ 1023) == 2 ^ 1023).
  { apply Qeq_bool_iff. vm_compute. reflexivity. }
  assert (Hg : set_then_get binary64 (PyFloat (Fin (2 ^ 1023)))
               = inr (PyFloat (Inf false))).
  { vm_compute. reflexivity. }
  splits.
  - exact Hr.
  - vm_compute. reflexivity.
  - exact Hg.
  - vm_compute. reflexivity.
  - intros [tol H].
    destruct (H (2 ^ 1023) (two_pow_pos 1023) Hr) as (r & Hget & _).
    rewrite Hg in Hget. discriminate Hget.
Qed.

(** C7, amended.  In a format of floats that rounds to nearest, with
    [u] half the relative spacing and [eta] half the least spacing
    ([2 ^ -53] and [2 ^ -1075] for doubles), and for a positive float
    [d]: either [d * 60] is in range, and then the setter stores it
    rounded and the getter returns [r] with
    [|r - d| <= (2u + u^2) d + 2 eta]; or [d * 60] overflows, and then
    the setter stores [inf] and the getter returns [inf].  For a
    positive integer [z] the setter stores [z * 60] exactly and the
    getter returns the float nearest to [z], or raises [OverflowError]
    when that is beyond the range.  The setter accepts [inf] and [nan],
    which the getter returns.  In exact arithmetic the round trip is
    the one of the three properties of the rational model, and returns
    [d]. *)
Theorem duration_roundtrip_float (A : arith) (d : Q) (z : Z) (w : World) :
  ordinary A -> 0 < d -> (0 < z)%Z ->
  let u := unit_roundoff A in
  ((exists s, finish A (d * 60) = Fin s) \/ finish A (d * 60) = Inf false)
  /\ (forall s, finish A (d * 60) = Fin s ->
        duration_setter A (PyFloat (Fin d)) = inr (PyFloat (Fin s))
        /\ exists r,
             set_then_get A (PyFloat (Fin d)) = inr (PyFloat (Fin r))
             /\ Qabs (r - d) <= (2 * u + u * u) * d + 2 * eta A)
  /\ (finish A (d * 60) = Inf false ->
        set_then_get A (PyFloat (Fin d)) = inr (PyFloat (Inf false)))
  /\ duration_setter A (PyInt z) = inr (PyInt (z * 60))
  /\ (forall r, finish A (inject_Z z) = Fin r ->
        exists r', set_then_get A (PyInt z) = inr (PyFloat (Fin r'))
                   /\ r' == r
                   /\ Qabs (r' - inject_Z z) <= u * inject_Z z + eta A)
  /\ (forall s, finish A (inject_Z z) = Inf s ->
        set_then_get A (PyInt z) = inl OverflowError)
  /\ set_then_get A (PyFloat (Inf false)) = inr (PyFloat (Inf false))
  /\ set_then_get A (PyFloat NaN) = inr (PyFloat NaN)
  /\ (exists v w',
        (work_duration_setter d ;;; work_duration) w = Done v w'
        /\ set_then_get Exact (PyFloat (Fin d)) = inr (PyFloat (Fin v))
        /\ v == d)
  /\ (exists v w',
        (short_break_setter d ;;; short_break) w = Done v w'
        /\ set_then_get Exact (PyFloat (Fin d)) = inr (PyFloat (Fin v))
        /\ v == d)
  /\ (exists v w',
        (long_break_setter d ;;; long_break) w = Done v w'
        /\ set_then_get Exact (PyFloat (Fin d)) = inr (PyFloat (Fin v))
        /\ v == d).
Proof.
  intros HA Hd Hz u.
  destruct (int_path A z Hz) as (Hi1 & Hi2 & Hi3).
  assert (Hb : Qle_bool d 0 = false) by (apply Qle_bool_false; exact Hd).
  splits.
  - apply float_product_cases. exact Hd.
  - intros s Hs. destruct (float_path A d s HA Hd Hs) as (H1 & H2 & H3).
    split; [exact H1|]. eexists. split; [exact H2 | exact H3].
  - apply overflow_path; assumption.
  - exact Hi1.
  - exact Hi2.
  - exact Hi3.
  - destruct HA as (H60 & _).
    unfold set_then_get, duration_setter, num_le_int, float_le, num_mul_int.
    rewrite H60. unfold duration_getter, num_div_int. rewrite H60.
    reflexivity.
  - destruct HA as (H60 & _).
    unfold set_then_get, duration_setter, num_le_int, float_le, num_mul_int.
    rewrite H60. unfold duration_getter, num_div_int. rewrite H60.
    reflexivity.
  - exists (to_minutes (to_seconds d)). eexists. splits.
    + unfold bind, work_duration_setter, work_duration, modify.
      rewrite Hb. reflexivity.
    + apply exact_path. exact Hd.
    + apply minutes_of_seconds.
  - exists (to_minutes (to_seconds d)). eexists. splits.
    + unfold bind, short_break_setter, short_break, modify.
      rewrite Hb. reflexivity.
    + apply exact_path. exact Hd.
    + apply minutes_of_seconds.
  - exists (to_minutes (to_seconds d)). eexists. splits.
    + unfold bind, long_break_setter, long_break, modify.
      rewrite Hb. reflexivity.
    + apply exact_path. exact Hd.
    + apply minutes_of_seconds.
Qed.

Lemma duration_roundtrip_float_witness :
  (exists r,
     set_then_get binary64 (PyFloat (Fin 45)) = inr (PyFloat (Fin r))
     /\ Qabs (r - 45)
        <= (2 * 2 ^ (- 53) + 2 ^ (- 53) * 2 ^ (- 53)) * 45
           + 2 * 2 ^ (- 1075))
  /\ set_then_get binary64 (PyFloat (Fin 45)) = inr (PyFloat (Fin 45))
  /\ set_then_get binary64 (PyInt 45) = inr (PyFloat (Fin 45)).
Proof.
  split; [|split; vm_compute; reflexivity].
  refine (proj2 (proj1 (proj2
    (duration_roundtrip_float binary64 45 45 (fresh_world true)
       ordinary_binary64 _ _)) (rnd binary64 (45 * 60)) _)).
  - reflexivity.
  - reflexivity.
  - vm_compute. reflexivity.
Defined.

(** ** The debouncer *)

Section Debouncer.

Variable E : Env.

(** The three exits of [single_press_a], with the store they leave. *)
Lemma single_press_a_eq (w : World) :
  single_press_a E w =
  if negb (raw_a E (instant w)) then Done false (advance w)
  else if Qgtb (clock E (S (instant w)) - last_button_a (cpx w))
               (sensitivity (cpx w))
       then Done true
              (mkWorld (3 + instant w) (pixels w) (trace w)
                 (set_last_button_a (clock E (2 + instant w)) (cpx w))
                 (self w))
       else Done false (advance (advance w)).
Proof.
  unfold single_press_a, bind, button_a, monotonic, get_world, modify, ret.
  destruct (raw_a E (instant w)); cbn; [|reflexivity].
  destruct (Qgtb _ _); reflexivity.
Qed.

Lemma single_press_b_eq (w : World) :
  single_press_b E w =
  if negb (raw_b E (instant w)) then Done false (advance w)
  else if Qgtb (clock E (S (instant w)) - last_button_b (cpx w))
               (sensitivity (cpx w))
       then Done true
              (mkWorld (3 + instant w) (pixels w) (trace w)
                 (set_last_button_b (clock E (2 + instant w)) (cpx w))
                 (self w))
       else Done false (advance (advance w)).
Proof.
  unfold single_press_b, bind, button_b, monotonic, get_world, modify, ret.
  destruct (raw_b E (instant w)); cbn; [|reflexivity].
  destruct (Qgtb _ _); reflexivity.
Qed.

(** A poll always returns, touches nothing but the sample counter and
    the board object, and never the sensitivity. *)
Lemma single_press_a_frame (w : World) :
  exists b w', single_press_a E w = Done b w'
    /\ pixels w' = pixels w /\ trace w' = trace w /\ self w' = self w
    /\ sensitivity (cpx w') = sensitivity (cpx w)
    /\ (instant w < instant w' <= 3 + instant w)%nat
    /\ (b = false -> cpx w' = cpx w).
Proof.
  rewrite single_press_a_eq.
  destruct (negb _); [|destruct (Qgtb _ _)];
    do 2 eexists; (split; [reflexivity|]); cbn;
    repeat split; try lia; try reflexivity; discriminate.
Qed.

Lemma single_press_b_frame (w : World) :
  exists b w', single_press_b E w = Done b w'
    /\ pixels w' = pixels w /\ trace w' = trace w /\ self w' = self w
    /\ sensitivity (cpx w') = sensitivity (cpx w)
    /\ (instant w < instant w' <= 3 + instant w)%nat
    /\ (b = false -> cpx w' = cpx w).
Proof.
  rewrite single_press_b_eq.
  destruct (negb _); [|destruct (Qgtb _ _)];
    do 2 eexists; (split; [reflexivity|]); cbn;
    repeat split; try lia; try reflexivity; discriminate.
Qed.

Lemma poll_times_a_spaced (Hmono : monotone E) (n : nat) :
  forall w,
    spaced (sensitivity (cpx w)) (last_button_a (cpx w)) (poll_times_a E n w).
Proof.
  induction n as [|n IH]; intro w; cbn [poll_times_a]; [exact I|].
  rewrite single_press_a_eq.
  destruct (negb _).
  - apply (IH (advance w)).
  - destruct (Qgtb _ _) eqn:Hgt.
    + apply Qgtb_true in Hgt. cbn [spaced]. split.
      * cbn. pose proof (Hmono (S (instant w))) as Hm. cbn in Hm. lra.
      * match goal with |- spaced _ _ (poll_times_a _ _ ?w1) =>
          exact (IH w1) end.
    + apply (IH (advance (advance w))).
Qed.

Lemma poll_times_b_spaced (Hmono : monotone E) (n : nat) :
  forall w,
    spaced (sensitivity (cpx w)) (last_button_b (cpx w)) (poll_times_b E n w).
Proof.
  induction n as [|n IH]; intro w; cbn [poll_times_b]; [exact I|].
  rewrite single_press_b_eq.
  destruct (negb _).
  - apply (IH (advance w)).
  - destruct (Qgtb _ _) eqn:Hgt.
    + apply Qgtb_true in Hgt. cbn [spaced]. split.
      * cbn. pose proof (Hmono (S (instant w))) as Hm. cbn in Hm. lra.
      * match goal with |- spaced _ _ (poll_times_b _ _ ?w1) =>
          exact (IH w1) end.
    + apply (IH (advance (advance w))).
Qed.

End Debouncer.

(** C3.  Every read of [single_press_a] or [single_press_b] returns.
    When the raw button reads false it returns false and the board
    object keeps its timestamps.  When the raw button reads true and the
    clock is more than [sensitivity] after the channel's last trigger
    time, it stores the clock (read once more) as the new trigger time
    and returns true.  Otherwise it returns false and keeps the
    timestamps.  [Express.__init__] sets the sensitivity to 0.25.  Hence,
    on a clock that never goes back, the trigger times taken by any
    number of successive reads are each more than [sensitivity] after
    the previous one: a held button fires once per window. *)
Theorem single_press_throttle (E : Env) (w : World) :
  (raw_a E (instant w) = false ->
     exists w', single_press_a E w = Done false w' /\ cpx w' = cpx w)
  /\ (raw_a E (instant w) = true ->
      sensitivity (cpx w) < clock E (S (instant w)) - last_button_a (cpx w) ->
      exists w', single_press_a E w = Done true w'
        /\ last_button_a (cpx w') = clock E (S (S (instant w)))
        /\ last_button_b (cpx w') = last_button_b (cpx w))
  /\ (raw_a E (instant w) = true ->
      clock E (S (instant w)) - last_button_a (cpx w) <= sensitivity (cpx w) ->
      exists w', single_press_a E w = Done false w' /\ cpx w' = cpx w)
  /\ (raw_b E (instant w) = false ->
      exists w', single_press_b E w = Done false w' /\ cpx w' = cpx w)
  /\ (raw_b E (instant w) = true ->
      sensitivity (cpx w) < clock E (S (instant w)) - last_button_b (cpx w) ->
      exists w', single_press_b E w = Done true w'
        /\ last_button_b (cpx w') = clock E (S (S (instant w)))
        /\ last_button_a (cpx w') = last_button_a (cpx w))
  /\ (raw_b E (instant w) = true ->
      clock E (S (instant w)) - last_button_b (cpx w) <= sensitivity (cpx w) ->
      exists w', single_press_b E w = Done false w' /\ cpx w' = cpx w)
  /\ (forall w1, Express_init E w = Done tt w1 ->
      sensitivity (cpx w1) = 25 # 100)
  /\ (monotone E ->
      forall n,
        spaced (sensitivity (cpx w)) (last_button_a (cpx w))
          (poll_times_a E n w)
        /\ spaced (sensitivity (cpx w)) (last_button_b (cpx w))
             (poll_times_b E n w)).
Proof.
  repeat match goal with |- _ /\ _ => split end.
  - intro Hraw. rewrite single_press_a_eq, Hraw. cbn.
    eexists; split; reflexivity.
  - intros Hraw Hgt. apply Qgtb_true in Hgt.
    rewrite single_press_a_eq, Hraw, Hgt. cbn.
    eexists; repeat split; reflexivity.
  - intros Hraw Hle. apply Qgtb_false in Hle.
    rewrite single_press_a_eq, Hraw, Hle. cbn.
    eexists; split; reflexivity.
  - intro Hraw. rewrite single_press_b_eq, Hraw. cbn.
    eexists; split; reflexivity.
  - intros Hraw Hgt. apply Qgtb_true in Hgt.
    rewrite single_press_b_eq, Hraw, Hgt. cbn.
    eexists; repeat split; reflexivity.
  - intros Hraw Hle. apply Qgtb_false in Hle.
    rewrite single_press_b_eq, Hraw, Hle. cbn.
    eexists; split; reflexivity.
  - intros w1 H. unfold Express_init, bind, monotonic, modify in H.
    cbn in H. injection H as <-. reflexivity.
  - intros Hmono n. split.
    + apply poll_times_a_spaced; exact Hmono.
    + apply poll_times_b_spaced; exact Hmono.
Qed.

Lemma E_held_monotone : monotone E_held.
Proof.
  intro n. unfold E_held, clock, Qle. cbn [Qnum Qden]. lia.
Qed.

Lemma single_press_throttle_witness :
  poll_times_a E_held 6 (fresh_world true) = [4 # 8; 9 # 8; 14 # 8]
  /\ spaced (25 # 100) 0 (poll_times_a E_held 6 (fresh_world true)).
Proof.
  split; [reflexivity|].
  apply (single_press_throttle E_held (fresh_world true)).
  exact E_held_monotone.
Defined.

(** ** Reasoning on monadic code *)

Lemma bind_done {A B} (m : M A) (k : A -> M B) (w : World) (b : B)
  (w' : World) :
  bind m k w = Done b w' ->
  exists a w1, m w = Done a w1 /\ k a w1 = Done b w'.
Proof.
  unfold bind. destruct (m w) as [a w1 | e w1 |]; try discriminate.
  intro H. exists a, w1. split; [reflexivity | exact H].
Qed.

Lemma bind_eq {A B} (m : M A) (k : A -> M B) (w : World) (a : A)
  (w1 : World) :
  m w = Done a w1 -> bind m k w = k a w1.
Proof. unfold bind. intros ->. reflexivity. Qed.

Lemma pixels_set_all_done (cs : list RGB) (w w' : World) :
  pixels_set_all cs w = Done tt w' ->
  w' = mkWorld (instant w) cs (trace w ++ [EvSetAll cs]) (cpx w) (self w)
  /\ List.length cs = List.length (pixels w).
Proof.
  unfold pixels_set_all.
  destruct (Nat.eqb _ _) eqn:Hlen; [|discriminate].
  intro H. injection H as <-. apply Nat.eqb_eq in Hlen. split; [reflexivity | exact Hlen].
Qed.

Lemma pixels_set_all_ok (cs : list RGB) (w : World) :
  List.length cs = List.length (pixels w) ->
  pixels_set_all cs w
  = Done tt (mkWorld (instant w) cs (trace w ++ [EvSetAll cs]) (cpx w) (self w)).
Proof.
  intro H. unfold pixels_set_all. rewrite H, Nat.eqb_refl. reflexivity.
Qed.

Tactic Notation "inv_bind" hyp(H) "as" ident(a) ident(w1) ident(H1) :=
  apply bind_done in H; destruct H as (a & w1 & H1 & H).

(** ** The pause *)

Section Pause.

Variable E : Env.

Lemma pause_frame_refl (w : World) : pause_frame w w.
Proof.
  repeat split; try lia. exists []. rewrite app_nil_r. split; reflexivity.
Qed.

Lemma pause_frame_trans (w1 w2 w3 : World) :
  pause_frame w1 w2 -> pause_frame w2 w3 -> pause_frame w1 w3.
Proof.
  intros (Hs1 & Hi1 & Hl1 & e1 & Ht1 & Hf1) (Hs2 & Hi2 & Hl2 & e2 & Ht2 & Hf2).
  repeat split; try congruence; try lia.
  exists (e1 ++ e2). rewrite Ht2, Ht1, app_assoc, forallb_app, Hf1, Hf2.
  split; reflexivity.
Qed.

Lemma pause_frame_advance (w : World) : pause_frame w (advance w).
Proof.
  repeat split; cbn; try lia. exists []. rewrite app_nil_r. split; reflexivity.
Qed.

Lemma pause_frame_set_all (cs : list RGB) (w w' : World) :
  pixels_set_all cs w = Done tt w' -> pause_frame w w'.
Proof.
  intro H. apply pixels_set_all_done in H. destruct H as [-> Hlen].
  repeat split; cbn; try lia; try assumption.
  exists [EvSetAll cs]. split; reflexivity.
Qed.

Lemma pause_frame_press_a (w w' : World) (b : bool) :
  single_press_a E w = Done b w' -> pause_frame w w'.
Proof.
  intro H. destruct (single_press_a_frame E w)
    as (b0 & w0 & H0 & Hp & Ht & Hs & _ & Hi & _).
  rewrite H in H0. injection H0 as <- <-.
  repeat split; try congruence; try lia.
  exists []. rewrite app_nil_r. split; [exact Ht | reflexivity].
Qed.

Lemma pause_frame_press_b (w w' : World) (b : bool) :
  single_press_b E w = Done b w' -> pause_frame w w'.
Proof.
  intro H. destruct (single_press_b_frame E w)
    as (b0 & w0 & H0 & Hp & Ht & Hs & _ & Hi & _).
  rewrite H in H0. injection H0 as <- <-.
  repeat split; try congruence; try lia.
  exists []. rewrite app_nil_r. split; [exact Ht | reflexivity].
Qed.

Lemma blink_frame (w w' : World) :
  blink w = Done tt w' -> pause_frame w w'.
Proof.
  unfold blink. intro H. inv_bind H as cur w1 Hget.
  unfold pixels_get_all in Hget. injection Hget as <- <-.
  unfold bind, get_world in H.
  assert (Hg : pause_frame w (emit EvGetAll w)).
  { repeat split; cbn; try lia. exists [EvGetAll]. split; reflexivity. }
  destruct (pixels_eqb _ _);
    (eapply pause_frame_trans; [exact Hg | eapply pause_frame_set_all; exact H]).
Qed.

(** One round of the loop of [pause]: it returns only when a channel
    accepted a press, and then the buffer holds [led_state] again. *)
Lemma pause_iter_done (pause_time : Q) (w w' : World) (r : Q + unit) :
  pause_iter E pause_time w = Done r w' ->
  pause_frame w w'
  /\ (forall u, r = inr u ->
        pixels w' = led_state (self w)
        /\ exists w0 w1,
             (instant w <= instant w0)%nat
             /\ press_accepted E w0 w1
             /\ pixels_set_all (led_state (self w1)) w1 = Done tt w').
Proof.
  unfold pause_iter. intro H.
  inv_bind H as t wt Ht. unfold monotonic in Ht. injection Ht as <- <-.
  inv_bind H as pt w0 Hblink.
  assert (Hb : pause_frame (advance w) w0).
  { destruct (Qgtb _ _).
    - inv_bind Hblink as u wk Hk. destruct u. apply blink_frame in Hk.
      unfold monotonic in Hblink. injection Hblink as _ <-.
      eapply pause_frame_trans; [exact Hk | apply pause_frame_advance].
    - unfold ret in Hblink. injection Hblink as _ <-. apply pause_frame_refl. }
  clear Hblink.
  pose proof (pause_frame_trans _ _ _ (pause_frame_advance w) Hb) as Hw0.
  inv_bind H as pa wa Ha.
  pose proof (pause_frame_press_a _ _ _ Ha) as Hfa.
  inv_bind H as pressed wb Hbp.
  assert (Hacc : pause_frame wa wb
                 /\ (pressed = true -> press_accepted E w0 wb)).
  { destruct pa.
    - unfold ret in Hbp. injection Hbp as <- <-.
      split; [apply pause_frame_refl | intros _; left; exact Ha].
    - split; [eapply pause_frame_press_b; exact Hbp |].
      intros ->. right. exists wa. split; assumption. }
  destruct Hacc as [Hfb Hacc].
  pose proof (pause_frame_trans _ _ _ Hw0 (pause_frame_trans _ _ _ Hfa Hfb))
    as Hwb.
  destruct pressed.
  - unfold bind, get_world in H.
    destruct (pixels_set_all (led_state (self wb)) wb) as [[] w2 | |] eqn:Hset;
      try discriminate.
    unfold ret in H. injection H as <- <-.
    split.
    + eapply pause_frame_trans; [exact Hwb | eapply pause_frame_set_all; exact Hset].
    + intros u _. split.
      * pose proof Hset as Hset'. apply pixels_set_all_done in Hset'.
        destruct Hset' as [-> _]. cbn.
        destruct Hwb as (-> & _). reflexivity.
      * exists w0, wb. repeat split.
        -- destruct Hw0 as (_ & Hi & _). exact Hi.
        -- apply Hacc; reflexivity.
        -- exact Hset.
  - unfold ret in H. injection H as <- <-.
    split; [exact Hwb | intros u Hu; discriminate].
Qed.

Lemma pause_loop_done (fuel : nat) :
  forall pause_time w w',
    pause_loop E fuel pause_time w = Done tt w' ->
    pause_frame w w'
    /\ pixels w' = led_state (self w)
    /\ exists w0 w1,
         (instant w <= instant w0)%nat
         /\ press_accepted E w0 w1
         /\ pixels_set_all (led_state (self w1)) w1 = Done tt w'.
Proof.
  induction fuel as [|fuel IH]; intros pause_time w w' H; [discriminate|].
  cbn [pause_loop] in H. inv_bind H as r wi Hiter.
  apply pause_iter_done in Hiter. destruct Hiter as [Hf Hret].
  destruct r as [pause_time' | u].
  - apply IH in H. destruct H as (Hf' & Hpx & w0 & w2 & Hi & Hacc & Hset).
    split; [eapply pause_frame_trans; eassumption|].
    split.
    + rewrite Hpx. destruct Hf as (-> & _). reflexivity.
    + exists w0, w2. repeat split; try assumption.
      destruct Hf as (_ & Hi' & _). lia.
  - unfold ret in H. injection H as <-.
    destruct (Hret u eq_refl) as (Hpx & Hex).
    split; [exact Hf | split; [exact Hpx | exact Hex]].
Qed.

(** [pause]: if it returns, the buffer is the one it found on entry, the
    snapshot is that buffer, and the last thing before the final write
    was a poll that accepted a press. *)
Lemma pause_done (fuel : nat) (w w' : World) :
  pause E fuel w = Done tt w' ->
  pixels w' = pixels w
  /\ led_state (self w') = pixels w
  /\ self w' = set_led_state (pixels w) (self w)
  /\ (instant w < instant w')%nat
  /\ (exists evs, trace w' = trace w ++ EvGetAll :: evs
                  /\ forallb is_pause evs = true)
  /\ exists w0 w1,
       (instant w < instant w0)%nat
       /\ press_accepted E w0 w1
       /\ pixels_set_all (pixels w) w1 = Done tt w'.
Proof.
  unfold pause. intro H.
  inv_bind H as t wt Ht. unfold monotonic in Ht. injection Ht as <- <-.
  inv_bind H as snap wg Hg. unfold pixels_get_all in Hg. injection Hg as <- <-.
  inv_bind H as u wm Hm. unfold modify in Hm. injection Hm as Hm. subst wm.
  apply pause_loop_done in H.
  destruct H as ((Hs & Hi & Hl & evs & Ht & Hf) & Hpx & w0 & w1 & Hi0 & Hacc & Hset).
  cbn in *.
  repeat split.
  - exact Hpx.
  - rewrite Hs. reflexivity.
  - exact Hs.
  - lia.
  - exists evs. split; [|exact Hf]. rewrite Ht, <- app_assoc. reflexivity.
  - exists w0, w1. repeat split; try assumption; try lia.
    assert (Hself : self w1 = self w').
    { apply pixels_set_all_done in Hset. destruct Hset as [-> _]. reflexivity. }
    rewrite Hself, Hs in Hset. exact Hset.
Qed.

Lemma pause_kept_refl (w : World) : pause_kept w w.
Proof. split; [apply pause_frame_refl | reflexivity]. Qed.

Lemma pause_kept_trans (w1 w2 w3 : World) :
  pause_kept w1 w2 -> pause_kept w2 w3 -> pause_kept w1 w3.
Proof.
  intros [F1 C1] [F2 C2].
  split; [eapply pause_frame_trans; eassumption | congruence].
Qed.

Lemma pause_kept_advance (w : World) : pause_kept w (advance w).
Proof. split; [apply pause_frame_advance | reflexivity]. Qed.

Lemma pause_kept_set_all (cs : list RGB) (w w' : World) :
  pixels_set_all cs w = Done tt w' -> pause_kept w w'.
Proof.
  intro H. split; [eapply pause_frame_set_all; exact H|].
  apply pixels_set_all_done in H. destruct H as [-> _]. reflexivity.
Qed.

Lemma pause_kept_rejected_a (w w' : World) :
  single_press_a E w = Done false w' -> pause_kept w w'.
Proof.
  intro H. split; [eapply pause_frame_press_a; exact H|].
  destruct (single_press_a_frame E w) as (b & w0 & H0 & _ & _ & _ & _ & _ & Hc).
  rewrite H in H0. injection H0 as <- <-. apply Hc. reflexivity.
Qed.

Lemma pause_kept_rejected_b (w w' : World) :
  single_press_b E w = Done false w' -> pause_kept w w'.
Proof.
  intro H. split; [eapply pause_frame_press_b; exact H|].
  destruct (single_press_b_frame E w) as (b & w0 & H0 & _ & _ & _ & _ & _ & Hc).
  rewrite H in H0. injection H0 as <- <-. apply Hc. reflexivity.
Qed.

Lemma pause_kept_blink (w w' : World) :
  blink w = Done tt w' -> pause_kept w w'.
Proof.
  intro H. split; [apply blink_frame; exact H|].
  unfold blink in H. inv_bind H as cur w1 Hget.
  unfold pixels_get_all in Hget. injection Hget as <- <-.
  unfold bind, get_world in H.
  destruct (pixels_eqb _ _); apply pixels_set_all_done in H;
    destruct H as [-> _]; reflexivity.
Qed.

(** One round of the loop of [pause]: a round that does not return
    keeps the board object; a round that returns does so after a poll,
    taken in a store [w0] that has the board object of [w], in which a
    channel accepted a press. *)
Lemma pause_iter_tied (pause_time : Q) (w w' : World) (r : Q + unit) :
  pause_iter E pause_time w = Done r w' ->
  (forall pt, r = inl pt -> pause_kept w w')
  /\ (forall u, r = inr u ->
        exists w0 w1,
          pause_kept w w0
          /\ (instant w < instant w0)%nat
          /\ press_accepted E w0 w1
          /\ pixels_set_all (led_state (self w1)) w1 = Done tt w').
Proof.
  unfold pause_iter. intro H.
  inv_bind H as t wt Ht. unfold monotonic in Ht. injection Ht as <- <-.
  inv_bind H as pt w0 Hblink.
  assert (Hb : pause_kept (advance w) w0).
  { destruct (Qgtb _ _).
    - inv_bind Hblink as u wk Hk. destruct u. apply pause_kept_blink in Hk.
      unfold monotonic in Hblink. injection Hblink as _ <-.
      eapply pause_kept_trans; [exact Hk | apply pause_kept_advance].
    - unfold ret in Hblink. injection Hblink as _ <-. apply pause_kept_refl. }
  clear Hblink.
  pose proof (pause_kept_trans _ _ _ (pause_kept_advance w) Hb) as Hw0.
  assert (Hi0 : (instant w < instant w0)%nat).
  { destruct Hb as ((_ & Hi & _) & _). cbn [instant advance] in Hi. lia. }
  inv_bind H as pa wa Ha.
  inv_bind H as pressed wb Hbp.
  destruct pa.
  - unfold ret in Hbp. injection Hbp as <- <-.
    unfold bind, get_world in H.
    destruct (pixels_set_all (led_state (self wa)) wa) as [[] w2 | |] eqn:Hset;
      try discriminate.
    unfold ret in H. injection H as <- <-.
    split; [intros pt0 Hc; discriminate Hc|].
    intros u _. exists w0, wa. splits; try assumption. left. exact Ha.
  - destruct pressed.
    + unfold bind, get_world in H.
      destruct (pixels_set_all (led_state (self wb)) wb) as [[] w2 | |] eqn:Hset;
        try discriminate.
      unfold ret in H. injection H as <- <-.
      split; [intros pt0 Hc; discriminate Hc|].
      intros u _. exists w0, wb. splits; try assumption.
      right. exists wa. split; assumption.
    + unfold ret in H. injection H as <- <-.
      split; [|intros u Hc; discriminate Hc].
      intros pt0 _.
      eapply pause_kept_trans; [exact Hw0|].
      eapply pause_kept_trans;
        [eapply pause_kept_rejected_a; exact Ha
        | eapply pause_kept_rejected_b; exact Hbp].
Qed.

Lemma pause_loop_tied (fuel : nat) :
  forall pause_time w w',
    pause_loop E fuel pause_time w = Done tt w' ->
    exists w0 w1,
      pause_kept w w0
      /\ (instant w < instant w0)%nat
      /\ press_accepted E w0 w1
      /\ pixels_set_all (led_state (self w1)) w1 = Done tt w'.
Proof.
  induction fuel as [|fuel IH]; intros pause_time w w' H; [discriminate|].
  cbn [pause_loop] in H. inv_bind H as r wi Hiter.
  apply pause_iter_tied in Hiter. destruct Hiter as [Hgo Hret].
  destruct r as [pause_time' | u].
  - apply IH in H. destruct H as (w0 & w1 & Hk & Hi & Hacc & Hset).
    pose proof (Hgo _ eq_refl) as Hk0.
    exists w0, w1. splits; try assumption.
    + eapply pause_kept_trans; eassumption.
    + destruct Hk0 as ((_ & Hi0 & _) & _). lia.
  - unfold ret in H. injection H as <-. exact (Hret u eq_refl).
Qed.

(** [pause]: the poll that ends it is taken in a store that has the
    board object found on entry, the snapshot taken on entry, and a
    trace that extends the one found on entry by the read of the
    snapshot and by what blinking wrote. *)
Lemma pause_tied (fuel : nat) (w w' : World) :
  pause E fuel w = Done tt w' ->
  exists w0 w1,
    (instant w < instant w0)%nat
    /\ cpx w0 = cpx w
    /\ self w0 = set_led_state (pixels w) (self w)
    /\ (exists evs0, trace w0 = trace w ++ EvGetAll :: evs0
                     /\ forallb is_pause evs0 = true)
    /\ press_accepted E w0 w1
    /\ pixels_set_all (pixels w) w1 = Done tt w'.
Proof.
  unfold pause. intro H.
  inv_bind H as t wt Ht. unfold monotonic in Ht. injection Ht as <- <-.
  inv_bind H as snap wg Hg. unfold pixels_get_all in Hg. injection Hg as <- <-.
  inv_bind H as u wm Hm. unfold modify in Hm. injection Hm as Hm. subst wm.
  apply pause_loop_tied in H.
  destruct H as (w0 & w1 & ((Hs & Hi & _ & evs & Htr & Hf) & Hc) & Hi0
                 & Hacc & Hset).
  cbn [instant pixels trace cpx self advance emit with_self] in *.
  exists w0, w1. splits.
  - lia.
  - exact Hc.
  - exact Hs.
  - exists evs. split; [|exact Hf]. rewrite Htr, <- app_assoc. reflexivity.
  - exact Hacc.
  - assert (Hself : self w1 = self w0).
    { destruct Hacc as [Ha | (wa & Ha & Hb)].
      - destruct (single_press_a_frame E w0) as (b & wx & H0 & _ & _ & Hsf & _).
        rewrite Ha in H0. injection H0 as <- <-. exact Hsf.
      - destruct (single_press_a_frame E w0) as (b & wx & H0 & _ & _ & Hsf & _).
        rewrite Ha in H0. injection H0 as <- <-.
        destruct (single_press_b_frame E wa) as (b & wx & H0 & _ & _ & Hsf' & _).
        rewrite Hb in H0. injection H0 as <- <-. congruence. }
    rewrite Hself, Hs in Hset. exact Hset.
Qed.

End Pause.

(** ** One round of the loop of [interval] *)

Section Body.

Variable E : Env.

(** The countdown step: nothing when the segment has not run out;
    otherwise one cell goes dark and, at the stop cell, the interval
    completes (with the tone when the switch is on). *)
Lemma interval_tick_done (led_duration : Q) (s : locals) (w w' : World)
  (r : flow) :
  interval_tick E led_duration s w = Done r w' ->
  (Qgtb (clock E (instant w) - led_start s) led_duration = false
   /\ r = Next s /\ w' = advance w)
  \/ (exists n,
        Qgtb (clock E (instant w) - led_start s) led_duration = true
        /\ pixel_index (List.length (pixels w)) (led_current s) = Some n
        /\ led_current s <> stop_led (self w)
        /\ r = Next (mkLocals (clock E (S (instant w)))
                       ((led_current s - 1) mod 10)%Z)
        /\ w' = mkWorld (2 + instant w) (update_nth n black (pixels w))
                  (trace w ++ [off_event (led_current s)]) (cpx w) (self w))
  \/ (exists n,
        Qgtb (clock E (instant w) - led_start s) led_duration = true
        /\ pixel_index (List.length (pixels w)) (led_current s) = Some n
        /\ led_current s = stop_led (self w)
        /\ r = Return Completed
        /\ w' = mkWorld (2 + instant w) (update_nth n black (pixels w))
                  (trace w ++ off_event (led_current s)
                     :: tone_if (raw_switch E (S (instant w))))
                  (cpx w) (self w)).
Proof.
  unfold interval_tick, bind, monotonic, pixels_set, get_world, switch,
    play_tone, modify, ret, emit, advance, with_pixels.
  cbn [instant pixels trace cpx self].
  destruct (Qgtb _ _) eqn:Hgt.
  - destruct (pixel_index _ _) as [n|] eqn:Hidx; [|discriminate].
    cbn [instant pixels trace cpx self].
    destruct (Z.eqb _ _) eqn:Hstop.
    + apply Z.eqb_eq in Hstop. cbn [instant pixels trace cpx self] in *.
      destruct (raw_switch E (S (instant w))) eqn:Hsw;
        cbn [instant pixels trace cpx self tone_if];
        intro H; injection H as <- <-; right; right; exists n;
          repeat (split; [reflexivity || assumption|]);
          rewrite <- ?app_assoc; reflexivity.
    + apply Z.eqb_neq in Hstop. cbn [instant pixels trace cpx self] in *.
      intro H; injection H as <- <-. right; left; exists n.
      repeat (split; [reflexivity || assumption|]). reflexivity.
  - intro H; injection H as <- <-. left. auto.
Qed.

(** The pause check. *)
Lemma interval_pause_done (fuel : nat) (s s' : locals) (w w' : World) :
  interval_pause E fuel s w = Done s' w' ->
  (single_press_a E w = Done false w' /\ s' = s)
  \/ (exists w1 w2,
        single_press_a E w = Done true w1
        /\ pause E fuel (advance w1) = Done tt w2
        /\ w' = advance w2
        /\ s' = mkLocals
                  (led_start s
                   + (clock E (instant w2) - clock E (instant w1)))
                  (led_current s)).
Proof.
  unfold interval_pause. intro H.
  inv_bind H as a w1 Ha. destruct a.
  - right. inv_bind H as pre wp Hpre.
    unfold monotonic in Hpre. injection Hpre as <- <-.
    inv_bind H as u w2 Hp. destruct u.
    inv_bind H as t wt Ht. unfold monotonic in Ht. injection Ht as <- <-.
    unfold ret in H. injection H as <- <-.
    exists w1, w2. auto.
  - left. unfold ret in H. injection H as <- <-. auto.
Qed.

(** The red flash. *)
Lemma flash_2_ok (w : World) :
  List.length (pixels w) = N_PIXELS ->
  flash 2 w = Done tt (mkWorld (instant w) (repeat black N_PIXELS)
                         (trace w ++ abort_animation) (cpx w) (self w)).
Proof.
  intro Hlen. cbn [flash].
  unfold bind, sleep, modify, pixels_set_all, ret, emit, with_pixels.
  cbn. rewrite Hlen. cbn. unfold abort_animation.
  repeat rewrite <- app_assoc. reflexivity.
Qed.

Lemma flash_2_done (w w' : World) :
  flash 2 w = Done tt w' ->
  List.length (pixels w) = N_PIXELS
  /\ w' = mkWorld (instant w) (repeat black N_PIXELS)
            (trace w ++ abort_animation) (cpx w) (self w).
Proof.
  intro H.
  assert (Hlen : List.length (pixels w) = N_PIXELS).
  { cbn [flash] in H. inv_bind H as u1 w1 H1. destruct u1.
    apply pixels_set_all_done in H1. destruct H1 as [_ Hlen].
    rewrite repeat_length in Hlen. symmetry; exact Hlen. }
  split; [exact Hlen|].
  rewrite (flash_2_ok w Hlen) in H. injection H as <-. reflexivity.
Qed.

(** The cancel check. *)
Lemma interval_cancel_done (s : locals) (w w' : World) (r : flow) :
  interval_cancel E s w = Done r w' ->
  (single_press_b E w = Done false w' /\ r = Next s)
  \/ (exists w1,
        single_press_b E w = Done true w1
        /\ flash 2 w1 = Done tt w'
        /\ r = Return Cancelled).
Proof.
  unfold interval_cancel. intro H.
  inv_bind H as b w1 Hb. destruct b.
  - right. inv_bind H as u w2 Hf. destruct u.
    unfold ret in H. injection H as <- <-. exists w1. auto.
  - left. unfold ret in H. injection H as <- <-. auto.
Qed.

End Body.

(** ** What one round of [interval] writes *)

Section BodyTrace.

Variable E : Env.

Lemma countdown_only_nil (stop : Z) : countdown_only stop [].
Proof. unfold countdown_only. cbn. splits; reflexivity. Qed.

Lemma pause_events_quiet (stop : Z) (evs : list Event) :
  forallb is_pause evs = true -> countdown_only stop evs.
Proof.
  induction evs as [|e evs IH]; [intros _; apply countdown_only_nil|].
  cbn [forallb]. intro H. apply andb_true_iff in H. destruct H as [He Hevs].
  destruct (IH Hevs) as (H1 & H2 & H3).
  unfold countdown_only. cbn [existsb].
  destruct e; cbn in He |- *; try discriminate; splits; assumption.
Qed.

Lemma countdown_only_app (stop : Z) (xs ys : list Event) :
  countdown_only stop xs -> countdown_only stop ys ->
  countdown_only stop (xs ++ ys).
Proof.
  intros (H1 & H2 & H3) (K1 & K2 & K3). unfold countdown_only.
  rewrite !existsb_app, H1, H2, H3, K1, K2, K3. splits; reflexivity.
Qed.

Lemma interval_tick_trace (led_duration : Q) (s : locals) (w w' : World)
  (r : flow) :
  interval_tick E led_duration s w = Done r w' ->
  self w' = self w
  /\ exists T,
       trace w' = trace w ++ T
       /\ forallb is_tick T = true
       /\ existsb is_sleep T = false /\ existsb is_snapshot T = false
       /\ (r = Return Completed -> existsb is_tick T = true)
       /\ (r <> Return Completed -> countdown_only (stop_led (self w)) T)
       /\ (forall x, r = Return x -> x = Completed).
Proof.
  intro H. apply interval_tick_done in H.
  destruct H as [(_ & -> & ->) | [(n & _ & _ & Hne & -> & ->)
                                  | (n & _ & _ & Heq & -> & ->)]].
  - split; [reflexivity|]. exists []. cbn. rewrite app_nil_r. splits.
    + reflexivity.
    + reflexivity.
    + reflexivity.
    + reflexivity.
    + intro Hc; discriminate Hc.
    + intros _. apply countdown_only_nil.
    + intros x Hx; discriminate Hx.
  - split; [reflexivity|]. exists [off_event (led_current s)].
    cbn [trace]. splits.
    + reflexivity.
    + reflexivity.
    + reflexivity.
    + reflexivity.
    + intro Hc; discriminate Hc.
    + intros _. unfold countdown_only. cbn.
      apply Z.eqb_neq in Hne. rewrite Hne. splits; reflexivity.
    + intros x Hx; discriminate Hx.
  - split; [reflexivity|].
    exists (off_event (led_current s) :: tone_if (raw_switch E (S (instant w)))).
    cbn [trace]. splits.
    + reflexivity.
    + destruct (raw_switch _ _); reflexivity.
    + destruct (raw_switch _ _); reflexivity.
    + destruct (raw_switch _ _); reflexivity.
    + intros _. reflexivity.
    + intro Hc; exfalso; apply Hc; reflexivity.
    + intros x Hx. injection Hx as <-. reflexivity.
Qed.

Lemma interval_pause_trace (fuel : nat) (s s' : locals) (w w' : World) :
  interval_pause E fuel s w = Done s' w' ->
  stop_led (self w') = stop_led (self w)
  /\ exists P,
       trace w' = trace w ++ P
       /\ forallb is_pause P = true
       /\ (P = [] \/ existsb is_snapshot P = true).
Proof.
  intro H. apply interval_pause_done in H.
  destruct H as [(Ha & ->) | (w1 & w2 & Ha & Hp & -> & ->)].
  - destruct (single_press_a_frame E w) as (b & w0 & H0 & _ & Ht & Hs & _).
    rewrite Ha in H0. injection H0 as <- <-.
    rewrite Hs. split; [reflexivity|]. exists []. rewrite app_nil_r.
    splits; [exact Ht | reflexivity | left; reflexivity].
  - destruct (single_press_a_frame E w) as (b & w0 & H0 & _ & Ht & Hs & _).
    rewrite Ha in H0. injection H0 as <- <-.
    apply pause_done in Hp.
    destruct Hp as (_ & _ & Hself & _ & (evs & Htr & Hf) & _).
    cbn [self trace advance] in *.
    split; [rewrite Hself, Hs; reflexivity|].
    exists (EvGetAll :: evs). rewrite Htr, Ht.
    splits; [reflexivity | exact Hf | right; reflexivity].
Qed.

Lemma interval_cancel_trace (s : locals) (w w' : World) (r : flow) :
  interval_cancel E s w = Done r w' ->
  self w' = self w
  /\ exists C,
       trace w' = trace w ++ C
       /\ (C = [] \/ C = abort_animation)
       /\ (C = abort_animation <-> r = Return Cancelled)
       /\ (forall x, r = Return x -> x = Cancelled)
       /\ (r = Return Cancelled ->
           exists w1, single_press_b E w = Done true w1
                      /\ flash 2 w1 = Done tt w').
Proof.
  intro H. apply interval_cancel_done in H.
  destruct H as [(Hb & ->) | (w1 & Hb & Hf & ->)].
  - destruct (single_press_b_frame E w) as (b & w0 & H0 & _ & Ht & Hs & _).
    rewrite Hb in H0. injection H0 as <- <-.
    split; [exact Hs|]. exists []. rewrite app_nil_r. splits.
    + exact Ht.
    + left; reflexivity.
    + split; intro Hc; discriminate Hc.
    + intros x Hx; discriminate Hx.
    + intro Hc; discriminate Hc.
  - destruct (single_press_b_frame E w) as (b & w0 & H0 & _ & Ht & Hs & _).
    rewrite Hb in H0. injection H0 as <- <-.
    pose proof Hf as Hf'. apply flash_2_done in Hf'. destruct Hf' as [_ ->].
    cbn [self trace]. split; [exact Hs|].
    exists abort_animation. rewrite Ht. splits.
    + reflexivity.
    + right; reflexivity.
    + split; intros _; reflexivity.
    + intros x Hx. injection Hx as <-. reflexivity.
    + intros _. exists w1. split; [assumption | rewrite <- Ht; assumption].
Qed.

(** The whole loop body: what it appends is a countdown part, then a
    pause part, then either nothing or the abort animation. *)
Lemma interval_iter_trace (pfuel : nat) (led_duration : Q) (s : locals)
  (w w' : World) (r : flow) :
  interval_iter E pfuel led_duration s w = Done r w' ->
  stop_led (self w') = stop_led (self w)
  /\ exists T P C,
       trace w' = trace w ++ T ++ P ++ C
       /\ forallb is_tick T = true
       /\ forallb is_pause P = true
       /\ (C = [] \/ C = abort_animation)
       /\ (r = Return Completed -> P = [] /\ C = [])
       /\ (C = abort_animation <-> r = Return Cancelled)
       /\ (r <> Return Completed ->
           countdown_only (stop_led (self w)) (T ++ P))
       /\ (r = Return Cancelled ->
           exists w0 w1, single_press_b E w0 = Done true w1
                         /\ flash 2 w1 = Done tt w').
Proof.
  unfold interval_iter. intro H.
  inv_bind H as r1 w1 Ht. apply interval_tick_trace in Ht.
  destruct Ht as (Hs1 & T & Ht1 & HT & _ & _ & _ & Hq & Hx).
  destruct r1 as [x | s1].
  - unfold ret in H. injection H as <- <-.
    rewrite (Hx x eq_refl) in *.
    split; [rewrite Hs1; reflexivity|].
    exists T, [], []. rewrite !app_nil_r. splits.
    + exact Ht1.
    + exact HT.
    + reflexivity.
    + left; reflexivity.
    + intros _. split; reflexivity.
    + split; intro Hc; discriminate Hc.
    + intro Hc; exfalso; apply Hc; reflexivity.
    + intro Hc; discriminate Hc.
  - inv_bind H as s2 w2 Hp. apply interval_pause_trace in Hp.
    destruct Hp as (Hs2 & P & Ht2 & HP & _).
    apply interval_cancel_trace in H.
    destruct H as (Hs3 & C & Ht3 & HC & Hiff & Hx3 & Hacc).
    split; [rewrite Hs3, Hs2, Hs1; reflexivity|].
    exists T, P, C. rewrite Ht3, Ht2, Ht1, <- !app_assoc. splits.
    + reflexivity.
    + exact HT.
    + exact HP.
    + exact HC.
    + intros ->. specialize (Hx3 _ eq_refl). discriminate Hx3.
    + exact Hiff.
    + intros _. apply countdown_only_app.
      * apply Hq. intro Hc; discriminate Hc.
      * apply pause_events_quiet. exact HP.
    + intro Hr. destruct (Hacc Hr) as (w0 & Hb & Hf).
      exists w2, w0. split; assumption.
Qed.

End BodyTrace.

(** C9.  Whenever [pause] returns: the snapshot [led_state] is the buffer
    found on entry (it is read first and assigned once, the blinking
    never reassigns it); the return comes right after a poll in which
    one of the two channels accepted a press; and the buffer then holds
    exactly what it held on entry, whatever blinking took place in
    between.  The accepting poll belongs to this run of [pause]: it is
    taken after entry, in a store that still has the board object found
    on entry (no press was accepted before it), the snapshot taken on
    entry, and a trace that extends the one found on entry by the read
    of the snapshot and by whole-buffer reads and writes only. *)
Theorem pause_restores_display (E : Env) (fuel : nat) (w w' : World) :
  pause E fuel w = Done tt w' ->
  led_state (self w') = pixels w
  /\ (exists evs, trace w' = trace w ++ EvGetAll :: evs
                  /\ forallb is_pause evs = true)
  /\ (exists w0 w1,
        (instant w < instant w0)%nat
        /\ cpx w0 = cpx w
        /\ self w0 = set_led_state (pixels w) (self w)
        /\ (exists evs0, trace w0 = trace w ++ EvGetAll :: evs0
                         /\ forallb is_pause evs0 = true)
        /\ press_accepted E w0 w1
        /\ pixels_set_all (pixels w) w1 = Done tt w')
  /\ pixels w' = pixels w.
Proof.
  intro H. pose proof (pause_tied E fuel w w' H) as Htied.
  apply pause_done in H.
  destruct H as (Hpx & Hled & _ & _ & Htr & _).
  splits; assumption.
Qed.

Lemma pause_restores_display_witness :
  match pause E_pause 20 running_world with
  | Done _ w' =>
      pixels w' = pixels running_world
      /\ instant w' = 33%nat
  | _ => False
  end.
Proof.
  destruct (pause E_pause 20 running_world) as [[] w' | e w' |] eqn:H.
  - split.
    + apply (pause_restores_display E_pause 20 running_world w' H).
    + vm_compute in H. injection H as <-. reflexivity.
  - vm_compute in H. discriminate H.
  - vm_compute in H. discriminate H.
Defined.

(** In exact arithmetic: when the channel-A poll of [interval] accepts a
    press and the pause it enters returns, [led_start] is moved forward
    by the clock time between the read taken just before [pause] and the
    read taken just after it.  So the time left before the next cell
    goes dark is the same after the pause as before it, and the
    countdown test, taken at any later clock value, counts the time
    before the pause plus the time after it, not the pause.  The cell
    reached and the buffer are unchanged. *)
Lemma pause_preserves_remaining (E : Env) (fuel : nat) (led_duration : Q)
  (s s' : locals) (w w1 w' : World) :
  single_press_a E w = Done true w1 ->
  interval_pause E fuel s w = Done s' w' ->
  let pre_pause := clock E (instant w1) in
  let resumed := clock E (Nat.pred (instant w')) in
  led_start s' = led_start s + (resumed - pre_pause)
  /\ (led_start s' + led_duration) - resumed
     == (led_start s + led_duration) - pre_pause
  /\ (forall t, led_duration < t - led_start s' <->
                led_duration < (pre_pause - led_start s) + (t - resumed))
  /\ led_current s' = led_current s
  /\ pixels w' = pixels w
  /\ (instant w1 < Nat.pred (instant w'))%nat.
Proof.
  intros Ha H. apply interval_pause_done in H.
  destruct H as [(Ha' & _) | (w1' & w2 & Ha' & Hp & -> & ->)].
  - rewrite Ha in Ha'. discriminate Ha'.
  - rewrite Ha in Ha'. injection Ha' as <-.
    apply pause_done in Hp.
    destruct Hp as (Hpx & _ & _ & Hi & _ & _).
    destruct (single_press_a_frame E w) as (b & w0 & H0 & Hpa & _).
    rewrite Ha in H0. injection H0 as <- <-.
    cbn [instant pixels advance Nat.pred led_start led_current] in *.
    splits.
    + reflexivity.
    + ring.
    + intro t. split; intro Ht; lra.
    + reflexivity.
    + rewrite Hpx. exact Hpa.
    + lia.
Qed.

(** The pause check over floats. *)
Lemma interval_pause_float_done (A : arith) (E : Env) (fuel : nat)
  (x y : pyfloat) (w w' : World) :
  interval_pause_float A E fuel x w = Done y w' ->
  (single_press_a E w = Done false w' /\ y = x)
  \/ (exists w1 w2,
        single_press_a E w = Done true w1
        /\ pause E fuel (advance w1) = Done tt w2
        /\ w' = advance w2
        /\ y = float_add A x
                 (float_sub A (Fin (clock E (instant w2)))
                    (Fin (clock E (instant w1))))).
Proof.
  unfold interval_pause_float. intro H.
  inv_bind H as a w1 Ha. destruct a.
  - right. inv_bind H as pre wp Hpre.
    unfold monotonic in Hpre. injection Hpre as <- <-.
    inv_bind H as u w2 Hp. destruct u.
    inv_bind H as t wt Ht. unfold monotonic in Ht. injection Ht as <- <-.
    unfold ret in H. injection H as <- <-.
    exists w1, w2. auto.
  - left. unfold ret in H. injection H as <- <-. auto.
Qed.

(** The pause itself does not depend on the arithmetic: over floats the
    check returns in the store in which it returns over rationals. *)
Lemma interval_pause_float_store (A : arith) (E : Env) (fuel : nat)
  (x y : pyfloat) (a : Q) (c : Z) (w w' : World) :
  interval_pause_float A E fuel x w = Done y w' ->
  exists s', interval_pause E fuel (mkLocals a c) w = Done s' w'.
Proof.
  intro H. apply interval_pause_float_done in H.
  destruct H as [(Ha & _) | (w1 & w2 & Ha & Hp & -> & _)];
    unfold interval_pause.
  - rewrite (bind_eq _ _ _ _ _ Ha). eexists. reflexivity.
  - rewrite (bind_eq _ _ _ _ _ Ha). cbv beta iota.
    unfold bind at 1. unfold monotonic at 1.
    rewrite (bind_eq _ _ _ _ _ Hp). eexists. reflexivity.
Qed.

(** Two roundings, of the difference and of the sum. *)
Lemma shift_error (A : arith) (a gap b : Q) :
  let u := unit_roundoff A in
  float_add A (Fin a) (finish A gap) = Fin b ->
  Qabs (b - (a + gap))
  <= u * (Qabs gap + Qabs (a + gap)) + u * u * Qabs gap + (2 + u) * eta A.
Proof.
  intros u H.
  pose proof (unit_roundoff_nonneg A) as Hu0. fold u in Hu0.
  pose proof (eta_nonneg A) as He0.
  destruct (finish A gap) as [g| |] eqn:Hg; cbn [float_add] in H;
    try discriminate H.
  apply finish_Fin in Hg. destruct Hg as [Hg _].
  apply finish_Fin in H. destruct H as [Hb _].
  pose proof (rnd_error A gap) as E1. fold u in E1. rewrite <- Hg in E1.
  pose proof (rnd_error A (a + g)) as E2. fold u in E2. rewrite <- Hb in E2.
  pose proof (Qabs_nonneg gap) as Hn1.
  pose proof (Qabs_nonneg (a + gap)) as Hn2.
  assert (Htri : Qabs (a + g) <= Qabs (a + gap) + (u * Qabs gap + eta A)).
  { setoid_replace (a + g) with ((a + gap) + (g - gap)) by ring.
    eapply Qle_trans; [apply Qabs_triangle|]. lra. }
  assert (Hm : u * Qabs (a + g)
               <= u * Qabs (a + gap) + u * u * Qabs gap + u * eta A).
  { setoid_replace (u * Qabs (a + gap) + u * u * Qabs gap + u * eta A)
      with (u * (Qabs (a + gap) + (u * Qabs gap + eta A))) by ring.
    rewrite !(Qmult_comm u). apply Qmult_le_compat_r; lra. }
  setoid_replace (b - (a + gap)) with ((b - (a + g)) + (g - gap)) by ring.
  eapply Qle_trans; [apply Qabs_triangle|]. lra.
Qed.

(** C4, as the spec states it, fails over doubles: a pause entered when
    the clock reads [0.3] and left when it reads [0.7], with [led_start]
    at [0.1], leaves [led_start] at [0.5], and [0.5] is not
    [0.1 + (0.7 - 0.3)] for those three doubles.  The time left to the
    next transition is not exactly what it was. *)
Lemma pause_shift_is_rounded :
  (exists w',
     interval_pause_float binary64 E_float 5 (Fin double_0_1) running_world
     = Done (Fin (1 # 2)) w')
  /\ ~ double_0_1 + (double_0_7 - double_0_3) == 1 # 2
  /\ ~ remaining_preserved_exactly binary64 E_float.
Proof.
  assert (Ha : exists w1,
             single_press_a E_float running_world = Done true w1
             /\ instant w1 = 3%nat).
  { vm_compute. eexists. split; reflexivity. }
  assert (Hw : exists w',
             interval_pause_float binary64 E_float 5 (Fin double_0_1)
               running_world = Done (Fin (1 # 2)) w'
             /\ instant w' = 10%nat).
  { vm_compute. eexists. split; reflexivity. }
  destruct Ha as (w1 & Ha & Hi1). destruct Hw as (w' & Hw & Hi').
  splits.
  - exists w'. exact Hw.
  - intro Hq. vm_compute in Hq. discriminate Hq.
  - intro Hp.
    pose proof (Hp 5%nat 1 _ _ _ _ _ Ha Hw) as Hq.
    rewrite Hi1, Hi' in Hq. vm_compute in Hq. discriminate Hq.
Qed.

(** C4, amended.  When the channel-A poll of [interval] accepts a press
    and the pause it enters returns, [led_start] becomes the float sum
    of its old value and of the float difference of the two clock reads
    taken just after and just before [pause].  Each of the two
    operations rounds: with [u] half the relative spacing of the format
    and [eta] half its least spacing, the time left to the next
    transition, counted from the read after the pause, differs from the
    time left at the read before it by at most
    [u (|gap| + |a + gap|) + u^2 |gap| + (2 + u) eta], where [gap] is
    the length of the pause and [a] the old [led_start].  In exact
    arithmetic the two are equal, and the check is the one of the
    rational model.  The buffer is unchanged. *)
Theorem pause_shifts_led_start (A : arith) (E : Env) (fuel : nat)
  (led_duration a : Q) (x : pyfloat) (w w1 w' : World) :
  single_press_a E w = Done true w1 ->
  interval_pause_float A E fuel (Fin a) w = Done x w' ->
  let pre_pause := clock E (instant w1) in
  let resumed := clock E (Nat.pred (instant w')) in
  let gap := resumed - pre_pause in
  let u := unit_roundoff A in
  x = float_add A (Fin a) (float_sub A (Fin resumed) (Fin pre_pause))
  /\ (forall b, x = Fin b ->
        Qabs ((b + led_duration - resumed)
              - (a + led_duration - pre_pause))
        <= u * (Qabs gap + Qabs (a + gap)) + u * u * Qabs gap
           + (2 + u) * eta A)
  /\ (A = Exact ->
        x = Fin (a + gap)
        /\ (a + gap + led_duration) - resumed
           == (a + led_duration) - pre_pause)
  /\ pixels w' = pixels w
  /\ (instant w1 < Nat.pred (instant w'))%nat
  /\ (forall c, exists s',
        interval_pause E fuel (mkLocals a c) w = Done s' w'
        /\ led_start s' = a + gap /\ led_current s' = c).
Proof.
  intros Ha H pre_pause resumed gap u.
  assert (Hq : forall c, exists s',
             interval_pause E fuel (mkLocals a c) w = Done s' w'
             /\ led_start s' = a + gap /\ led_current s' = c
             /\ pixels w' = pixels w
             /\ (instant w1 < Nat.pred (instant w'))%nat).
  { intro c.
    destruct (interval_pause_float_store A E fuel _ _ a c _ _ H) as [s' Hs'].
    exists s'. split; [exact Hs'|].
    destruct (pause_preserves_remaining E fuel 0 _ _ _ _ _ Ha Hs')
      as (H1 & _ & _ & H4 & H5 & H6).
    splits; assumption. }
  destruct (Hq 0%Z) as (s0 & _ & _ & _ & Hpx & Hi).
  apply interval_pause_float_done in H.
  destruct H as [(Ha' & _) | (w1' & w2 & Ha' & Hp & -> & ->)].
  { rewrite Ha in Ha'. discriminate Ha'. }
  rewrite Ha in Ha'. injection Ha' as <-.
  assert (Hres : resumed = clock E (instant w2)) by reflexivity.
  splits.
  - reflexivity.
  - intros b Hb. cbn [float_sub] in Hb.
    rewrite <- Hres in Hb. fold pre_pause in Hb.
    pose proof (shift_error A a gap b Hb) as He. fold u in He.
    setoid_replace (b + led_duration - resumed
                    - (a + led_duration - pre_pause))
      with (b - (a + gap)) by (unfold gap; ring).
    exact He.
  - intros ->. split; [reflexivity | unfold gap; ring].
  - exact Hpx.
  - exact Hi.
  - intro c. destruct (Hq c) as (s' & H1 & H2 & H3 & _).
    exists s'. splits; assumption.
Qed.

Lemma pause_shifts_led_start_witness :
  match interval_pause_float binary64 E_float 5 (Fin double_0_1)
          running_world with
  | Done x w' =>
      x = Fin (1 # 2)
      /\ forall b, x = Fin b ->
           Qabs ((b + 1 - double_0_7) - (double_0_1 + 1 - double_0_3))
           <= 2 ^ (- 53)
              * (Qabs (double_0_7 - double_0_3)
                 + Qabs (double_0_1 + (double_0_7 - double_0_3)))
              + 2 ^ (- 53) * 2 ^ (- 53) * Qabs (double_0_7 - double_0_3)
              + (2 + 2 ^ (- 53)) * 2 ^ (- 1075)
  | _ => False
  end.
Proof.
  destruct (interval_pause_float binary64 E_float 5 (Fin double_0_1)
              running_world) as [x w' | e w' |] eqn:H.
  - split.
    + vm_compute in H. injection H as <- _. reflexivity.
    + pose proof (proj1 (proj2
        (pause_shifts_led_start binary64 E_float 5 1 double_0_1 x
           running_world
           (mkWorld 3 (pixels running_world) []
              (mkExpress double_0_3 0 (25 # 100)) (fresh_pomodoro true))
           w' eq_refl H))) as Hb.
      assert (Hi : instant w' = 10%nat).
      { vm_compute in H. injection H as _ <-. reflexivity. }
      rewrite Hi in Hb. exact Hb.
  - vm_compute in H. discriminate H.
  - vm_compute in H. discriminate H.
Defined.

(** ** Cancelling *)

Section Cancel.

Variable E : Env.

(** An accepted channel-B press cancels at once. *)
Lemma interval_cancel_accepts (s : locals) (w w1 : World) :
  single_press_b E w = Done true w1 ->
  List.length (pixels w) = N_PIXELS ->
  interval_cancel E s w
  = Done (Return Cancelled)
      (mkWorld (instant w1) (repeat black N_PIXELS)
         (trace w ++ abort_animation) (cpx w1) (self w)).
Proof.
  intros Hb Hlen.
  destruct (single_press_b_frame E w) as (b & w0 & H0 & Hpx & Ht & Hs & _).
  rewrite Hb in H0. injection H0 as <- <-.
  unfold interval_cancel. rewrite (bind_eq _ _ _ _ _ Hb).
  rewrite (bind_eq _ _ _ _ _ (flash_2_ok w1 ltac:(rewrite Hpx; exact Hlen))).
  unfold ret. rewrite Ht, Hs. reflexivity.
Qed.

(** A loop that ends by the cancel path wrote no tone, did not darken
    the stop cell and never slept before the abort animation, which is
    the last thing it wrote. *)
Lemma interval_loop_cancelled (pfuel : nat) (led_duration : Q) (fuel : nat) :
  forall s w w',
    interval_loop E pfuel fuel led_duration s w = Done Cancelled w' ->
    stop_led (self w') = stop_led (self w)
    /\ exists evs,
         trace w' = trace w ++ evs ++ abort_animation
         /\ countdown_only (stop_led (self w)) evs
         /\ exists w0 w1, single_press_b E w0 = Done true w1
                          /\ flash 2 w1 = Done tt w'.
Proof.
  induction fuel as [|fuel IH]; intros s w w' H; [discriminate H|].
  cbn [interval_loop] in H. inv_bind H as r w1 Hit.
  apply interval_iter_trace in Hit.
  destruct Hit as (Hstop & T & P & C & Htr & _ & _ & HC & _ & Hiff & Hq & Hacc).
  destruct r as [x | s1].
  - unfold ret in H. injection H as -> <-.
    split; [exact Hstop|].
    exists (T ++ P). splits.
    + rewrite Htr, (proj2 Hiff eq_refl), <- !app_assoc. reflexivity.
    + apply Hq. intro Hc; discriminate Hc.
    + apply Hacc. reflexivity.
  - apply IH in H. destruct H as (Hstop' & evs & Htr' & Hq' & Hacc').
    split; [rewrite Hstop', Hstop; reflexivity|].
    assert (HCnil : C = []).
    { destruct HC as [HC | HC]; [exact HC|].
      apply Hiff in HC. discriminate HC. }
    subst C. rewrite app_nil_r in Htr.
    exists ((T ++ P) ++ evs). splits.
    + rewrite Htr', Htr, <- !app_assoc. reflexivity.
    + apply countdown_only_app.
      * apply Hq. intro Hc; discriminate Hc.
      * rewrite <- Hstop. exact Hq'.
    + exact Hacc'.
Qed.

Lemma abort_animation_silent : existsb is_tone abort_animation = false.
Proof. reflexivity. Qed.

Lemma interval_cancelled (fuel : nat) (duration : Q) (color : RGB)
  (w w' : World) :
  interval E fuel duration color w = Done Cancelled w' ->
  exists evs,
    trace w' = trace w ++ evs ++ abort_animation
    /\ countdown_only (stop_led (self w)) evs
    /\ existsb is_tone (evs ++ abort_animation) = false
    /\ exists w0 w1, single_press_b E w0 = Done true w1
                     /\ flash 2 w1 = Done tt w'.
Proof.
  unfold interval. intro H.
  inv_bind H as u w1 Hset. destruct u. apply pixels_set_all_done in Hset.
  destruct Hset as [-> _].
  inv_bind H as t w2 Ht. unfold monotonic in Ht. injection Ht as <- <-.
  unfold bind, get_world in H.
  apply interval_loop_cancelled in H.
  cbn [self trace advance] in H.
  destruct H as (_ & evs & Htr & Hq & Hacc).
  exists (EvSetAll (repeat color N_PIXELS) :: evs).
  assert (Hq' : countdown_only (stop_led (self w))
                  (EvSetAll (repeat color N_PIXELS) :: evs)).
  { destruct Hq as (H1 & H2 & H3). unfold countdown_only. cbn [existsb].
    cbn [is_tone is_off_at is_sleep orb]. splits; assumption. }
  splits.
  - rewrite Htr, <- !app_assoc. reflexivity.
  - exact Hq'.
  - rewrite existsb_app, abort_animation_silent.
    destruct Hq' as (-> & _). reflexivity.
  - exact Hacc.
Qed.

End Cancel.

(** C8.  When the channel-B poll of [interval] accepts a press, that
    round plays the abort animation (red, 0.2 s, dark, 0.1 s, twice) and
    returns through the cancel exit.  In any interval that ends that
    way, the animation is the last thing written, nothing before it
    sleeps, no tone is played at all, and the countdown never darkened
    the stop cell. *)
Theorem cancel_bypasses_tone (E : Env) :
  (forall s w w1,
     single_press_b E w = Done true w1 ->
     List.length (pixels w) = N_PIXELS ->
     interval_cancel E s w
     = Done (Return Cancelled)
         (mkWorld (instant w1) (repeat black N_PIXELS)
            (trace w ++ abort_animation) (cpx w1) (self w)))
  /\ (forall fuel duration color w w',
        interval E fuel duration color w = Done Cancelled w' ->
        exists evs,
          trace w' = trace w ++ evs ++ abort_animation
          /\ countdown_only (stop_led (self w)) evs
          /\ existsb is_tone (evs ++ abort_animation) = false
          /\ exists w0 w1, single_press_b E w0 = Done true w1
                           /\ flash 2 w1 = Done tt w').
Proof.
  split.
  - intros s w w1. apply interval_cancel_accepts.
  - intros fuel duration color w w'. apply interval_cancelled.
Qed.

Lemma cancel_bypasses_tone_witness :
  match interval E_cancel 5 10 (0, 0, 5)%Z (fresh_world true) with
  | Done Cancelled w' =>
      exists evs,
        trace w' = [] ++ evs ++ abort_animation
        /\ countdown_only 5 evs
        /\ existsb is_tone (evs ++ abort_animation) = false
        /\ exists w0 w1, single_press_b E_cancel w0 = Done true w1
                         /\ flash 2 w1 = Done tt w'
  | _ => False
  end.
Proof.
  destruct (interval E_cancel 5 10 (0, 0, 5)%Z (fresh_world true))
    as [[|] w' | e w' |] eqn:H.
  - vm_compute in H. discriminate H.
  - exact (proj2 (cancel_bypasses_tone E_cancel) _ _ _ _ _ H).
  - vm_compute in H. discriminate H.
  - vm_compute in H. discriminate H.
Defined.

(** C5, as the spec states it, fails: in one round of the loop a cell
    is turned off and the cancel is handled. *)
Lemma tick_and_cancel_in_one_round : ~ at_most_one_handled E_cancel.
Proof.
  intro H.
  specialize (H 5%nat 1 (mkLocals 0 4) (fresh_world true)
                (Return Cancelled)
                (mkWorld 6 (repeat black N_PIXELS)
                   (off_event 4 :: abort_animation)
                   (mkExpress 0 (clock E_cancel 5) (25 # 100))
                   (fresh_pomodoro true))
                (off_event 4 :: abort_animation) eq_refl eq_refl).
  vm_compute in H. lia.
Qed.

(** ** An interval that nobody interrupts *)

Section Uninterrupted.

Variable E : Env.
Hypothesis clock_monotone : monotone E.
Hypothesis clock_unbounded : unbounded E.
Hypothesis quiet : no_press E.

Lemma clock_le (n m : nat) : (n <= m)%nat -> clock E n <= clock E m.
Proof.
  induction 1 as [|m _ IH]; [apply Qle_refl|].
  eapply Qle_trans; [exact IH | apply clock_monotone].
Qed.

Lemma clock_eventually (T : Q) :
  exists N, forall m, (N <= m)%nat -> T < clock E m.
Proof.
  destruct (clock_unbounded T) as [N HN]. exists N. intros m Hm.
  eapply Qlt_le_trans; [exact HN | apply clock_le; exact Hm].
Qed.

Lemma update_nth_length (n : nat) (c : RGB) (ps : list RGB) :
  List.length (update_nth n c ps) = List.length ps.
Proof.
  revert n. induction ps as [|p ps IH]; intros [|n]; cbn; auto.
Qed.

Lemma update_nth_hit (n : nat) (c : RGB) (ps : list RGB) :
  (n < List.length ps)%nat -> nth_error (update_nth n c ps) n = Some c.
Proof.
  revert n. induction ps as [|p ps IH]; intros [|n] H; cbn in *; try lia.
  - reflexivity.
  - apply IH. lia.
Qed.

Lemma pixel_index_in_range (len : nat) (c : Z) :
  (0 <= c < Z.of_nat len)%Z -> pixel_index len c = Some (Z.to_nat c).
Proof.
  intros [H0 H1]. unfold pixel_index.
  apply Z.leb_le in H0. apply Z.ltb_lt in H1. rewrite H0, H1. reflexivity.
Qed.

(** A round in which the segment has not run out only takes samples. *)
Lemma interval_iter_idle (pfuel : nat) (led_duration : Q) (s : locals)
  (w : World) :
  Qgtb (clock E (instant w) - led_start s) led_duration = false ->
  interval_iter E pfuel led_duration s w
  = Done (Next s) (advance (advance (advance w))).
Proof.
  intro Hgt.
  unfold interval_iter, interval_tick, interval_pause, interval_cancel, bind,
    monotonic, ret.
  rewrite Hgt. rewrite single_press_a_eq. cbn [instant advance].
  rewrite (proj1 (quiet (S (instant w)))). cbn [negb].
  rewrite single_press_b_eq. cbn [instant advance].
  rewrite (proj2 (quiet (S (S (instant w))))). reflexivity.
Qed.

(** A round in which a segment runs out on a cell other than the stop
    cell turns that cell off and moves to the cell before it. *)
Lemma interval_iter_step (pfuel : nat) (led_duration : Q) (s : locals)
  (w : World) :
  Qgtb (clock E (instant w) - led_start s) led_duration = true ->
  (0 <= led_current s < Z.of_nat (List.length (pixels w)))%Z ->
  led_current s <> stop_led (self w) ->
  interval_iter E pfuel led_duration s w
  = Done (Next (mkLocals (clock E (S (instant w)))
                  ((led_current s - 1) mod 10)%Z))
      (mkWorld (4 + instant w) (turn_off (pixels w) (led_current s))
         (trace w ++ [off_event (led_current s)]) (cpx w) (self w)).
Proof.
  intros Hgt Hrange Hne.
  unfold interval_iter, interval_tick, interval_pause, interval_cancel, bind,
    monotonic, pixels_set, get_world, ret, emit, advance, with_pixels.
  cbn [instant pixels trace cpx self].
  rewrite Hgt. cbn [instant pixels trace cpx self].
  rewrite (pixel_index_in_range _ _ Hrange).
  cbn [instant pixels trace cpx self].
  apply Z.eqb_neq in Hne. rewrite Hne.
  rewrite single_press_a_eq. cbn [instant pixels trace cpx self].
  rewrite (proj1 (quiet (S (S (instant w))))). cbn [negb].
  rewrite single_press_b_eq. unfold advance.
  cbn [instant pixels trace cpx self].
  rewrite (proj2 (quiet (S (S (S (instant w)))))). reflexivity.
Qed.

(** A round in which the segment of the stop cell runs out turns it off
    and completes, with the tone when the switch is on. *)
Lemma interval_iter_complete (pfuel : nat) (led_duration : Q) (s : locals)
  (w : World) :
  Qgtb (clock E (instant w) - led_start s) led_duration = true ->
  (0 <= led_current s < Z.of_nat (List.length (pixels w)))%Z ->
  led_current s = stop_led (self w) ->
  interval_iter E pfuel led_duration s w
  = Done (Return Completed)
      (mkWorld (2 + instant w) (turn_off (pixels w) (led_current s))
         (trace w ++ off_event (led_current s)
            :: tone_if (raw_switch E (S (instant w))))
         (cpx w) (self w)).
Proof.
  intros Hgt Hrange Heq.
  unfold interval_iter, interval_tick, bind, monotonic, pixels_set, get_world,
    switch, play_tone, modify, ret, emit, advance, with_pixels.
  cbn [instant pixels trace cpx self].
  rewrite Hgt. cbn [instant pixels trace cpx self].
  rewrite (pixel_index_in_range _ _ Hrange).
  cbn [instant pixels trace cpx self].
  apply Z.eqb_eq in Heq. rewrite Heq.
  cbn [instant pixels trace cpx self].
  destruct (raw_switch E (S (instant w)));
    cbn [instant pixels trace cpx self tone_if];
    rewrite <- ?app_assoc; reflexivity.
Qed.

(** Waiting for a segment to run out: the loop reaches, in finitely many
    rounds that change nothing, a round in which the countdown fires. *)
Lemma later_refl (w : World) : later w w.
Proof. unfold later. repeat split. lia. Qed.

Lemma interval_loop_wait (led_duration : Q) (s : locals) (d : nat) :
  forall w,
    (forall m, (instant w + d <= m)%nat ->
               Qgtb (clock E m - led_start s) led_duration = true) ->
    exists w1,
      later w w1
      /\ Qgtb (clock E (instant w1) - led_start s) led_duration = true
      /\ forall fuel, exists fuel',
           forall pfuel,
             interval_loop E pfuel fuel' led_duration s w
             = interval_loop E pfuel fuel led_duration s w1.
Proof.
  induction d as [|d IH]; intros w Hev.
  - exists w. split; [apply later_refl | split].
    + apply Hev. lia.
    + intro fuel. exists fuel. reflexivity.
  - destruct (Qgtb (clock E (instant w) - led_start s) led_duration) eqn:Hnow.
    + exists w. split; [apply later_refl | split].
      * exact Hnow.
      * intro fuel. exists fuel. reflexivity.
    + destruct (IH (advance (advance (advance w)))) as (w1 & Hl & Hf & Hfuel).
      { intros m Hm. apply Hev. cbn [instant advance] in Hm. lia. }
      exists w1. split; [|split].
      * destruct Hl as (Hi & Hp & Ht & Hc & Hs). cbn in Hi, Hp, Ht, Hc, Hs.
        unfold later. repeat split; try assumption. lia.
      * exact Hf.
      * intro fuel. destruct (Hfuel fuel) as [fuel' Heq].
        exists (S fuel'). intro pfuel. cbn [interval_loop].
        rewrite (bind_eq _ _ _ _ _ (interval_iter_idle pfuel _ _ _ Hnow)).
        apply Heq.
Qed.

Lemma fires_eventually (led_duration : Q) (s : locals) :
  exists N, forall m, (N <= m)%nat ->
    Qgtb (clock E m - led_start s) led_duration = true.
Proof.
  destruct (clock_eventually (led_start s + led_duration)) as [N HN].
  exists N. intros m Hm. apply Qgtb_true. specialize (HN m Hm). lra.
Qed.

(** From any point of the countdown from which the stop cell is [n]
    cells away, the loop completes, having turned off those cells and
    the stop cell, in order. *)
Lemma interval_loop_completes (led_duration : Q) (n : nat) :
  forall s w,
    reaches (stop_led (self w)) (led_current s) n = true ->
    (0 <= led_current s < 10)%Z ->
    List.length (pixels w) = N_PIXELS ->
    exists fuel w',
      (forall pfuel,
         interval_loop E pfuel fuel led_duration s w = Done Completed w')
      /\ trace w'
         = trace w ++ map off_event (countdown (led_current s) (S n))
             ++ tone_if (raw_switch E (Nat.pred (instant w')))
      /\ pixels w'
         = fold_left turn_off (countdown (led_current s) (S n)) (pixels w)
      /\ nth_error (pixels w') (Z.to_nat (stop_led (self w))) = Some black
      /\ cpx w' = cpx w /\ self w' = self w
      /\ (instant w < instant w')%nat.
Proof.
  induction n as [|n IH]; intros s w Hreach Hrange Hlen.
  - cbn [reaches] in Hreach. apply Z.eqb_eq in Hreach.
    destruct (fires_eventually led_duration s) as [N HN].
    destruct (interval_loop_wait led_duration s N w) as (w1 & Hl & Hf & Hfuel).
    { intros m Hm. apply HN. lia. }
    destruct Hl as (Hi & Hp & Ht & Hc & Hs).
    assert (Hrange1 : (0 <= led_current s < Z.of_nat (List.length (pixels w1)))%Z).
    { rewrite Hp, Hlen. unfold N_PIXELS. lia. }
    assert (Hstop1 : led_current s = stop_led (self w1)).
    { rewrite Hs. exact Hreach. }
    pose proof (fun pfuel =>
      interval_iter_complete pfuel led_duration s w1 Hf Hrange1 Hstop1) as Hit.
    destruct (Hfuel 1%nat) as [fuel Hfuel1].
    eexists fuel, _. split; [|splits].
    + intro pfuel. rewrite Hfuel1. cbn [interval_loop].
      rewrite (bind_eq _ _ _ _ _ (Hit pfuel)). reflexivity.
    + cbn [trace instant Nat.pred plus countdown map]. rewrite Ht.
      reflexivity.
    + cbn [pixels countdown fold_left]. rewrite Hp. reflexivity.
    + cbn [pixels]. rewrite <- Hreach. unfold turn_off.
      apply update_nth_hit. rewrite Hp, Hlen. unfold N_PIXELS. lia.
    + cbn [cpx]. exact Hc.
    + cbn [self]. exact Hs.
    + cbn [instant]. lia.
  - cbn [reaches] in Hreach. apply andb_true_iff in Hreach.
    destruct Hreach as [Hne Hreach]. apply negb_true_iff, Z.eqb_neq in Hne.
    destruct (fires_eventually led_duration s) as [N HN].
    destruct (interval_loop_wait led_duration s N w) as (w1 & Hl & Hf & Hfuel).
    { intros m Hm. apply HN. lia. }
    destruct Hl as (Hi & Hp & Ht & Hc & Hs).
    assert (Hrange1 : (0 <= led_current s < Z.of_nat (List.length (pixels w1)))%Z).
    { rewrite Hp, Hlen. unfold N_PIXELS. lia. }
    assert (Hstop1 : led_current s <> stop_led (self w1)).
    { rewrite Hs. exact Hne. }
    pose proof (fun pfuel =>
      interval_iter_step pfuel led_duration s w1 Hf Hrange1 Hstop1) as Hit.
    set (s2 := mkLocals (clock E (S (instant w1)))
                 ((led_current s - 1) mod 10)%Z) in *.
    set (w2 := mkWorld (4 + instant w1) (turn_off (pixels w1) (led_current s))
                 (trace w1 ++ [off_event (led_current s)]) (cpx w1) (self w1))
      in *.
    destruct (IH s2 w2) as (fuel2 & w' & Hrun & Htr & Hpx & Hoff & Hc' & Hs' & Hi').
    { cbn [self w2 led_current s2]. rewrite Hs. exact Hreach. }
    { cbn [led_current s2]. apply Z.mod_pos_bound. lia. }
    { cbn [pixels w2]. unfold turn_off. rewrite update_nth_length, Hp. exact Hlen. }
    destruct (Hfuel (S fuel2)) as [fuel Hfuel1].
    exists fuel, w'. split; [|splits].
    + intro pfuel. rewrite Hfuel1. cbn [interval_loop].
      rewrite (bind_eq _ _ _ _ _ (Hit pfuel)). apply Hrun.
    + rewrite Htr. cbn [trace w2 led_current s2]. rewrite Ht.
      cbn [countdown map]. rewrite <- !app_assoc. reflexivity.
    + rewrite Hpx. cbn [pixels w2 led_current s2]. rewrite Hp. reflexivity.
    + cbn [self w2] in Hoff. rewrite Hs in Hoff. exact Hoff.
    + rewrite Hc'. cbn [cpx w2]. exact Hc.
    + rewrite Hs'. cbn [self w2]. exact Hs.
    + cbn [instant w2] in Hi'. lia.
Qed.

(** The same for a whole call of [interval]. *)
Lemma interval_completes (duration : Q) (color : RGB) (n : nat) (w : World) :
  List.length (pixels w) = N_PIXELS ->
  (0 <= start_led (self w) < 10)%Z ->
  reaches (stop_led (self w)) (start_led (self w)) n = true ->
  exists fuel w',
    interval E fuel duration color w = Done Completed w'
    /\ trace w'
       = trace w ++ EvSetAll (repeat color N_PIXELS)
           :: map off_event (countdown (start_led (self w)) (S n))
           ++ tone_if (raw_switch E (Nat.pred (instant w')))
    /\ pixels w'
       = fold_left turn_off (countdown (start_led (self w)) (S n))
           (repeat color N_PIXELS)
    /\ nth_error (pixels w') (Z.to_nat (stop_led (self w))) = Some black
    /\ cpx w' = cpx w /\ self w' = self w.
Proof.
  intros Hlen Hrange Hreach.
  set (w0 := advance (mkWorld (instant w) (repeat color N_PIXELS)
                        (trace w ++ [EvSetAll (repeat color N_PIXELS)])
                        (cpx w) (self w))).
  set (s0 := mkLocals (clock E (instant w)) (start_led (self w))).
  destruct (interval_loop_completes (duration / 10) n s0 w0)
    as (fuel & w' & Hrun & Htr & Hpx & Hoff & Hc & Hs & _).
  { exact Hreach. }
  { exact Hrange. }
  { cbn. reflexivity. }
  exists fuel, w'. split; [|splits].
  - unfold interval.
    rewrite (bind_eq _ _ _ _ _
               (pixels_set_all_ok (repeat color N_PIXELS) w
                  ltac:(rewrite repeat_length; symmetry; exact Hlen))).
    unfold bind, monotonic, get_world. cbn [instant self advance].
    apply Hrun.
  - rewrite Htr. cbn [trace w0 advance led_current s0].
    rewrite <- !app_assoc. reflexivity.
  - rewrite Hpx. reflexivity.
  - exact Hoff.
  - exact Hc.
  - exact Hs.
Qed.

End Uninterrupted.




Lemma E_idle_monotone : monotone E_idle.
Proof.
  intro n. unfold E_idle, clock, Qle. cbn [Qnum Qden]. lia.
Qed.

Lemma E_idle_unbounded : unbounded E_idle.
Proof.
  intros [p q]. exists (Z.to_nat (4 * Z.abs p + 1)).
  unfold E_idle, clock, Qlt. cbn [Qnum Qden].
  rewrite Z2Nat.id by lia.
  pose proof (Pos2Z.is_pos q). nia.
Qed.

Lemma E_idle_quiet : no_press E_idle.
Proof. intro n. split; reflexivity. Qed.


(** C10.  [Pomodoro(usb_down)] sets the start and stop cells to 4 and 5,
    or to 9 and 0.  Either way, counting down from the start cell meets
    the stop cell after nine decrements and not before, that is at the
    tenth cell turned off, and those ten cells are every cell of the
    ring once.  So an interval that nobody interrupts turns off each of
    the ten cells exactly once, in countdown order, and then completes
    with the whole ring dark. *)
Theorem countdown_covers_ring (E : Env) (usb_down : bool) :
  let start := (if usb_down then 4 else 9)%Z in
  let stop := (if usb_down then 5 else 0)%Z in
  (forall w w1, Pomodoro_init E usb_down w = Done tt w1 ->
     start_led (self w1) = start /\ stop_led (self w1) = stop)
  /\ reaches stop start 9 = true
  /\ List.length (countdown start 10) = 10%nat
  /\ (forall c, (0 <= c < 10)%Z ->
        count_occ Z.eq_dec (countdown start 10) c = 1%nat)
  /\ (monotone E -> unbounded E -> no_press E ->
      forall duration color w,
        List.length (pixels w) = N_PIXELS ->
        start_led (self w) = start ->
        stop_led (self w) = stop ->
        exists fuel w',
          interval E fuel duration color w = Done Completed w'
          /\ trace w'
             = trace w ++ EvSetAll (repeat color N_PIXELS)
                 :: map off_event (countdown start 10)
                 ++ tone_if (raw_switch E (Nat.pred (instant w')))
          /\ pixels w' = repeat black N_PIXELS).
Proof.
  intros start stop. splits.
  - intros w w1 H. unfold Pomodoro_init in H.
    unfold bind, work_duration_setter, short_break_setter, long_break_setter,
      modify, monotonic in H. cbn in H.
    injection H as <-. cbn. split; reflexivity.
  - subst start stop. destruct usb_down; reflexivity.
  - subst start. destruct usb_down; reflexivity.
  - intros c Hc.
    assert (Hcases : (c = 0 \/ c = 1 \/ c = 2 \/ c = 3 \/ c = 4 \/ c = 5
                      \/ c = 6 \/ c = 7 \/ c = 8 \/ c = 9)%Z) by lia.
    subst start.
    destruct usb_down;
      repeat (destruct Hcases as [-> | Hcases]; [reflexivity|]);
      subst c; reflexivity.
  - intros Hmono Hunb Hquiet duration color w Hlen Hstart Hstop.
    destruct (interval_completes E Hmono Hunb Hquiet duration color 9 w Hlen)
      as (fuel & w' & Hrun & Htr & Hpx & _).
    { rewrite Hstart. subst start. destruct usb_down; lia. }
    { rewrite Hstart, Hstop. subst start stop. destruct usb_down; reflexivity. }
    exists fuel, w'. rewrite Hstart in Htr, Hpx. splits.
    + exact Hrun.
    + exact Htr.
    + rewrite Hpx. subst start. destruct usb_down; reflexivity.
Qed.

Lemma countdown_covers_ring_witness :
  exists fuel w',
    interval E_idle fuel 10 (0, 5, 0)%Z (fresh_world false) = Done Completed w'
    /\ trace w'
       = [] ++ EvSetAll (repeat (0, 5, 0)%Z N_PIXELS)
           :: map off_event [9; 8; 7; 6; 5; 4; 3; 2; 1; 0]%Z
           ++ tone_if (raw_switch E_idle (Nat.pred (instant w')))
    /\ pixels w' = repeat black N_PIXELS.
Proof.
  refine (proj2 (proj2 (proj2 (proj2 (countdown_covers_ring E_idle false))))
            E_idle_monotone E_idle_unbounded E_idle_quiet 10 (0, 5, 0)%Z
            (fresh_world false) eq_refl eq_refl eq_refl).
Defined.

(** ** The order of the three checks *)

Section Order.

Variable E : Env.

Lemma interval_tick_length (led_duration : Q) (s : locals) (w w' : World)
  (r : flow) :
  interval_tick E led_duration s w = Done r w' ->
  List.length (pixels w') = List.length (pixels w).
Proof.
  intro H. apply interval_tick_done in H.
  destruct H as [(_ & _ & ->) | [(n & _ & _ & _ & _ & ->)
                                 | (n & _ & _ & _ & _ & ->)]];
    cbn [pixels advance]; [reflexivity | |]; apply update_nth_length.
Qed.

Lemma interval_pause_pixels (fuel : nat) (s s' : locals) (w w' : World) :
  interval_pause E fuel s w = Done s' w' -> pixels w' = pixels w.
Proof.
  intro H. apply interval_pause_done in H.
  destruct (single_press_a_frame E w) as (b & w0 & H0 & Hpx & _).
  destruct H as [(Ha & _) | (w1 & w2 & Ha & Hp & -> & _)];
    rewrite Ha in H0; injection H0 as <- <-.
  - exact Hpx.
  - apply pause_done in Hp. destruct Hp as (Hp & _).
    cbn [pixels advance] in *. congruence.
Qed.

(** The countdown step when the segment has run out on a cell that is
    not the stop cell. *)
Lemma interval_tick_fires (led_duration : Q) (s : locals) (w : World)
  (n : nat) :
  Qgtb (clock E (instant w) - led_start s) led_duration = true ->
  pixel_index (List.length (pixels w)) (led_current s) = Some n ->
  led_current s <> stop_led (self w) ->
  interval_tick E led_duration s w
  = Done (Next (mkLocals (clock E (S (instant w)))
                  ((led_current s - 1) mod 10)%Z))
      (mkWorld (2 + instant w) (update_nth n black (pixels w))
         (trace w ++ [off_event (led_current s)]) (cpx w) (self w)).
Proof.
  intros Hgt Hidx Hne. apply Z.eqb_neq in Hne.
  unfold interval_tick, bind, monotonic, pixels_set, get_world, ret, emit,
    advance, with_pixels.
  cbn [instant pixels trace cpx self]. rewrite Hgt.
  cbn [instant pixels trace cpx self]. rewrite Hidx.
  cbn [instant pixels trace cpx self]. rewrite Hne. reflexivity.
Qed.

(** A round either completes in its countdown step, or runs the
    countdown step, the pause check and the cancel check, in that
    order. *)
Lemma interval_iter_cases (pfuel : nat) (led_duration : Q) (s : locals)
  (w w' : World) (r : flow) :
  interval_iter E pfuel led_duration s w = Done r w' ->
  (r = Return Completed
   /\ interval_tick E led_duration s w = Done (Return Completed) w')
  \/ (r <> Return Completed
      /\ exists s1 w1 s2 w2,
           interval_tick E led_duration s w = Done (Next s1) w1
           /\ interval_pause E pfuel s1 w1 = Done s2 w2
           /\ interval_cancel E s2 w2 = Done r w').
Proof.
  unfold interval_iter. intro H. inv_bind H as r1 w1 Ht.
  destruct r1 as [x | s1].
  - unfold ret in H. injection H as <- <-. left.
    pose proof (interval_tick_trace E _ _ _ _ _ Ht) as (_ & T & _ & _ & _ & _
                                                        & _ & _ & Hx).
    rewrite (Hx x eq_refl) in *. split; [reflexivity | exact Ht].
  - inv_bind H as s2 w2 Hp. right. split.
    + intros ->. apply interval_cancel_done in H.
      destruct H as [(_ & Hc) | (w3 & _ & _ & Hc)]; discriminate Hc.
    + exists s1, w1, s2, w2. splits; assumption.
Qed.

(** After the countdown step and the pause check, whatever they did, the
    poll of channel B decides: accepted, the round plays the abort
    animation and returns through the cancel exit; rejected, the loop
    goes round again. *)
Lemma interval_iter_decided (pfuel : nat) (led_duration : Q)
  (s s1 s2 : locals) (w w1 w2 w3 : World) :
  List.length (pixels w) = N_PIXELS ->
  interval_tick E led_duration s w = Done (Next s1) w1 ->
  interval_pause E pfuel s1 w1 = Done s2 w2 ->
  (single_press_b E w2 = Done true w3 ->
   interval_iter E pfuel led_duration s w
   = Done (Return Cancelled)
       (mkWorld (instant w3) (repeat black N_PIXELS)
          (trace w2 ++ abort_animation) (cpx w3) (self w2)))
  /\ (single_press_b E w2 = Done false w3 ->
      interval_iter E pfuel led_duration s w = Done (Next s2) w3).
Proof.
  intros Hlen Ht Hp.
  assert (Hlen2 : List.length (pixels w2) = N_PIXELS).
  { rewrite (interval_pause_pixels _ _ _ _ _ Hp),
      (interval_tick_length _ _ _ _ _ Ht). exact Hlen. }
  split; intro Hb; unfold interval_iter;
    rewrite (bind_eq _ _ _ _ _ Ht); cbv beta iota;
    rewrite (bind_eq _ _ _ _ _ Hp).
  - apply interval_cancel_accepts; assumption.
  - unfold interval_cancel. rewrite (bind_eq _ _ _ _ _ Hb). reflexivity.
Qed.

(** The three checks do not exclude each other: a round in which the
    segment has run out on a cell other than the stop cell, channel A
    then accepts a press, the pause returns and channel B then accepts
    a press, turns the cell off, pauses and cancels. *)
Lemma interval_iter_all_three (pfuel : nat) (led_duration : Q) (s : locals)
  (w wa wp wb : World) (n : nat) :
  List.length (pixels w) = N_PIXELS ->
  Qgtb (clock E (instant w) - led_start s) led_duration = true ->
  pixel_index (List.length (pixels w)) (led_current s) = Some n ->
  led_current s <> stop_led (self w) ->
  single_press_a E
    (mkWorld (2 + instant w) (update_nth n black (pixels w))
       (trace w ++ [off_event (led_current s)]) (cpx w) (self w))
  = Done true wa ->
  pause E pfuel (advance wa) = Done tt wp ->
  single_press_b E (advance wp) = Done true wb ->
  exists evs,
    interval_iter E pfuel led_duration s w
    = Done (Return Cancelled)
        (mkWorld (instant wb) (repeat black N_PIXELS)
           (trace w ++ off_event (led_current s) :: EvGetAll :: evs
              ++ abort_animation)
           (cpx wb) (self wp))
    /\ forallb is_pause evs = true
    /\ handled (off_event (led_current s) :: EvGetAll :: evs
                  ++ abort_animation) = 3%nat.
Proof.
  intros Hlen Hgt Hidx Hne Ha Hp Hb.
  pose proof (interval_tick_fires _ _ _ _ Hgt Hidx Hne) as Ht.
  set (w1 := mkWorld (2 + instant w) (update_nth n black (pixels w))
               (trace w ++ [off_event (led_current s)]) (cpx w) (self w)) in *.
  set (s1 := mkLocals (clock E (S (instant w)))
               ((led_current s - 1) mod 10)%Z) in *.
  assert (Hpause : interval_pause E pfuel s1 w1
                   = Done (mkLocals
                             (led_start s1
                              + (clock E (instant wp)
                                 - clock E (instant wa)))
                             (led_current s1))
                       (advance wp)).
  { unfold interval_pause. rewrite (bind_eq _ _ _ _ _ Ha). cbv beta iota.
    unfold bind at 1. unfold monotonic at 1.
    rewrite (bind_eq _ _ _ _ _ Hp). reflexivity. }
  destruct (interval_iter_decided pfuel led_duration s s1 _ w w1 _ wb
              Hlen Ht Hpause) as [Hcancel _].
  specialize (Hcancel Hb).
  destruct (single_press_a_frame E w1) as (b & w0 & H0 & _ & Hta & _).
  rewrite Ha in H0. injection H0 as <- <-.
  apply pause_done in Hp.
  destruct Hp as (_ & _ & _ & _ & (evs & Htr & Hf) & _).
  cbn [trace advance] in Htr. rewrite Hta in Htr.
  unfold w1 in Htr. cbn [trace] in Htr.
  exists evs. splits.
  - rewrite Hcancel. cbn [trace self advance]. rewrite Htr.
    rewrite <- !app_assoc. reflexivity.
  - exact Hf.
  - unfold handled. cbn [existsb is_tick is_snapshot is_sleep off_event orb].
    rewrite existsb_app.
    replace (existsb is_sleep abort_animation) with true by reflexivity.
    rewrite orb_true_r. reflexivity.
Qed.

End Order.

(** C5, amended.  The body of the loop is three checks that run one
    after the other and do not exclude each other.

    For every round that returns: what it writes is a countdown part,
    then a pause part, then either nothing or the abort animation;
    completing is exclusive, the round then ends in its countdown step
    without polling a button; otherwise the countdown step, the pause
    check and the cancel check all ran, each in the store the one before
    left; and the round returns through the cancel exit exactly when the
    poll of channel B that follows the pause check accepted a press, the
    abort animation being the last thing it does.

    Conversely, after a countdown step that did not complete and a pause
    check, whatever they did, an accepted poll of channel B makes the
    round play the abort animation last and return through the cancel
    exit, and a rejected one makes the loop go round again.

    In particular a round in which the segment has run out on a cell
    other than the stop cell and both channels accept a press handles
    the three of them: it turns the cell off, pauses, and cancels. *)
Theorem interval_iter_order (E : Env) (pfuel : nat) (led_duration : Q)
  (s : locals) (w : World) :
  (forall r w',
     interval_iter E pfuel led_duration s w = Done r w' ->
     (exists T P C,
        trace w' = trace w ++ T ++ P ++ C
        /\ forallb is_tick T = true
        /\ forallb is_pause P = true
        /\ (C = [] \/ C = abort_animation)
        /\ (r = Return Completed -> P = [] /\ C = [])
        /\ (C = abort_animation <-> r = Return Cancelled))
     /\ (r = Return Completed ->
         interval_tick E led_duration s w = Done (Return Completed) w'
         /\ instant w' = (2 + instant w)%nat
         /\ cpx w' = cpx w)
     /\ (r <> Return Completed ->
         exists s1 w1 s2 w2,
           interval_tick E led_duration s w = Done (Next s1) w1
           /\ interval_pause E pfuel s1 w1 = Done s2 w2
           /\ interval_cancel E s2 w2 = Done r w')
     /\ (r = Return Cancelled <->
         exists s1 w1 s2 w2 w3,
           interval_tick E led_duration s w = Done (Next s1) w1
           /\ interval_pause E pfuel s1 w1 = Done s2 w2
           /\ single_press_b E w2 = Done true w3
           /\ flash 2 w3 = Done tt w'))
  /\ (forall s1 w1 s2 w2 w3,
        List.length (pixels w) = N_PIXELS ->
        interval_tick E led_duration s w = Done (Next s1) w1 ->
        interval_pause E pfuel s1 w1 = Done s2 w2 ->
        (single_press_b E w2 = Done true w3 ->
         interval_iter E pfuel led_duration s w
         = Done (Return Cancelled)
             (mkWorld (instant w3) (repeat black N_PIXELS)
                (trace w2 ++ abort_animation) (cpx w3) (self w2)))
        /\ (single_press_b E w2 = Done false w3 ->
            interval_iter E pfuel led_duration s w = Done (Next s2) w3))
  /\ (forall n wa wp wb,
        List.length (pixels w) = N_PIXELS ->
        Qgtb (clock E (instant w) - led_start s) led_duration = true ->
        pixel_index (List.length (pixels w)) (led_current s) = Some n ->
        led_current s <> stop_led (self w) ->
        single_press_a E
          (mkWorld (2 + instant w) (update_nth n black (pixels w))
             (trace w ++ [off_event (led_current s)]) (cpx w) (self w))
        = Done true wa ->
        pause E pfuel (advance wa) = Done tt wp ->
        single_press_b E (advance wp) = Done true wb ->
        exists evs,
          interval_iter E pfuel led_duration s w
          = Done (Return Cancelled)
              (mkWorld (instant wb) (repeat black N_PIXELS)
                 (trace w ++ off_event (led_current s) :: EvGetAll :: evs
                    ++ abort_animation)
                 (cpx wb) (self wp))
          /\ forallb is_pause evs = true
          /\ handled (off_event (led_current s) :: EvGetAll :: evs
                        ++ abort_animation) = 3%nat).
Proof.
  splits.
  - intros r w' H. splits.
    + apply interval_iter_trace in H.
      destruct H as (_ & T & P & C & Htr & HT & HP & HC & Hdone & Hiff & _).
      exists T, P, C. splits; assumption.
    + intros ->. apply interval_iter_cases in H.
      destruct H as [(_ & Ht) | (Hne & _)]; [|exfalso; apply Hne; reflexivity].
      split; [exact Ht|].
      apply interval_tick_done in Ht.
      destruct Ht as [(_ & Hc & _) | [(n & _ & _ & _ & Hc & _)
                                      | (n & _ & _ & _ & _ & ->)]];
        try discriminate Hc.
      split; reflexivity.
    + intro Hne. apply interval_iter_cases in H.
      destruct H as [(Hc & _) | (_ & Hex)]; [contradiction | exact Hex].
    + split.
      * intros ->. apply interval_iter_cases in H.
        destruct H as [(Hc & _) | (_ & s1 & w1 & s2 & w2 & Ht & Hp & Hc)];
          [discriminate Hc|].
        apply interval_cancel_done in Hc.
        destruct Hc as [(_ & Hc) | (w3 & Hb & Hf & _)]; [discriminate Hc|].
        exists s1, w1, s2, w2, w3. splits; assumption.
      * intros (s1 & w1 & s2 & w2 & w3 & Ht & Hp & Hb & Hf).
        unfold interval_iter in H.
        rewrite (bind_eq _ _ _ _ _ Ht) in H. cbv beta iota in H.
        rewrite (bind_eq _ _ _ _ _ Hp) in H.
        apply interval_cancel_done in H.
        destruct H as [(Hb' & _) | (_ & _ & _ & Hr)]; [|exact Hr].
        rewrite Hb in Hb'. discriminate Hb'.
  - intros s1 w1 s2 w2 w3 Hlen Ht Hp.
    exact (interval_iter_decided E pfuel led_duration s s1 s2 w w1 w2 w3
             Hlen Ht Hp).
  - intros n wa wp wb Hlen Hgt Hidx Hne Ha Hp Hb.
    exact (interval_iter_all_three E pfuel led_duration s w wa wp wb n
             Hlen Hgt Hidx Hne Ha Hp Hb).
Qed.

Lemma interval_iter_order_witness :
  match interval_iter E_held 5 (1 # 2) (mkLocals (-1) 4) (fresh_world true)
  with
  | Done r w' =>
      r = Return Cancelled
      /\ handled (trace w') = 3%nat
      /\ exists s1 w1 s2 w2 w3,
           interval_tick E_held (1 # 2) (mkLocals (-1) 4) (fresh_world true)
           = Done (Next s1) w1
           /\ interval_pause E_held 5 s1 w1 = Done s2 w2
           /\ single_press_b E_held w2 = Done true w3
           /\ flash 2 w3 = Done tt w'
  | _ => False
  end.
Proof.
  destruct (interval_iter E_held 5 (1 # 2) (mkLocals (-1) 4)
              (fresh_world true)) as [r w' | e w' |] eqn:H.
  - assert (Hr : r = Return Cancelled).
    { vm_compute in H. injection H as <- _. reflexivity. }
    splits.
    + exact Hr.
    + vm_compute in H. injection H as _ <-. reflexivity.
    + exact (proj1 (proj2 (proj2 (proj2
        (proj1 (interval_iter_order E_held 5 (1 # 2) (mkLocals (-1) 4)
                  (fresh_world true)) r w' H)))) Hr).
  - vm_compute in H. discriminate H.
  - vm_compute in H. discriminate H.
Defined.

(** ** What a whole interval writes and keeps *)

Section Config.

Variable E : Env.

Lemma same_config_refl (p : Pomodoro) : same_config p p.
Proof. reflexivity. Qed.

Lemma same_config_trans (p q r : Pomodoro) :
  same_config p q -> same_config q r -> same_config p r.
Proof. unfold same_config. intros H1 H2. rewrite H2. exact H1. Qed.

Lemma same_config_led_state (s : list RGB) (p : Pomodoro) :
  same_config p (set_led_state s p).
Proof. reflexivity. Qed.

Lemma same_config_intervals (p q : Pomodoro) :
  same_config p q -> intervals q = intervals p.
Proof. intro H. exact (f_equal intervals H). Qed.

Lemma interval_iter_config (pfuel : nat) (led_duration : Q) (s : locals)
  (w w' : World) (r : flow) :
  interval_iter E pfuel led_duration s w = Done r w' ->
  same_config (self w) (self w').
Proof.
  unfold interval_iter. intro H.
  inv_bind H as r1 w1 Ht. apply interval_tick_trace in Ht.
  destruct Ht as (Hs1 & _).
  destruct r1 as [x | s1].
  - unfold ret in H. injection H as _ <-. rewrite Hs1. apply same_config_refl.
  - inv_bind H as s2 w2 Hp.
    apply interval_cancel_trace in H. destruct H as (Hs3 & _).
    rewrite Hs3. apply interval_pause_done in Hp.
    destruct Hp as [(Ha & _) | (wa & wp & Ha & Hp & -> & _)].
    + destruct (single_press_a_frame E w1) as (b & w0 & H0 & _ & _ & Hs & _).
      rewrite Ha in H0. injection H0 as _ <-.
      rewrite Hs, Hs1. apply same_config_refl.
    + destruct (single_press_a_frame E w1) as (b & w0 & H0 & _ & _ & Hs & _).
      rewrite Ha in H0. injection H0 as _ <-.
      apply pause_done in Hp. destruct Hp as (_ & _ & Hself & _).
      cbn [self advance] in *. rewrite Hself, Hs, Hs1.
      apply same_config_led_state.
Qed.

Lemma interval_loop_trace (pfuel : nat) (led_duration : Q) (fuel : nat) :
  forall s w x w',
    interval_loop E pfuel fuel led_duration s w = Done x w' ->
    same_config (self w) (self w')
    /\ exists evs, trace w' = trace w ++ evs.
Proof.
  induction fuel as [|fuel IH]; intros s w x w' H; [discriminate H|].
  cbn [interval_loop] in H. inv_bind H as r w1 Hit.
  pose proof (interval_iter_config _ _ _ _ _ _ Hit) as Hcfg.
  apply interval_iter_trace in Hit.
  destruct Hit as (_ & T & P & C & Htr & _).
  destruct r as [y | s1].
  - unfold ret in H. injection H as _ <-.
    split; [exact Hcfg | exists (T ++ P ++ C); exact Htr].
  - apply IH in H. destruct H as (Hcfg' & evs & Htr').
    split; [eapply same_config_trans; eassumption|].
    exists ((T ++ P ++ C) ++ evs). rewrite Htr', Htr, <- !app_assoc.
    reflexivity.
Qed.

(** Whichever exit it takes, [interval] first lights the whole ring in
    its colour, and leaves the configuration as it was. *)
Lemma interval_trace (fuel : nat) (duration : Q) (color : RGB)
  (w w' : World) (x : exit_tag) :
  interval E fuel duration color w = Done x w' ->
  same_config (self w) (self w')
  /\ exists evs,
       trace w' = trace w ++ EvSetAll (repeat color N_PIXELS) :: evs.
Proof.
  unfold interval. intro H.
  inv_bind H as u w1 Hset. destruct u. apply pixels_set_all_done in Hset.
  destruct Hset as [-> _].
  inv_bind H as t w2 Ht. unfold monotonic in Ht. injection Ht as <- <-.
  unfold bind, get_world in H.
  apply interval_loop_trace in H. cbn [self trace advance] in H.
  destruct H as (Hcfg & evs & Htr).
  split; [exact Hcfg|]. exists evs. rewrite Htr, <- app_assoc. reflexivity.
Qed.

Lemma run_period_trace (fuel : nat) (period : string) (w w' : World)
  (x : exit_tag) :
  run_period E fuel period w = Done x w' ->
  same_config (self w) (self w')
  /\ exists seg, trace w' = trace w ++ seg /\ segment_of (self w) period seg.
Proof.
  unfold run_period. intro H.
  inv_bind H as entry w1 Hget. unfold intervals_get in Hget.
  destruct (lookup period (intervals (self w))) as [[name color]|] eqn:Hl;
    [|discriminate Hget].
  injection Hget as <- <-.
  inv_bind H as duration w2 Hattr. unfold getattr in Hattr.
  injection Hattr as _ <-.
  apply interval_trace in H. destruct H as (Hcfg & evs & Htr).
  split; [exact Hcfg|].
  exists (EvSetAll (repeat color N_PIXELS) :: evs). split; [exact Htr|].
  exists name, color, evs. split; [exact Hl | reflexivity].
Qed.

Lemma collect_segments (fuel : nat) (p0 : Pomodoro) (periods : list string) :
  forall w exits w',
    same_config p0 (self w) ->
    collect periods (run_period E fuel) w = Done exits w' ->
    exists segs,
      trace w' = trace w ++ concat segs
      /\ Forall2 (segment_of p0) periods segs.
Proof.
  induction periods as [|period periods IH]; intros w exits w' Hcfg H.
  - cbn in H. injection H as _ <-. exists []. cbn. rewrite app_nil_r.
    split; [reflexivity | constructor].
  - cbn [collect] in H. inv_bind H as x w1 Hrun.
    inv_bind H as rest w2 Hrest. unfold ret in H. injection H as _ <-.
    apply run_period_trace in Hrun.
    destruct Hrun as (Hcfg1 & seg & Htr1 & name & color & evs & Hl & ->).
    destruct (IH w1 rest w2 (same_config_trans _ _ _ Hcfg Hcfg1) Hrest)
      as (segs & Htr2 & Hall).
    exists ((EvSetAll (repeat color N_PIXELS) :: evs) :: segs). split.
    + rewrite Htr2, Htr1. cbn [concat]. rewrite <- app_assoc. reflexivity.
    + constructor; [|exact Hall].
      exists name, color, evs. split; [|reflexivity].
      rewrite <- (same_config_intervals _ _ Hcfg). exact Hl.
Qed.

End Config.

(** ** The session *)

Lemma for_each_collect {A B} (body : A -> M B) (xs : list A) :
  forall w,
    for_each xs (fun x => body x ;;; ret tt) w
    = (collect xs body ;;; ret tt) w.
Proof.
  induction xs as [|x xs IH]; intro w; [reflexivity|].
  cbn [for_each collect]. unfold bind at 1 2 4 5.
  destruct (body x w) as [a w1 | e w1 |]; try reflexivity.
  unfold ret at 1. rewrite IH. unfold bind.
  destruct (collect xs body w1) as [rs w2 | e w2 |]; reflexivity.
Qed.

Lemma collect_length {A B} (body : A -> M B) (xs : list A) :
  forall w rs w',
    collect xs body w = Done rs w' -> List.length rs = List.length xs.
Proof.
  induction xs as [|x xs IH]; intros w rs w' H.
  - cbn in H. injection H as <- _. reflexivity.
  - cbn [collect] in H. inv_bind H as r w1 Hr. inv_bind H as rs1 w2 Hrs.
    unfold ret in H. injection H as <- _. cbn [List.length].
    f_equal. eapply IH. exact Hrs.
Qed.

(** What [work_session] does is what [session_exits] does, the tags
    forgotten. *)
Lemma work_session_exits (E : Env) (fuel : nat) (w : World) :
  work_session E fuel w = (session_exits E fuel ;;; ret tt) w.
Proof.
  unfold work_session, session_exits, get_world.
  unfold bind at 1 3. apply for_each_collect.
Qed.

(** C1, as the spec states it, fails: button B is pressed once, during
    the first interval; that interval is cancelled, and the session goes
    on with the six other intervals of the schedule, which complete.
    The ring is lit in the colour of the short break after the abort
    animation. *)
Lemma cancelled_session_runs_on :
  exists w',
    session_after_boot E_cancel_once true 20
    = Done [Cancelled; Completed; Completed; Completed; Completed;
            Completed; Completed] w'
    /\ In (EvSetAll (repeat (0, 5, 0)%Z N_PIXELS)) (trace w')
    /\ ~ stops_on_cancel [Cancelled; Completed; Completed; Completed;
                          Completed; Completed; Completed].
Proof.
  destruct (session_after_boot E_cancel_once true 20)
    as [exits w' | e w' |] eqn:H; vm_compute in H; try discriminate H.
  injection H as <- <-. eexists. split; [reflexivity|]. split.
  - cbn. do 10 right. left. reflexivity.
  - intro Hstop. specialize (Hstop 0%nat eq_refl). discriminate Hstop.
Qed.

(** C1, amended.  [work_session] drops what [interval] returns: when it
    returns, it has called [interval] once for every entry of the
    schedule, in order, whichever exit each call took.  What the session
    wrote is one segment per entry, each starting with the ring lit in
    the colour of that entry.  In particular an interval that was
    cancelled is followed by the next one. *)
Theorem work_session_runs_every_entry (E : Env) (fuel : nat) (w w' : World) :
  work_session E fuel w = Done tt w' ->
  exists exits segs,
    session_exits E fuel w = Done exits w'
    /\ List.length exits = List.length (schedule (self w))
    /\ trace w' = trace w ++ concat segs
    /\ Forall2 (segment_of (self w)) (schedule (self w)) segs
    /\ forall k,
         nth_error exits k = Some Cancelled ->
         (S k < List.length (schedule (self w)))%nat ->
         exists x, nth_error exits (S k) = Some x.
Proof.
  intro H. rewrite work_session_exits in H.
  inv_bind H as exits w1 Hex. unfold ret in H. injection H as <-.
  pose proof Hex as Hcol. unfold session_exits, bind, get_world in Hcol.
  assert (Hlen : List.length exits = List.length (schedule (self w))).
  { eapply collect_length. exact Hcol. }
  destruct (collect_segments E fuel (self w) _ _ _ _
              (same_config_refl (self w)) Hcol) as (segs & Htr & Hsegs).
  exists exits, segs. splits.
  - exact Hex.
  - exact Hlen.
  - exact Htr.
  - exact Hsegs.
  - intros k _ Hk.
    destruct (nth_error exits (S k)) as [x|] eqn:Hn; [exists x; reflexivity|].
    apply nth_error_None in Hn. lia.
Qed.

Lemma work_session_runs_every_entry_witness :
  match work_session E_cancel_once 20 (booted E_cancel_once true) with
  | Done _ w' =>
      exists exits segs,
        session_exits E_cancel_once 20 (booted E_cancel_once true)
        = Done exits w'
        /\ List.length exits = 7%nat
        /\ trace w' = [] ++ concat segs
        /\ Forall2 (segment_of (fresh_pomodoro true))
             ["w"; "sb"; "w"; "lb"; "w"; "sb"; "w"]%string segs
        /\ forall k,
             nth_error exits k = Some Cancelled ->
             (S k < 7)%nat ->
             exists x, nth_error exits (S k) = Some x
  | _ => False
  end.
Proof.
  destruct (work_session E_cancel_once 20 (booted E_cancel_once true))
    as [[] w' | e w' |] eqn:H.
  - exact (work_session_runs_every_entry E_cancel_once 20 _ w' H).
  - vm_compute in H. discriminate H.
  - vm_compute in H. discriminate H.
Defined.

(** * Further properties of the code *)

(** ** The idle animation *)

Lemma ring_cell_cases (c : Z) :
  (0 <= c < 10)%Z ->
  (c = 0 \/ c = 1 \/ c = 2 \/ c = 3 \/ c = 4 \/ c = 5 \/ c = 6 \/ c = 7
   \/ c = 8 \/ c = 9)%Z.
Proof. lia. Qed.

Lemma idle_step_pixels (c : Z) (ps : list RGB) :
  (0 <= c < 10)%Z ->
  ps = repeat black N_PIXELS \/ ps = one_lit c ->
  pixel_index (List.length ps) c = Some (Z.to_nat c)
  /\ update_nth (Z.to_nat c) black ps = repeat black N_PIXELS
  /\ pixel_index N_PIXELS ((c - 1) mod 10)%Z
     = Some (Z.to_nat ((c - 1) mod 10)%Z).
Proof.
  intros Hc Hps. apply ring_cell_cases in Hc.
  repeat (destruct Hc as [-> | Hc]; [destruct Hps as [-> | ->]; cbn; auto|]).
  subst c. destruct Hps as [-> | ->]; cbn; auto.
Qed.

Lemma idle_animation_step (E : Env) (w : World) :
  idle_ring w ->
  (clock E (instant w) - idle_time (self w) <= idle_update (self w) ->
   idle_animation E w = Done tt (advance w))
  /\ (idle_update (self w) < clock E (instant w) - idle_time (self w) ->
      exists w',
        idle_animation E w = Done tt w'
        /\ idle_led (self w') = ((idle_led (self w) - 1) mod 10)%Z
        /\ pixels w' = one_lit (idle_led (self w'))
        /\ idle_time (self w') = clock E (S (instant w))
        /\ idle_update (self w') = idle_update (self w)
        /\ trace w'
           = trace w ++ [EvSetPixel (idle_led (self w)) black;
                         EvSetPixel (idle_led (self w')) idle_green]
        /\ idle_ring w').
Proof.
  intros [Hc Hps]. split.
  - intro Hle. apply Qgtb_false in Hle.
    unfold idle_animation, bind, monotonic, get_world, ret.
    cbn [self advance]. rewrite Hle. reflexivity.
  - intro Hgt. apply Qgtb_true in Hgt.
    destruct (idle_step_pixels _ _ Hc Hps) as (Hi1 & Hoff & Hi2).
    unfold idle_animation, bind, monotonic, get_world, pixels_set, modify,
      emit, advance, with_pixels, with_self.
    cbn [instant pixels trace cpx self]. rewrite Hgt.
    cbn [instant pixels trace cpx self]. rewrite Hi1.
    cbn [instant pixels trace cpx self]. rewrite Hoff.
    change (List.length (repeat black N_PIXELS)) with N_PIXELS.
    rewrite Hi2. cbn [instant pixels trace cpx self].
    eexists. split; [reflexivity|].
    cbn [instant pixels trace cpx self idle_led idle_time idle_update].
    splits; try reflexivity.
    + rewrite <- app_assoc. reflexivity.
    + split; [apply Z.mod_pos_bound; lia | right; reflexivity].
Qed.

(** X1.  [idle_animation] makes one light go round the board.  On a ring
    that is dark or lit at the idle cell only: while [idle_update] has
    not run out it only reads the clock; once it has, it turns the idle
    cell off, moves the idle cell one place back modulo 10, lights it
    in green and restarts the timer, so that again exactly the idle
    cell is lit. *)
Theorem idle_animation_moves_light (E : Env) (w : World) :
  idle_ring w ->
  (clock E (instant w) - idle_time (self w) <= idle_update (self w) ->
   idle_animation E w = Done tt (advance w))
  /\ (idle_update (self w) < clock E (instant w) - idle_time (self w) ->
      exists w',
        idle_animation E w = Done tt w'
        /\ idle_led (self w') = ((idle_led (self w) - 1) mod 10)%Z
        /\ pixels w' = one_lit (idle_led (self w'))
        /\ idle_time (self w') = clock E (S (instant w))
        /\ idle_update (self w') = idle_update (self w)
        /\ trace w'
           = trace w ++ [EvSetPixel (idle_led (self w)) black;
                         EvSetPixel (idle_led (self w')) idle_green]
        /\ idle_ring w').
Proof.
  intro Hring. exact (idle_animation_step E w Hring).
Qed.

Lemma idle_animation_moves_light_witness :
  exists w',
    idle_animation E_pause idle_world = Done tt w'
    /\ idle_led (self w') = 9%Z
    /\ pixels w' = one_lit 9.
Proof.
  assert (Hring : idle_ring idle_world).
  { split; [|right; reflexivity].
    unfold idle_world, fresh_pomodoro. cbn [idle_led self]. lia. }
  destruct (proj2 (idle_animation_moves_light E_pause idle_world Hring)
              ltac:(reflexivity))
    as (w' & Hrun & Hled & Hpx & _).
  exists w'. split; [exact Hrun|]. split; [exact Hled|].
  rewrite Hpx, Hled. reflexivity.
Defined.

(** ** Blinking *)

Lemma RGB_eqb_eq (c d : RGB) : RGB_eqb c d = true <-> c = d.
Proof.
  destruct c as [[r1 g1] b1], d as [[r2 g2] b2]. unfold RGB_eqb.
  rewrite !andb_true_iff, !Z.eqb_eq. split.
  - intros [[-> ->] ->]. reflexivity.
  - intro H. injection H as -> -> ->. auto.
Qed.

Lemma pixels_eqb_eq (xs ys : list RGB) : pixels_eqb xs ys = true <-> xs = ys.
Proof.
  revert ys. induction xs as [|x xs IH]; intros [|y ys]; cbn;
    try (split; [discriminate | intro H; discriminate H]).
  - split; reflexivity.
  - rewrite andb_true_iff, RGB_eqb_eq, IH. split.
    + intros [-> ->]. reflexivity.
    + intro H. injection H as -> ->. auto.
Qed.

Lemma pixels_eqb_neq (xs ys : list RGB) :
  pixels_eqb xs ys = false <-> xs <> ys.
Proof.
  rewrite <- not_true_iff_false, pixels_eqb_eq. reflexivity.
Qed.

(** What one [blink] does, when buffer and snapshot have ten cells. *)
Lemma blink_eq (w : World) :
  List.length (pixels w) = N_PIXELS ->
  List.length (led_state (self w)) = N_PIXELS ->
  blink w
  = Done tt
      (if pixels_eqb (pixels w) (led_state (self w))
       then mkWorld (instant w) (repeat black N_PIXELS)
              (trace w ++ [EvGetAll; EvSetAll (repeat black N_PIXELS)])
              (cpx w) (self w)
       else mkWorld (instant w) (led_state (self w))
              (trace w ++ [EvGetAll; EvSetAll (led_state (self w))])
              (cpx w) (self w)).
Proof.
  intros Hlen Hsnap.
  unfold blink, bind, pixels_get_all, get_world, pixels_set_all, emit,
    with_pixels.
  cbn [instant pixels trace cpx self].
  destruct (pixels_eqb _ _); cbn [instant pixels trace cpx self].
  - rewrite Hlen, repeat_length, Nat.eqb_refl.
    rewrite <- app_assoc. reflexivity.
  - rewrite Hsnap, Hlen, Nat.eqb_refl.
    rewrite <- app_assoc. reflexivity.
Qed.

(** X3.  [blink] toggles the ring between the snapshot [led_state] and
    darkness: a buffer equal to the snapshot goes dark, any other buffer
    becomes the snapshot.  Hence two blinks in a row, starting from the
    snapshot, show the snapshot again; [blink] never changes [self]. *)
Theorem blink_toggles (w : World) :
  List.length (pixels w) = N_PIXELS ->
  List.length (led_state (self w)) = N_PIXELS ->
  (exists w1,
     blink w = Done tt w1 /\ self w1 = self w
     /\ (pixels w = led_state (self w) -> pixels w1 = repeat black N_PIXELS)
     /\ (pixels w <> led_state (self w) -> pixels w1 = led_state (self w)))
  /\ (pixels w = led_state (self w) ->
      exists w2,
        (blink ;;; blink) w = Done tt w2
        /\ pixels w2 = pixels w /\ self w2 = self w).
Proof.
  intros Hlen Hsnap. split.
  - eexists. split; [apply blink_eq; assumption|].
    destruct (pixels_eqb (pixels w) (led_state (self w))) eqn:Heq; cbn.
    + apply pixels_eqb_eq in Heq. splits; auto. intro Hne; contradiction.
    + apply pixels_eqb_neq in Heq. splits; auto. intro He; contradiction.
  - intro Hsame.
    rewrite (bind_eq _ _ _ _ _ (blink_eq w Hlen Hsnap)).
    rewrite (proj2 (pixels_eqb_eq _ _) Hsame).
    rewrite blink_eq by (cbn; auto).
    cbn [pixels self].
    eexists. split; [reflexivity|].
    destruct (pixels_eqb (repeat black N_PIXELS) (led_state (self w))) eqn:Heq;
      cbn [pixels self].
    + apply pixels_eqb_eq in Heq. rewrite Hsame, <- Heq. auto.
    + auto.
Qed.

Lemma blink_toggles_witness :
  exists w2,
    (blink ;;; blink)
      (with_self (set_led_state (pixels running_world) (self running_world))
         running_world) = Done tt w2
    /\ pixels w2 = pixels running_world.
Proof.
  destruct (proj2 (blink_toggles
                     (with_self
                        (set_led_state (pixels running_world)
                           (self running_world)) running_world)
                     eq_refl eq_refl) eq_refl) as (w2 & Hrun & Hpx & _).
  exists w2. split; [exact Hrun | exact Hpx].
Defined.

(** ** What a pause writes *)

Section PauseWrites.

Variable E : Env.

Lemma blinks_only_refl (w : World) : blinks_only w w.
Proof.
  split; [reflexivity|]. exists []. rewrite app_nil_r.
  split; [reflexivity | constructor].
Qed.

Lemma blinks_only_trans (w1 w2 w3 : World) :
  blinks_only w1 w2 -> blinks_only w2 w3 -> blinks_only w1 w3.
Proof.
  intros (Hs1 & e1 & Ht1 & Hf1) (Hs2 & e2 & Ht2 & Hf2).
  split; [congruence|].
  exists (e1 ++ e2). rewrite Ht2, Ht1, app_assoc. split; [reflexivity|].
  apply Forall_app. split; [exact Hf1|]. rewrite Hs1 in Hf2. exact Hf2.
Qed.

Lemma blinks_only_advance (w : World) : blinks_only w (advance w).
Proof.
  split; [reflexivity|]. exists []. cbn. rewrite app_nil_r.
  split; [reflexivity | constructor].
Qed.

Lemma blinks_only_press_a (w w' : World) (b : bool) :
  single_press_a E w = Done b w' -> blinks_only w w'.
Proof.
  intro H. destruct (single_press_a_frame E w)
    as (b0 & w0 & H0 & _ & Ht & Hs & _).
  rewrite H in H0. injection H0 as <- <-.
  split; [exact Hs|]. exists []. rewrite app_nil_r.
  split; [exact Ht | constructor].
Qed.

Lemma blinks_only_press_b (w w' : World) (b : bool) :
  single_press_b E w = Done b w' -> blinks_only w w'.
Proof.
  intro H. destruct (single_press_b_frame E w)
    as (b0 & w0 & H0 & _ & Ht & Hs & _).
  rewrite H in H0. injection H0 as <- <-.
  split; [exact Hs|]. exists []. rewrite app_nil_r.
  split; [exact Ht | constructor].
Qed.

Lemma blinks_only_restore (w w' : World) :
  pixels_set_all (led_state (self w)) w = Done tt w' -> blinks_only w w'.
Proof.
  intro H. apply pixels_set_all_done in H. destruct H as [-> _].
  split; [reflexivity|]. exists [EvSetAll (led_state (self w))].
  split; [reflexivity|]. constructor; [|constructor].
  right; left; reflexivity.
Qed.

Lemma blinks_only_blink (w w' : World) :
  blink w = Done tt w' -> blinks_only w w'.
Proof.
  unfold blink. intro H. inv_bind H as cur w1 Hget.
  unfold pixels_get_all in Hget. injection Hget as <- <-.
  unfold bind, get_world in H. cbn [self emit] in H.
  destruct (pixels_eqb _ _).
  - apply pixels_set_all_done in H. destruct H as [-> _].
    split; [reflexivity|].
    exists [EvGetAll; EvSetAll (repeat black N_PIXELS)]. cbn [trace emit].
    split; [rewrite <- app_assoc; reflexivity|].
    constructor; [left; reflexivity|].
    constructor; [right; right; reflexivity | constructor].
  - apply pixels_set_all_done in H. destruct H as [-> _].
    split; [reflexivity|].
    exists [EvGetAll; EvSetAll (led_state (self w))]. cbn [trace emit].
    split; [rewrite <- app_assoc; reflexivity|].
    constructor; [left; reflexivity|].
    constructor; [right; left; reflexivity | constructor].
Qed.

Lemma blinks_only_pause_iter (pause_time : Q) (w w' : World) (r : Q + unit) :
  pause_iter E pause_time w = Done r w' -> blinks_only w w'.
Proof.
  unfold pause_iter. intro H.
  inv_bind H as t wt Ht. unfold monotonic in Ht. injection Ht as <- <-.
  inv_bind H as pt w0 Hblink.
  assert (Hb : blinks_only (advance w) w0).
  { destruct (Qgtb _ _).
    - inv_bind Hblink as u wk Hk. destruct u. apply blinks_only_blink in Hk.
      unfold monotonic in Hblink. injection Hblink as _ <-.
      eapply blinks_only_trans; [exact Hk | apply blinks_only_advance].
    - unfold ret in Hblink. injection Hblink as _ <-. apply blinks_only_refl. }
  clear Hblink.
  inv_bind H as pa wa Ha. apply blinks_only_press_a in Ha.
  inv_bind H as pressed wb Hbp.
  assert (Hpb : blinks_only wa wb).
  { destruct pa.
    - unfold ret in Hbp. injection Hbp as _ <-. apply blinks_only_refl.
    - eapply blinks_only_press_b. exact Hbp. }
  pose proof (blinks_only_trans _ _ _ (blinks_only_advance w)
                (blinks_only_trans _ _ _ Hb
                   (blinks_only_trans _ _ _ Ha Hpb))) as Hwb.
  destruct pressed.
  - unfold bind, get_world in H.
    destruct (pixels_set_all (led_state (self wb)) wb) as [[] w2 | |] eqn:Hset;
      try discriminate H.
    unfold ret in H. injection H as _ <-.
    eapply blinks_only_trans; [exact Hwb | apply blinks_only_restore; exact Hset].
  - unfold ret in H. injection H as _ <-. exact Hwb.
Qed.

Lemma blinks_only_pause_loop (fuel : nat) :
  forall pause_time w w',
    pause_loop E fuel pause_time w = Done tt w' -> blinks_only w w'.
Proof.
  induction fuel as [|fuel IH]; intros pause_time w w' H; [discriminate H|].
  cbn [pause_loop] in H. inv_bind H as r wi Hiter.
  apply blinks_only_pause_iter in Hiter.
  destruct r as [pause_time' | u].
  - eapply blinks_only_trans; [exact Hiter | eapply IH; exact H].
  - unfold ret in H. injection H as <-. exact Hiter.
Qed.

End PauseWrites.

(** X4.  Whatever happens during a pause, [pause] only reads the pixel
    buffer or writes it whole, and every write is either the buffer it
    found on entry or ten dark cells: it plays no tone, does not sleep,
    and never shows anything but the paused display and darkness. *)
Theorem pause_writes_snapshot_or_dark (E : Env) (fuel : nat) (w w' : World) :
  pause E fuel w = Done tt w' ->
  exists evs,
    trace w' = trace w ++ evs /\ Forall (pause_write (pixels w)) evs.
Proof.
  unfold pause. intro H.
  inv_bind H as t wt Ht. unfold monotonic in Ht. injection Ht as <- <-.
  inv_bind H as snap wg Hg. unfold pixels_get_all in Hg. injection Hg as <- <-.
  inv_bind H as u wm Hm. unfold modify in Hm. injection Hm as Hm. subst wm.
  apply blinks_only_pause_loop in H. destruct H as (_ & evs & Htr & Hall).
  cbn [trace self with_self emit advance led_state set_led_state pixels]
    in Htr, Hall.
  exists (EvGetAll :: evs). split.
  - rewrite Htr, <- app_assoc. reflexivity.
  - constructor; [left; reflexivity | exact Hall].
Qed.

Lemma pause_writes_snapshot_or_dark_witness :
  match pause E_pause 20 running_world with
  | Done _ w' =>
      exists evs,
        trace w' = [] ++ evs
        /\ Forall (pause_write (pixels running_world)) evs
  | _ => False
  end.
Proof.
  destruct (pause E_pause 20 running_world) as [[] w' | e w' |] eqn:H.
  - exact (pause_writes_snapshot_or_dark E_pause 20 running_world w' H).
  - vm_compute in H. discriminate H.
  - vm_compute in H. discriminate H.
Defined.

(** ** Ending a pause *)

Lemma bind_assoc {A B C} (m : M A) (f : A -> M B) (g : B -> M C)
  (w : World) :
  bind (bind m f) g w = bind m (fun x => bind (f x) g) w.
Proof. unfold bind. destruct (m w); reflexivity. Qed.

Lemma bind_ext {A B} (m : M A) (f g : A -> M B) (w : World) :
  (forall a w1, f a w1 = g a w1) -> bind m f w = bind m g w.
Proof. intro H. unfold bind. destruct (m w); auto. Qed.

Section PauseEnds.

Variable E : Env.

(** The blinking part of a round of the loop of [pause] always goes
    through and keeps everything but the buffer, the trace and the
    sample counter. *)
Lemma pause_blink_part (pause_time : Q) (w : World) :
  List.length (pixels w) = N_PIXELS ->
  List.length (led_state (self w)) = N_PIXELS ->
  exists pt' w0,
    (if Qgtb (clock E (instant w) - pause_time) (3 # 10)
     then blink ;;; monotonic E
     else ret pause_time) (advance w) = Done pt' w0
    /\ List.length (pixels w0) = N_PIXELS
    /\ cpx w0 = cpx w /\ self w0 = self w
    /\ (instant w < instant w0)%nat.
Proof.
  intros Hlen Hsnap.
  destruct (Qgtb _ _).
  - rewrite (bind_eq _ _ _ _ _ (blink_eq (advance w) Hlen Hsnap)).
    unfold monotonic. do 2 eexists. split; [reflexivity|].
    cbn [pixels self advance].
    destruct (pixels_eqb _ _); cbn [instant pixels cpx self advance];
      splits; try reflexivity; try lia; exact Hsnap.
  - unfold ret. do 2 eexists. split; [reflexivity|].
    cbn [instant pixels cpx self advance]. splits; auto.
Qed.

(** The polls of a round of the loop of [pause]: either a channel
    accepts, or both leave the board object alone, and then, if a
    button is held, a poll of it was turned down by the throttle. *)
Lemma pause_polls (w0 : World) :
  exists pressed wb,
    (a <- single_press_a E ;;
     if a then ret true else single_press_b E) w0 = Done pressed wb
    /\ pixels wb = pixels w0 /\ self wb = self w0
    /\ (instant w0 < instant wb)%nat
    /\ (pressed = false ->
        cpx wb = cpx w0
        /\ (held E ->
            exists m, (instant w0 <= m)%nat
              /\ (Qgtb (clock E m - last_button_a (cpx w0))
                       (sensitivity (cpx w0)) = false
                  \/ Qgtb (clock E m - last_button_b (cpx w0))
                          (sensitivity (cpx w0)) = false))).
Proof.
  unfold bind. rewrite single_press_a_eq.
  destruct (raw_a E (instant w0)) eqn:Hra; cbn [negb].
  - destruct (Qgtb (clock E (S (instant w0)) - last_button_a (cpx w0)) _)
      eqn:Hga.
    + unfold ret. do 2 eexists. split; [reflexivity|].
      cbn [instant pixels self]. splits; try reflexivity; try lia.
    + rewrite single_press_b_eq. cbn [instant cpx advance].
      destruct (raw_b E (S (S (instant w0)))) eqn:Hrb; cbn [negb].
      * destruct (Qgtb (clock E (S (S (S (instant w0))))
                        - last_button_b (cpx w0)) _) eqn:Hgb.
        -- do 2 eexists. split; [reflexivity|].
           cbn [instant pixels self advance]. splits; try reflexivity; try lia.
        -- do 2 eexists. split; [reflexivity|].
           cbn [instant pixels self cpx advance].
           splits; try reflexivity; try lia.
           intros _. split; [reflexivity|]. intros _.
           exists (S (instant w0)). split; [lia | left; exact Hga].
      * do 2 eexists. split; [reflexivity|].
        cbn [instant pixels self cpx advance].
        splits; try reflexivity; try lia.
        intros _. split; [reflexivity|]. intros _.
        exists (S (instant w0)). split; [lia | left; exact Hga].
  - rewrite single_press_b_eq. cbn [instant cpx advance].
    destruct (raw_b E (S (instant w0))) eqn:Hrb; cbn [negb].
    + destruct (Qgtb (clock E (S (S (instant w0)))
                      - last_button_b (cpx w0)) _) eqn:Hgb.
      * do 2 eexists. split; [reflexivity|].
        cbn [instant pixels self advance]. splits; try reflexivity; try lia.
      * do 2 eexists. split; [reflexivity|].
        cbn [instant pixels self cpx advance].
        splits; try reflexivity; try lia.
        intros _. split; [reflexivity|]. intros _.
        exists (S (S (instant w0))). split; [lia | right; exact Hgb].
    + do 2 eexists. split; [reflexivity|].
      cbn [instant pixels self cpx advance].
      splits; try reflexivity; try lia.
      intros _. split; [reflexivity|]. intros [Ha | Hb].
      * rewrite Ha in Hra. discriminate Hra.
      * rewrite Hb in Hrb. discriminate Hrb.
Qed.

Lemma pause_iter_split (pause_time : Q) (w : World) :
  pause_iter E pause_time w
  = bind (if Qgtb (clock E (instant w) - pause_time) (3 # 10)
          then blink ;;; monotonic E
          else ret pause_time)
      (fun pt' =>
         bind (a <- single_press_a E ;;
               if a then ret true else single_press_b E)
           (fun pressed : bool =>
              if pressed then
                w1 <- get_world ;;
                pixels_set_all (led_state (self w1)) ;;;
                ret (inr tt)
              else ret (inl pt')))
      (advance w).
Proof.
  unfold pause_iter.
  rewrite (bind_eq _ _ _ _ _
             (eq_refl : monotonic E w
                        = Done (clock E (instant w)) (advance w))).
  cbv beta. apply bind_ext. intros pt' w0. symmetry. apply bind_assoc.
Qed.

(** A round of the loop of [pause] always goes through: it returns, or
    it goes round again with the board object as it was. *)
Lemma pause_iter_progress (pause_time : Q) (w : World) :
  List.length (pixels w) = N_PIXELS ->
  List.length (led_state (self w)) = N_PIXELS ->
  exists r w1,
    pause_iter E pause_time w = Done r w1
    /\ ((exists u, r = inr u)
        \/ (exists pt',
              r = inl pt'
              /\ List.length (pixels w1) = N_PIXELS
              /\ self w1 = self w /\ cpx w1 = cpx w
              /\ (instant w < instant w1)%nat
              /\ (held E ->
                  exists m, (instant w <= m)%nat
                    /\ (Qgtb (clock E m - last_button_a (cpx w))
                             (sensitivity (cpx w)) = false
                        \/ Qgtb (clock E m - last_button_b (cpx w))
                                (sensitivity (cpx w)) = false)))).
Proof.
  intros Hlen Hsnap. rewrite pause_iter_split.
  destruct (pause_blink_part pause_time w Hlen Hsnap)
    as (pt' & w0 & Hblink & Hlen0 & Hc0 & Hs0 & Hi0).
  rewrite (bind_eq _ _ _ _ _ Hblink).
  destruct (pause_polls w0) as (pressed & wb & Hpoll & Hpx & Hs & Hi & Hrej).
  rewrite (bind_eq _ _ _ _ _ Hpoll).
  destruct pressed.
  - unfold bind at 1. unfold get_world.
    rewrite (bind_eq _ _ _ _ _
               (pixels_set_all_ok (led_state (self wb)) wb
                  ltac:(rewrite Hs, Hs0, Hpx, Hlen0; exact Hsnap))).
    unfold ret. do 2 eexists. split; [reflexivity|]. left. exists tt.
    reflexivity.
  - unfold ret. do 2 eexists. split; [reflexivity|]. right.
    destruct (Hrej eq_refl) as [Hc Hev].
    exists pt'. splits.
    + reflexivity.
    + rewrite Hpx. exact Hlen0.
    + rewrite Hs. exact Hs0.
    + rewrite Hc. exact Hc0.
    + lia.
    + intro Hheld. destruct (Hev Hheld) as (m & Hm & Hfalse).
      exists m. split; [lia|]. rewrite Hc0 in Hfalse. exact Hfalse.
Qed.

Lemma pause_loop_ends (d : nat) :
  forall pause_time w,
    List.length (pixels w) = N_PIXELS ->
    List.length (led_state (self w)) = N_PIXELS ->
    held E ->
    (forall m, (instant w + d <= m)%nat ->
       Qgtb (clock E m - last_button_a (cpx w)) (sensitivity (cpx w)) = true
       /\ Qgtb (clock E m - last_button_b (cpx w)) (sensitivity (cpx w))
          = true) ->
    exists fuel w', pause_loop E fuel pause_time w = Done tt w'.
Proof.
  induction d as [|d IH]; intros pause_time w Hlen Hsnap Hheld Hev;
    destruct (pause_iter_progress pause_time w Hlen Hsnap)
      as (r & w1 & Hit & [[u ->] | (pt' & -> & Hlen1 & Hs1 & Hc1 & Hi1 & Hrej)]).
  - exists 1%nat, w1. cbn [pause_loop].
    rewrite (bind_eq _ _ _ _ _ Hit). destruct u. reflexivity.
  - destruct (Hrej Hheld) as (m & Hm & Hfalse).
    destruct (Hev m ltac:(lia)) as [Ha Hb].
    destruct Hfalse as [Hf | Hf]; [rewrite Ha in Hf | rewrite Hb in Hf];
      discriminate Hf.
  - exists 1%nat, w1. cbn [pause_loop].
    rewrite (bind_eq _ _ _ _ _ Hit). destruct u. reflexivity.
  - destruct (IH pt' w1) as (fuel & w' & Hrun).
    + exact Hlen1.
    + rewrite Hs1. exact Hsnap.
    + exact Hheld.
    + intros m Hm. rewrite Hc1. apply Hev. lia.
    + exists (S fuel), w'. cbn [pause_loop].
      rewrite (bind_eq _ _ _ _ _ Hit). exact Hrun.
Qed.

End PauseEnds.

Lemma throttle_passes (E : Env) (last sens : Q) :
  monotone E -> unbounded E ->
  exists N, forall m, (N <= m)%nat -> Qgtb (clock E m - last) sens = true.
Proof.
  intros Hmono Hunb.
  destruct (clock_eventually E Hmono Hunb (last + sens)) as [N HN].
  exists N. intros m Hm. apply Qgtb_true. specialize (HN m Hm). lra.
Qed.

(** X5.  A pause can always be ended.  If one of the two buttons is held
    down, on a clock that never goes back and passes every bound,
    [pause] returns (once the throttle lets the press through), and the
    ring then shows what it showed on entry. *)
Theorem held_button_ends_pause (E : Env) (w : World) :
  monotone E -> unbounded E -> held E ->
  List.length (pixels w) = N_PIXELS ->
  exists fuel w', pause E fuel w = Done tt w' /\ pixels w' = pixels w.
Proof.
  intros Hmono Hunb Hheld Hlen.
  destruct (throttle_passes E (last_button_a (cpx w)) (sensitivity (cpx w))
              Hmono Hunb) as [Na HNa].
  destruct (throttle_passes E (last_button_b (cpx w)) (sensitivity (cpx w))
              Hmono Hunb) as [Nb HNb].
  set (wm := with_self (set_led_state (pixels w) (self w))
               (emit EvGetAll (advance w))).
  destruct (pause_loop_ends E (Na + Nb) (clock E (instant w)) wm)
    as (fuel & w' & Hrun).
  - exact Hlen.
  - exact Hlen.
  - exact Hheld.
  - intros m Hm. cbn [cpx wm with_self emit advance].
    split; [apply HNa | apply HNb]; lia.
  - assert (Hpause : pause E fuel w = Done tt w').
    { unfold pause, bind, monotonic, pixels_get_all, modify.
      cbn [pixels]. exact Hrun. }
    exists fuel, w'. split; [exact Hpause|].
    apply pause_done in Hpause. apply Hpause.
Qed.

Lemma E_hold_a_monotone : monotone E_hold_a.
Proof.
  intro n. unfold E_hold_a, clock, Qle. cbn [Qnum Qden]. lia.
Qed.

Lemma E_hold_a_unbounded : unbounded E_hold_a.
Proof.
  intros [p q]. exists (Z.to_nat (8 * Z.abs p + 1)).
  unfold E_hold_a, clock, Qlt. cbn [Qnum Qden].
  rewrite Z2Nat.id by lia.
  pose proof (Pos2Z.is_pos q). nia.
Qed.

Lemma held_button_ends_pause_witness :
  exists fuel w',
    pause E_hold_a fuel running_world = Done tt w'
    /\ pixels w' = pixels running_world.
Proof.
  apply (held_button_ends_pause E_hold_a running_world
           E_hold_a_monotone E_hold_a_unbounded).
  - left. intro n. reflexivity.
  - reflexivity.
Defined.

(** ** Start-up and the first press *)

(** X6.  [Express.__init__] stamps both channels with the clock at
    construction, so the throttle also counts from there: with the
    button down, the first poll of a channel is accepted exactly when
    its clock reading is more than 0.25 s after the reading taken for
    that channel at construction.  A press in the first quarter of a
    second after start-up is dropped. *)
Theorem first_press_waits_for_window (E : Env) (w w1 : World) :
  Express_init E w = Done tt w1 ->
  (raw_a E (instant w1) = true ->
   ((exists w2, single_press_a E w1 = Done true w2)
    <-> 25 # 100 < clock E (S (instant w1)) - clock E (instant w)))
  /\ (raw_b E (instant w1) = true ->
      ((exists w2, single_press_b E w1 = Done true w2)
       <-> 25 # 100 < clock E (S (instant w1)) - clock E (S (instant w)))).
Proof.
  intro H. unfold Express_init, bind, monotonic, modify in H. cbn in H.
  injection H as <-.
  rewrite single_press_a_eq, single_press_b_eq.
  unfold with_cpx, advance.
  cbn [instant pixels trace cpx self last_button_a last_button_b sensitivity].
  split.
  - intro Hraw. rewrite Hraw. cbn [negb].
    destruct (Qgtb _ _) eqn:Hg.
    + apply Qgtb_true in Hg. split; [intros _; exact Hg |].
      intros _. eexists. reflexivity.
    + apply Qgtb_false in Hg. split.
      * intros [w2 Hc]. discriminate Hc.
      * intro Hlt. exfalso. lra.
  - intro Hraw. rewrite Hraw. cbn [negb].
    destruct (Qgtb _ _) eqn:Hg.
    + apply Qgtb_true in Hg. split; [intros _; exact Hg |].
      intros _. eexists. reflexivity.
    + apply Qgtb_false in Hg. split.
      * intros [w2 Hc]. discriminate Hc.
      * intro Hlt. exfalso. lra.
Qed.

Lemma first_press_waits_for_window_witness :
  match Express_init E_held (fresh_world true) with
  | Done _ w1 =>
      (exists w2, single_press_a E_held w1 = Done true w2)
      <-> 25 # 100 < clock E_held 3 - clock E_held 0
  | _ => False
  end.
Proof.
  destruct (Express_init E_held (fresh_world true)) as [[] w1 | e w1 |] eqn:H.
  - pose proof (proj1 (first_press_waits_for_window E_held _ w1 H)) as Hw.
    unfold Express_init, bind, monotonic, modify in H. cbn in H.
    injection H as <-. exact (Hw eq_refl).
  - vm_compute in H. discriminate H.
  - vm_compute in H. discriminate H.
Defined.

(** ** A schedule with an unknown period *)

Section UnknownPeriod.

Variable E : Env.

Lemma collect_app {A B} (body : A -> M B) (xs ys : list A) :
  forall w,
    collect (xs ++ ys) body w
    = (rs <- collect xs body ;;
       rs' <- collect ys body ;;
       ret (rs ++ rs')) w.
Proof.
  induction xs as [|x xs IH]; intro w.
  - cbn [app collect]. unfold bind, ret.
    destruct (collect ys body w); reflexivity.
  - cbn [app collect]. rewrite bind_assoc. apply bind_ext. intros r w1.
    unfold bind. rewrite IH. unfold bind, ret.
    destruct (collect xs body w1) as [rs w2 | e w2 |]; try reflexivity.
    destruct (collect ys body w2); reflexivity.
Qed.

Lemma collect_config (fuel : nat) (periods : list string) :
  forall w exits w',
    collect periods (run_period E fuel) w = Done exits w' ->
    same_config (self w) (self w').
Proof.
  induction periods as [|period periods IH]; intros w exits w' H.
  - cbn in H. injection H as _ <-. apply same_config_refl.
  - cbn [collect] in H. inv_bind H as x w1 Hrun.
    inv_bind H as rest w2 Hrest. unfold ret in H. injection H as _ <-.
    apply run_period_trace in Hrun. destruct Hrun as [Hcfg _].
    eapply same_config_trans; [exact Hcfg | eapply IH; exact Hrest].
Qed.

Lemma run_period_unknown (fuel : nat) (period : string) (w : World) :
  lookup period (intervals (self w)) = None ->
  run_period E fuel period w = Raised KeyError w.
Proof.
  intro H. unfold run_period, bind, intervals_get. rewrite H. reflexivity.
Qed.

End UnknownPeriod.

(** X7.  A period of the schedule that [intervals] does not have is only
    found when the session gets to it: [work_session] first runs every
    interval before it, then raises [KeyError].  The store at that point
    is the one those intervals left, and the intervals after the unknown
    period are not run. *)
Theorem unknown_period_raises_midway (E : Env) (fuel : nat) (w w1 : World)
  (before after : list string) (unknown : string) (exits : list exit_tag) :
  schedule (self w) = before ++ unknown :: after ->
  lookup unknown (intervals (self w)) = None ->
  collect before (run_period E fuel) w = Done exits w1 ->
  work_session E fuel w = Raised KeyError w1
  /\ List.length exits = List.length before
  /\ exists segs,
       trace w1 = trace w ++ concat segs
       /\ Forall2 (segment_of (self w)) before segs.
Proof.
  intros Hsch Hnone Hrun. splits.
  - rewrite work_session_exits.
    unfold session_exits, get_world. unfold bind at 1 2. rewrite Hsch.
    rewrite collect_app. unfold bind at 1. rewrite Hrun.
    cbn [collect]. unfold bind at 1 2.
    rewrite run_period_unknown; [reflexivity|].
    rewrite (same_config_intervals _ _ (collect_config E fuel _ _ _ _ Hrun)).
    exact Hnone.
  - eapply collect_length. exact Hrun.
  - exact (collect_segments E fuel (self w) before w exits w1
             (same_config_refl _) Hrun).
Qed.

Lemma unknown_period_raises_midway_witness :
  exists w1,
    work_session E_cancel 5 misconfigured_world = Raised KeyError w1
    /\ trace w1 = EvSetAll (repeat (0, 0, 5)%Z N_PIXELS) :: abort_animation.
Proof.
  destruct (collect ["w"%string] (run_period E_cancel 5) misconfigured_world)
    as [exits w1 | e w1 |] eqn:Hrun.
  - exists w1. split.
    + exact (proj1 (unknown_period_raises_midway E_cancel 5
                      misconfigured_world w1 ["w"%string] ["sb"%string]
                      "x"%string exits eq_refl eq_refl Hrun)).
    + vm_compute in Hrun. injection Hrun as _ <-. reflexivity.
  - vm_compute in Hrun. discriminate Hrun.
  - vm_compute in Hrun. discriminate Hrun.
Defined.

(** ** Whole runs of [interval], whatever the buttons do *)

Section Runs.

Variable E : Env.

Lemma filter_single_pause (evs : list Event) :
  forallb is_pause evs = true -> filter is_single evs = [].
Proof.
  induction evs as [|e evs IH]; [reflexivity|].
  cbn [forallb filter]. intro H. apply andb_true_iff in H.
  destruct H as [He Hevs]. destruct e; cbn in He |- *; try discriminate He;
    apply IH; exact Hevs.
Qed.

Lemma pixel_index_nonneg (len : nat) (c : Z) (k : nat) :
  pixel_index len c = Some k -> (0 <= c)%Z -> k = Z.to_nat c.
Proof.
  unfold pixel_index. intros H Hc.
  destruct ((0 <=? c)%Z && (c <? Z.of_nat len)%Z)%bool.
  - injection H as <-. reflexivity.
  - destruct ((- Z.of_nat len <=? c)%Z && (c <? 0)%Z)%bool eqn:Hneg;
      [|discriminate H].
    apply andb_true_iff in Hneg. destruct Hneg as [_ Hlt].
    apply Z.ltb_lt in Hlt. lia.
Qed.

(** The pause check keeps the cell and the buffer and can only move
    [led_start] forward. *)
Lemma interval_pause_effect (pfuel : nat) (s s' : locals) (w w' : World) :
  interval_pause E pfuel s w = Done s' w' ->
  led_current s' = led_current s
  /\ pixels w' = pixels w
  /\ stop_led (self w') = stop_led (self w)
  /\ (instant w < instant w')%nat
  /\ (exists evs, trace w' = trace w ++ evs /\ filter is_single evs = [])
  /\ exists delta,
       (monotone E -> 0 <= delta)
       /\ led_start s' == led_start s + delta.
Proof.
  intro H. pose proof H as Htr. apply interval_pause_trace in Htr.
  destruct Htr as (Hstop & P & HP & Hall & _).
  apply interval_pause_done in H.
  destruct (single_press_a_frame E w) as (b & w0 & H0 & Hpx & _ & _ & _ & Hi & _).
  destruct H as [(Ha & ->) | (w1 & w2 & Ha & Hp & -> & ->)].
  - rewrite Ha in H0. injection H0 as _ <-. splits.
    + reflexivity.
    + exact Hpx.
    + exact Hstop.
    + lia.
    + exists P. split; [exact HP | apply filter_single_pause; exact Hall].
    + exists 0. split; [intros _; apply Qle_refl | ring].
  - rewrite Ha in H0. injection H0 as _ <-.
    apply pause_done in Hp. destruct Hp as (Hpx2 & _ & _ & Hi2 & _).
    cbn [instant pixels advance led_start led_current] in *. splits.
    + reflexivity.
    + rewrite Hpx2. exact Hpx.
    + exact Hstop.
    + lia.
    + exists P. split; [exact HP | apply filter_single_pause; exact Hall].
    + exists (clock E (instant w2) - clock E (instant w1)). split.
      * intro Hmono.
        pose proof (clock_le E Hmono (instant w1) (instant w2) ltac:(lia)).
        lra.
      * reflexivity.
Qed.

Lemma interval_cancel_next (s s' : locals) (w w' : World) :
  interval_cancel E s w = Done (Next s') w' ->
  s' = s /\ pixels w' = pixels w /\ trace w' = trace w
  /\ self w' = self w /\ (instant w < instant w')%nat.
Proof.
  intro H. apply interval_cancel_done in H.
  destruct H as [(Hb & Hr) | (w1 & _ & _ & Hr)]; [|discriminate Hr].
  injection Hr as ->.
  destruct (single_press_b_frame E w) as (b & w0 & H0 & Hpx & Ht & Hs & _ & Hi & _).
  rewrite Hb in H0. injection H0 as _ <-.
  splits; auto. lia.
Qed.

(** A round that completes. *)
Lemma interval_iter_completed (pfuel : nat) (led_duration : Q) (s : locals)
  (w w' : World) :
  interval_iter E pfuel led_duration s w = Done (Return Completed) w' ->
  exists k,
    Qgtb (clock E (instant w) - led_start s) led_duration = true
    /\ pixel_index (List.length (pixels w)) (led_current s) = Some k
    /\ led_current s = stop_led (self w)
    /\ w' = mkWorld (2 + instant w) (update_nth k black (pixels w))
              (trace w ++ off_event (led_current s)
                 :: tone_if (raw_switch E (S (instant w))))
              (cpx w) (self w).
Proof.
  unfold interval_iter. intro H. inv_bind H as r1 w1 Ht.
  destruct r1 as [x | s1].
  - unfold ret in H. injection H as -> <-.
    apply interval_tick_done in Ht.
    destruct Ht as [(_ & Hr & _) | [(k & _ & _ & _ & Hr & _)
                                    | (k & Hg & Hk & Heq & _ & ->)]];
      try discriminate Hr.
    exists k. auto.
  - inv_bind H as s2 w2 Hp. apply interval_cancel_trace in H.
    destruct H as (_ & C & _ & _ & _ & Hx & _).
    specialize (Hx Completed eq_refl). discriminate Hx.
Qed.

(** A round after which the loop goes on: either no cell was turned
    off, or the cell [led_current], which is not the stop cell, was. *)
Lemma interval_iter_next (pfuel : nat) (led_duration : Q) (s s' : locals)
  (w w' : World) :
  interval_iter E pfuel led_duration s w = Done (Next s') w' ->
  stop_led (self w') = stop_led (self w)
  /\ (instant w < instant w')%nat
  /\ exists evs delta,
       trace w' = trace w ++ evs
       /\ (monotone E -> 0 <= delta)
       /\ ((Qgtb (clock E (instant w) - led_start s) led_duration = false
            /\ led_current s' = led_current s
            /\ pixels w' = pixels w
            /\ led_start s' == led_start s + delta
            /\ filter is_single evs = [])
           \/ (exists k,
                 Qgtb (clock E (instant w) - led_start s) led_duration = true
                 /\ led_current s <> stop_led (self w)
                 /\ pixel_index (List.length (pixels w)) (led_current s)
                    = Some k
                 /\ led_current s' = ((led_current s - 1) mod 10)%Z
                 /\ pixels w' = update_nth k black (pixels w)
                 /\ led_start s' == clock E (S (instant w)) + delta
                 /\ filter is_single evs = [off_event (led_current s)])).
Proof.
  unfold interval_iter. intro H. inv_bind H as r1 w1 Ht.
  destruct r1 as [x | s1]; [unfold ret in H; discriminate H|].
  inv_bind H as s2 w2 Hp.
  apply interval_cancel_next in H.
  destruct H as (-> & Hpx3 & Htr3 & Hs3 & Hi3).
  apply interval_pause_effect in Hp.
  destruct Hp as (Hc2 & Hpx2 & Hstop2 & Hi2 & (P & HP & HfP) & delta & Hd & Hls).
  apply interval_tick_done in Ht.
  destruct Ht as [(Hg & Hr & ->) | [(k & Hg & Hk & Hne & Hr & ->)
                                    | (k & _ & _ & _ & Hr & _)]];
    try discriminate Hr; injection Hr as Hr; subst s1.
  - cbn [instant pixels trace self advance] in *. splits.
    + rewrite Hs3. exact Hstop2.
    + lia.
    + exists P, delta. splits.
      * rewrite Htr3. exact HP.
      * exact Hd.
      * left. splits; auto. rewrite Hpx3. exact Hpx2.
  - cbn [instant pixels trace self led_start led_current] in *. splits.
    + rewrite Hs3. exact Hstop2.
    + lia.
    + exists (off_event (led_current s) :: P), delta. splits.
      * rewrite Htr3, HP, <- app_assoc. reflexivity.
      * exact Hd.
      * right. exists k. splits; auto.
        -- rewrite Hpx3. exact Hpx2.
        -- cbn [filter is_single off_event]. rewrite HfP. reflexivity.
Qed.

End Runs.

Section CompletedRuns.

Variable E : Env.

Lemma reaches_at_stop (stop c : Z) (n : nat) :
  reaches stop c n = true -> c = stop -> n = 0%nat.
Proof.
  intros H Hc. destruct n as [|n]; [reflexivity|].
  cbn [reaches] in H. apply andb_true_iff in H. destruct H as [H _].
  apply negb_true_iff, Z.eqb_neq in H. contradiction.
Qed.

Lemma reaches_before_stop (stop c : Z) (n : nat) :
  reaches stop c n = true -> c <> stop ->
  exists n', n = S n' /\ reaches stop ((c - 1) mod 10)%Z n' = true.
Proof.
  intros H Hc. destruct n as [|n].
  - cbn [reaches] in H. apply Z.eqb_eq in H. contradiction.
  - exists n. cbn [reaches] in H. apply andb_true_iff in H.
    destruct H as [_ H]. split; [reflexivity | exact H].
Qed.

Lemma filter_single_tone (b : bool) : filter is_single (tone_if b) = [].
Proof. destruct b; reflexivity. Qed.

(** Whatever the buttons do, a loop that completes has turned off, once
    each and in order, the cells from [led_current] down to the stop
    cell, and it has taken more than one segment per cell. *)
Lemma interval_loop_completed (pfuel : nat) (led_duration : Q) (fuel : nat) :
  forall n s w w',
    interval_loop E pfuel fuel led_duration s w = Done Completed w' ->
    reaches (stop_led (self w)) (led_current s) n = true ->
    (0 <= led_current s)%Z ->
    pixels w'
    = fold_left turn_off (countdown (led_current s) (S n)) (pixels w)
    /\ (exists evs,
          trace w' = trace w ++ evs
          /\ filter is_single evs
             = map off_event (countdown (led_current s) (S n)))
    /\ (monotone E ->
        segments_time n led_duration
        < clock E (instant w' - 2) - led_start s)
    /\ (instant w + 2 <= instant w')%nat.
Proof.
  induction fuel as [|fuel IH]; intros n s w w' H Hreach Hc; [discriminate H|].
  cbn [interval_loop] in H. inv_bind H as r w1 Hit.
  destruct r as [x | s1].
  - unfold ret in H. injection H as -> <-.
    apply interval_iter_completed in Hit.
    destruct Hit as (k & Hg & Hk & Heq & ->).
    pose proof (reaches_at_stop _ _ _ Hreach Heq) as ->.
    apply pixel_index_nonneg in Hk; [|exact Hc]. subst k.
    cbn [instant pixels trace countdown fold_left map]. splits.
    + reflexivity.
    + eexists. split; [reflexivity|].
      cbn [filter is_single off_event]. rewrite filter_single_tone.
      reflexivity.
    + intros _. apply Qgtb_true in Hg.
      replace (2 + instant w - 2)%nat with (instant w) by lia.
      exact Hg.
    + lia.
  - apply interval_iter_next in Hit.
    destruct Hit as (Hstop & Hi & evs & delta & Htr & Hd & Hcase).
    destruct Hcase as [(Hg & Hc1 & Hpx & Hls & Hf)
                      | (k & Hg & Hne & Hk & Hc1 & Hpx & Hls & Hf)].
    + destruct (IH n s1 w1 w' H) as (Hpx' & (evs' & Htr' & Hf') & Htime & Hi').
      { rewrite Hstop, Hc1. exact Hreach. }
      { rewrite Hc1. exact Hc. }
      rewrite Hc1 in *. splits.
      * rewrite Hpx', Hpx. reflexivity.
      * exists (evs ++ evs'). split.
        -- rewrite Htr', Htr, <- app_assoc. reflexivity.
        -- rewrite filter_app, Hf, Hf'. reflexivity.
      * intro Hmono. specialize (Htime Hmono). specialize (Hd Hmono).
        rewrite Hls in Htime. lra.
      * lia.
    + destruct (reaches_before_stop _ _ _ Hreach Hne) as (n' & -> & Hreach').
      apply pixel_index_nonneg in Hk; [|exact Hc]. subst k.
      destruct (IH n' s1 w1 w' H) as (Hpx' & (evs' & Htr' & Hf') & Htime & Hi').
      { rewrite Hstop, Hc1. exact Hreach'. }
      { rewrite Hc1. apply Z.mod_pos_bound. lia. }
      rewrite Hc1 in *. splits.
      * rewrite Hpx', Hpx. reflexivity.
      * exists (evs ++ evs'). split.
        -- rewrite Htr', Htr, <- app_assoc. reflexivity.
        -- rewrite filter_app, Hf, Hf'. reflexivity.
      * intro Hmono. specialize (Htime Hmono). specialize (Hd Hmono).
        apply Qgtb_true in Hg.
        pose proof (Hmono (instant w)) as Hstep.
        rewrite Hls in Htime. cbn [segments_time]. lra.
      * lia.
Qed.

(** The same for a whole call. *)
Lemma interval_completed (fuel : nat) (duration : Q) (color : RGB) (n : nat)
  (w w' : World) :
  interval E fuel duration color w = Done Completed w' ->
  reaches (stop_led (self w)) (start_led (self w)) n = true ->
  (0 <= start_led (self w))%Z ->
  pixels w'
  = fold_left turn_off (countdown (start_led (self w)) (S n))
      (repeat color N_PIXELS)
  /\ (exists evs,
        trace w' = trace w ++ EvSetAll (repeat color N_PIXELS) :: evs
        /\ filter is_single evs
           = map off_event (countdown (start_led (self w)) (S n)))
  /\ (monotone E ->
      segments_time n (duration / 10)
      < clock E (instant w' - 2) - clock E (instant w)).
Proof.
  unfold interval. intros H Hreach Hc.
  inv_bind H as u w1 Hset. destruct u. apply pixels_set_all_done in Hset.
  destruct Hset as [-> _].
  inv_bind H as t w2 Ht. unfold monotonic in Ht. injection Ht as <- <-.
  unfold bind, get_world in H. cbn [self advance instant] in H.
  apply (interval_loop_completed _ _ _ n) in H; [|exact Hreach|exact Hc].
  cbn [pixels trace led_current led_start advance] in H.
  destruct H as (Hpx & (evs & Htr & Hf) & Htime & _). splits.
  - exact Hpx.
  - exists evs. split; [|exact Hf]. rewrite Htr, <- app_assoc. reflexivity.
  - exact Htime.
Qed.

Lemma ten_segments (duration : Q) :
  segments_time 9 (duration / 10) == duration.
Proof. cbn [segments_time]. field. Qed.

End CompletedRuns.

Lemma interval_completed_late (E : Env) (fuel : nat) (duration : Q)
  (color : RGB) (usb_down : bool) (w w' : World) :
  monotone E ->
  start_led (self w) = (if usb_down then 4 else 9)%Z ->
  stop_led (self w) = (if usb_down then 5 else 0)%Z ->
  interval E fuel duration color w = Done Completed w' ->
  duration < clock E (instant w' - 2) - clock E (instant w).
Proof.
  intros Hmono Hstart Hstop H.
  apply (interval_completed E _ _ _ 9) in H.
  - destruct H as (_ & _ & Htime). specialize (Htime Hmono).
    rewrite ten_segments in Htime. exact Htime.
  - rewrite Hstart, Hstop. destruct usb_down; reflexivity.
  - rewrite Hstart. destruct usb_down; lia.
Qed.

(** X8.  An interval never completes early.  Whatever the buttons do,
    pauses included, when [interval] returns through the completion exit
    on a board of either orientation and a clock that never goes back,
    the clock reading on which the last cell went dark is more than
    [duration] seconds after the reading taken when the interval
    began. *)
Theorem interval_never_early (E : Env) (fuel : nat) (duration : Q)
  (color : RGB) (usb_down : bool) (w w' : World) :
  monotone E ->
  start_led (self w) = (if usb_down then 4 else 9)%Z ->
  stop_led (self w) = (if usb_down then 5 else 0)%Z ->
  interval E fuel duration color w = Done Completed w' ->
  duration < clock E (instant w' - 2) - clock E (instant w).
Proof.
  intros Hmono Hstart Hstop H.
  exact (interval_completed_late E fuel duration color usb_down w w'
           Hmono Hstart Hstop H).
Qed.

Lemma interval_never_early_witness :
  match interval E_idle 200 10 (0, 0, 5)%Z (fresh_world true) with
  | Done Completed w' =>
      10 < clock E_idle (instant w' - 2) - clock E_idle 0
  | _ => False
  end.
Proof.
  destruct (interval E_idle 200 10 (0, 0, 5)%Z (fresh_world true))
    as [[|] w' | e w' |] eqn:H.
  - exact (interval_never_early E_idle 200 10 (0, 0, 5)%Z true
             (fresh_world true) w' E_idle_monotone eq_refl eq_refl H).
  - vm_compute in H. discriminate H.
  - vm_compute in H. discriminate H.
  - vm_compute in H. discriminate H.
Defined.

(** X9.  Whenever [interval] returns, on a board of either orientation,
    the ring is dark: after a cancel because the abort animation ends
    dark, after a completion because every one of the ten cells was
    turned off.  A completed interval has written to single cells
    exactly ten times, one turn-off per cell in countdown order, however
    many pauses came in between. *)
Theorem interval_ends_dark (E : Env) (fuel : nat) (duration : Q)
  (color : RGB) (usb_down : bool) (w w' : World) (x : exit_tag) :
  start_led (self w) = (if usb_down then 4 else 9)%Z ->
  stop_led (self w) = (if usb_down then 5 else 0)%Z ->
  interval E fuel duration color w = Done x w' ->
  pixels w' = repeat black N_PIXELS
  /\ (x = Completed ->
      exists evs,
        trace w' = trace w ++ EvSetAll (repeat color N_PIXELS) :: evs
        /\ filter is_single evs
           = map off_event
               (countdown (if usb_down then 4 else 9)%Z 10)).
Proof.
  intros Hstart Hstop H. destruct x.
  - apply (interval_completed E _ _ _ 9) in H.
    + destruct H as (Hpx & Hev & _). rewrite Hstart in Hpx, Hev. split.
      * rewrite Hpx. destruct usb_down; reflexivity.
      * intros _. exact Hev.
    + rewrite Hstart, Hstop. destruct usb_down; reflexivity.
    + rewrite Hstart. destruct usb_down; lia.
  - split; [|intro Hc; discriminate Hc].
    apply interval_cancelled in H.
    destruct H as (_ & _ & _ & _ & w0 & w1 & _ & Hflash).
    apply flash_2_done in Hflash. destruct Hflash as [_ ->]. reflexivity.
Qed.

Lemma interval_ends_dark_witness :
  match interval E_cancel 5 10 (0, 0, 5)%Z (fresh_world false) with
  | Done _ w' => pixels w' = repeat black N_PIXELS
  | _ => False
  end.
Proof.
  destruct (interval E_cancel 5 10 (0, 0, 5)%Z (fresh_world false))
    as [x w' | e w' |] eqn:H.
  - exact (proj1 (interval_ends_dark E_cancel 5 10 (0, 0, 5)%Z false
                    (fresh_world false) w' x eq_refl eq_refl H)).
  - vm_compute in H. discriminate H.
  - vm_compute in H. discriminate H.
Defined.

(** ** Setting durations *)




(** X11.  The minutes given to a setter are a lower bound on the real
    length of the intervals that use it.  After an accepted assignment
    of [d] minutes, an interval of a period that [intervals] maps to
    that attribute, if it completes on a board of either orientation and
    a clock that never goes back, has lasted more than [60 * d]
    seconds, whatever the buttons did. *)
Theorem configured_minutes_are_a_lower_bound (E : Env) (fuel : nat) (d : Q)
  (period : string) (color : RGB) (usb_down : bool) (w w' : World) :
  monotone E -> 0 < d ->
  start_led (self w) = (if usb_down then 4 else 9)%Z ->
  stop_led (self w) = (if usb_down then 5 else 0)%Z ->
  (lookup period (intervals (self w)) = Some (_work_duration_, color) ->
   (work_duration_setter d ;;; run_period E fuel period) w
   = Done Completed w' ->
   60 * d < clock E (instant w' - 2) - clock E (instant w))
  /\ (lookup period (intervals (self w)) = Some (_short_break_, color) ->
      (short_break_setter d ;;; run_period E fuel period) w
      = Done Completed w' ->
      60 * d < clock E (instant w' - 2) - clock E (instant w))
  /\ (lookup period (intervals (self w)) = Some (_long_break_, color) ->
      (long_break_setter d ;;; run_period E fuel period) w
      = Done Completed w' ->
      60 * d < clock E (instant w' - 2) - clock E (instant w)).
Proof.
  intros Hmono Hd Hstart Hstop.
  destruct (setter_cases d) as [[Hn _] | [_ Hb]]; [exfalso; lra|].
  splits; intros Hl H;
    unfold bind at 1 in H;
    unfold work_duration_setter, short_break_setter, long_break_setter,
      modify in H;
    rewrite Hb in H;
    unfold run_period, bind at 1, intervals_get in H;
    cbn [self with_self intervals set_work_duration set_short_break
           set_long_break] in H;
    rewrite Hl in H;
    unfold bind at 1, getattr in H;
    cbn [self with_self _work_duration _short_break _long_break
           set_work_duration set_short_break set_long_break] in H;
    apply (interval_completed_late E fuel _ color usb_down) in H;
    try assumption;
    cbn [instant with_self] in H; unfold to_seconds in H; lra.
Qed.

Lemma configured_minutes_are_a_lower_bound_witness :
  match (work_duration_setter (1 # 6) ;;; run_period E_idle 200 "w")
          (fresh_world true) with
  | Done Completed w' =>
      60 * (1 # 6) < clock E_idle (instant w' - 2) - clock E_idle 0
  | _ => False
  end.
Proof.
  destruct ((work_duration_setter (1 # 6) ;;; run_period E_idle 200 "w")
              (fresh_world true)) as [[|] w' | e w' |] eqn:H.
  - exact (proj1 (configured_minutes_are_a_lower_bound E_idle 200 (1 # 6)
                    "w" (0, 0, 5)%Z true (fresh_world true) w'
                    E_idle_monotone eq_refl eq_refl eq_refl) eq_refl H).
  - vm_compute in H. discriminate H.
  - vm_compute in H. discriminate H.
  - vm_compute in H. discriminate H.
Defined.

(** ** A session that nobody interrupts *)

Section UndisturbedSession.

Variable E : Env.
Hypothesis clock_monotone : monotone E.
Hypothesis clock_unbounded : unbounded E.
Hypothesis quiet : no_press E.

Lemma interval_loop_more_fuel (pfuel : nat) (led_duration : Q) (fuel : nat) :
  forall s w x w',
    interval_loop E pfuel fuel led_duration s w = Done x w' ->
    forall k,
      interval_loop E pfuel (fuel + k) led_duration s w = Done x w'.
Proof.
  induction fuel as [|fuel IH]; intros s w x w' H k; [discriminate H|].
  cbn [interval_loop plus] in H |- *. inv_bind H as r w1 Hit.
  rewrite (bind_eq _ _ _ _ _ Hit).
  destruct r as [y | s1]; [exact H | apply IH; exact H].
Qed.

Lemma fold_turn_off_length (cells : list Z) :
  forall ps, List.length (fold_left turn_off cells ps) = List.length ps.
Proof.
  induction cells as [|c cells IH]; intro ps; [reflexivity|].
  cbn [fold_left]. rewrite IH. unfold turn_off. apply update_nth_length.
Qed.

(** An interval that nobody interrupts completes for every fuel from
    some fuel on, with the same store. *)
Lemma interval_completes_enough (duration : Q) (color : RGB) (n : nat)
  (w : World) :
  List.length (pixels w) = N_PIXELS ->
  (0 <= start_led (self w) < 10)%Z ->
  reaches (stop_led (self w)) (start_led (self w)) n = true ->
  exists fuel0 w',
    (forall F, (fuel0 <= F)%nat ->
       interval E F duration color w = Done Completed w')
    /\ self w' = self w
    /\ List.length (pixels w') = N_PIXELS.
Proof.
  intros Hlen Hrange Hreach.
  set (w0 := advance (mkWorld (instant w) (repeat color N_PIXELS)
                        (trace w ++ [EvSetAll (repeat color N_PIXELS)])
                        (cpx w) (self w))).
  set (s0 := mkLocals (clock E (instant w)) (start_led (self w))).
  destruct (interval_loop_completes E clock_monotone clock_unbounded quiet
              (duration / 10) n s0 w0)
    as (fuel & w' & Hrun & _ & Hpx & _ & _ & Hs & _).
  { exact Hreach. }
  { exact Hrange. }
  { cbn. reflexivity. }
  exists fuel, w'. splits.
  - intros F HF. unfold interval.
    rewrite (bind_eq _ _ _ _ _
               (pixels_set_all_ok (repeat color N_PIXELS) w
                  ltac:(rewrite repeat_length; symmetry; exact Hlen))).
    unfold bind, monotonic, get_world. cbn [instant self advance].
    replace F with (fuel + (F - fuel))%nat at 2 by lia.
    apply interval_loop_more_fuel. apply Hrun.
  - exact Hs.
  - rewrite Hpx, fold_turn_off_length. reflexivity.
Qed.

Lemma session_completes_enough (n : nat) (periods : list string) :
  forall w,
    List.length (pixels w) = N_PIXELS ->
    (0 <= start_led (self w) < 10)%Z ->
    reaches (stop_led (self w)) (start_led (self w)) n = true ->
    known_tags (self w) periods ->
    exists fuel0 w',
      (forall F, (fuel0 <= F)%nat ->
         collect periods (run_period E F) w
         = Done (repeat Completed (List.length periods)) w')
      /\ self w' = self w
      /\ List.length (pixels w') = N_PIXELS.
Proof.
  induction periods as [|period periods IH]; intros w Hlen Hrange Hreach Hknown.
  - exists 0%nat, w. splits; auto.
  - apply Forall_cons_iff in Hknown. destruct Hknown as [Hl Hknown].
    destruct (lookup period (intervals (self w))) as [[name color]|] eqn:Hlook;
      [|contradiction].
    set (duration := match name with
                     | _work_duration_ => _work_duration (self w)
                     | _short_break_ => _short_break (self w)
                     | _long_break_ => _long_break (self w)
                     end).
    destruct (interval_completes_enough duration color n w Hlen Hrange Hreach)
      as (fuel1 & w1 & Hrun1 & Hs1 & Hlen1).
    destruct (IH w1) as (fuel2 & w' & Hrun2 & Hs2 & Hlen2).
    + exact Hlen1.
    + rewrite Hs1. exact Hrange.
    + rewrite Hs1. exact Hreach.
    + unfold known_tags. rewrite Hs1. exact Hknown.
    + exists (Nat.max fuel1 fuel2), w'. splits.
      * intros F HF.
        assert (Hperiod : run_period E F period w = Done Completed w1).
        { unfold run_period, bind, intervals_get, getattr. rewrite Hlook.
          apply Hrun1. lia. }
        cbn [collect List.length repeat].
        rewrite (bind_eq _ _ _ _ _ Hperiod).
        rewrite (bind_eq _ _ _ _ _ (Hrun2 F ltac:(lia))). reflexivity.
      * rewrite Hs2. exact Hs1.
      * exact Hlen2.
Qed.

End UndisturbedSession.

(** X12.  A session that nobody interrupts runs to its end.  With no
    button pressed, on a clock that never goes back and passes every
    bound, a board of either orientation and a schedule that only names
    periods of [intervals], [work_session] returns, every interval of
    the schedule having completed, and leaves the [Pomodoro] object as
    it found it. *)
Theorem undisturbed_session_completes (E : Env) (usb_down : bool)
  (w : World) :
  monotone E -> unbounded E -> no_press E ->
  List.length (pixels w) = N_PIXELS ->
  start_led (self w) = (if usb_down then 4 else 9)%Z ->
  stop_led (self w) = (if usb_down then 5 else 0)%Z ->
  known_tags (self w) (schedule (self w)) ->
  exists fuel w',
    work_session E fuel w = Done tt w'
    /\ session_exits E fuel w
       = Done (repeat Completed (List.length (schedule (self w)))) w'
    /\ self w' = self w.
Proof.
  intros Hmono Hunb Hquiet Hlen Hstart Hstop Hknown.
  destruct (session_completes_enough E Hmono Hunb Hquiet 9
              (schedule (self w)) w Hlen)
    as (fuel & w' & Hrun & Hs & _).
  - rewrite Hstart. destruct usb_down; lia.
  - rewrite Hstart, Hstop. destruct usb_down; reflexivity.
  - exact Hknown.
  - assert (Hex : session_exits E fuel w
                  = Done (repeat Completed (List.length (schedule (self w)))) w').
    { unfold session_exits, bind, get_world. apply Hrun. lia. }
    exists fuel, w'. splits.
    + rewrite work_session_exits, (bind_eq _ _ _ _ _ Hex). reflexivity.
    + exact Hex.
    + exact Hs.
Qed.

Lemma undisturbed_session_completes_witness :
  exists fuel w',
    work_session E_idle fuel (booted E_idle true) = Done tt w'
    /\ session_exits E_idle fuel (booted E_idle true)
       = Done [Completed; Completed; Completed; Completed; Completed;
               Completed; Completed] w'
    /\ self w' = self (booted E_idle true).
Proof.
  apply (undisturbed_session_completes E_idle true (booted E_idle true)
           E_idle_monotone E_idle_unbounded E_idle_quiet eq_refl eq_refl
           eq_refl).
  unfold known_tags. cbn. repeat constructor; discriminate.
Defined.

(** ** Idling *)

Section Idling.

Variable E : Env.

Lemma start_is_rounds (sfuel : nat) (fuel : nat) :
  forall w,
    start E fuel sfuel w
    = (idle_rounds E fuel sfuel ;;; (fun _ => OutOfFuel)) w.
Proof.
  induction fuel as [|fuel IH]; intro w; [reflexivity|].
  cbn [start idle_rounds].
  rewrite bind_assoc. apply bind_ext. intros u1 w1.
  rewrite bind_assoc. apply bind_ext. intros a w2.
  rewrite bind_assoc. apply bind_ext. intros u2 w3. apply IH.
Qed.

Lemma idle_animation_keeps_ring (w : World) :
  idle_ring w ->
  exists w1,
    idle_animation E w = Done tt w1
    /\ idle_ring w1
    /\ exists evs, trace w1 = trace w ++ evs
                   /\ forallb is_single evs = true.
Proof.
  intro Hring.
  destruct (idle_animation_step E w Hring) as [Hwait Hfire].
  destruct (Qlt_le_dec (idle_update (self w))
              (clock E (instant w) - idle_time (self w))) as [Hlt | Hle].
  - destruct (Hfire Hlt) as (w1 & Hrun & _ & _ & _ & _ & Htr & Hring1).
    exists w1. splits; [exact Hrun | exact Hring1 |].
    eexists. split; [exact Htr | reflexivity].
  - exists (advance w). splits; [exact (Hwait Hle) | exact Hring |].
    exists []. cbn. rewrite app_nil_r. split; reflexivity.
Qed.

Lemma idle_rounds_quiet (Hquiet : no_press E) (sfuel : nat) (n : nat) :
  forall w,
    idle_ring w ->
    exists w',
      idle_rounds E n sfuel w = Done tt w'
      /\ idle_ring w'
      /\ exists evs, trace w' = trace w ++ evs
                     /\ forallb is_single evs = true.
Proof.
  induction n as [|n IH]; intros w Hring.
  - exists w. splits; [reflexivity | exact Hring |].
    exists []. rewrite app_nil_r. split; reflexivity.
  - destruct (idle_animation_keeps_ring w Hring)
      as (w1 & Hidle & Hring1 & evs1 & Htr1 & Hs1).
    assert (Hpoll : single_press_a E w1 = Done false (advance w1)).
    { rewrite single_press_a_eq, (proj1 (Hquiet (instant w1))). reflexivity. }
    destruct (IH (advance w1) Hring1) as (w' & Hrun & Hring' & evs2 & Htr2 & Hs2).
    exists w'. splits.
    + cbn [idle_rounds].
      rewrite (bind_eq _ _ _ _ _ Hidle), (bind_eq _ _ _ _ _ Hpoll).
      unfold bind at 1. unfold ret at 1. exact Hrun.
    + exact Hring'.
    + exists (evs1 ++ evs2). split.
      * rewrite Htr2. cbn [trace advance]. rewrite Htr1, app_assoc.
        reflexivity.
      * rewrite forallb_app, Hs1, Hs2. reflexivity.
Qed.

End Idling.

(** X13.  While nobody presses a button the idle loop does nothing but
    move its light.  Started on a ring that is dark or lit at the idle
    cell only, any number of rounds of the loop of [start] go through
    without an exception, write single cells only (so no session is
    started and no tone played), and leave the ring dark or lit at the
    idle cell only; [start] itself is then still running. *)
Theorem idle_loop_only_animates (E : Env) (n sfuel : nat) (w : World) :
  no_press E -> idle_ring w ->
  start E n sfuel w = OutOfFuel
  /\ exists w',
       idle_rounds E n sfuel w = Done tt w'
       /\ idle_ring w'
       /\ exists evs, trace w' = trace w ++ evs
                      /\ forallb is_single evs = true.
Proof.
  intros Hquiet Hring.
  destruct (idle_rounds_quiet E Hquiet sfuel n w Hring)
    as (w' & Hrun & Hring' & Hev).
  split.
  - rewrite start_is_rounds, (bind_eq _ _ _ _ _ Hrun). reflexivity.
  - exists w'. splits; assumption.
Qed.

Lemma idle_loop_only_animates_witness :
  start E_idle 12 5 idle_world = OutOfFuel
  /\ exists w',
       idle_rounds E_idle 12 5 idle_world = Done tt w'
       /\ idle_ring w'
       /\ exists evs, trace w' = [] ++ evs
                      /\ forallb is_single evs = true.
Proof.
  apply (idle_loop_only_animates E_idle 12 5 idle_world E_idle_quiet).
  split; [|right; reflexivity].
  unfold idle_world, fresh_pomodoro. cbn [idle_led self]. lia.
Defined.

(** ** Stopping an interval *)

Section HeldB.

Variable E : Env.
Hypothesis a_untouched : forall n, raw_a E n = false.
Hypothesis b_held : forall n, raw_b E n = true.

(** The countdown step always goes through on a ring of ten cells, and
    takes at most two samples. *)
Lemma interval_tick_runs (led_duration : Q) (s : locals) (w : World) :
  List.length (pixels w) = N_PIXELS ->
  (0 <= led_current s < 10)%Z ->
  exists r w1,
    interval_tick E led_duration s w = Done r w1
    /\ cpx w1 = cpx w /\ self w1 = self w
    /\ List.length (pixels w1) = N_PIXELS
    /\ (instant w < instant w1)%nat
    /\ (instant w1 <= 2 + instant w)%nat
    /\ (forall s1, r = Next s1 -> (0 <= led_current s1 < 10)%Z).
Proof.
  intros Hlen Hrange.
  assert (Hidx : (0 <= led_current s < Z.of_nat (List.length (pixels w)))%Z).
  { rewrite Hlen. unfold N_PIXELS. lia. }
  unfold interval_tick, bind, monotonic, pixels_set, get_world, switch,
    play_tone, modify, ret, emit, advance, with_pixels.
  cbn [instant pixels trace cpx self].
  destruct (Qgtb _ _); cbn [instant pixels trace cpx self].
  - rewrite (pixel_index_in_range _ _ Hidx).
    cbn [instant pixels trace cpx self].
    destruct (Z.eqb _ _); cbn [instant pixels trace cpx self].
    + destruct (raw_switch E (S (instant w)));
        cbn [instant pixels trace cpx self];
        do 2 eexists; (split; [reflexivity|]);
        cbn [instant pixels trace cpx self]; splits; try reflexivity;
          try lia; try (rewrite update_nth_length; exact Hlen);
          intros s1 Hs1; discriminate Hs1.
    + do 2 eexists. split; [reflexivity|].
      cbn [instant pixels trace cpx self]. splits; try reflexivity; try lia;
        try (rewrite update_nth_length; exact Hlen).
      intros s1 Hs1. injection Hs1 as <-. cbn [led_current].
      apply Z.mod_pos_bound. lia.
  - do 2 eexists. split; [reflexivity|].
    cbn [instant pixels trace cpx self]. splits; try reflexivity; try lia;
      try exact Hlen.
    intros s1 Hs1. injection Hs1 as <-. exact Hrange.
Qed.

(** A round with button B held and button A untouched takes at most six
    samples.  It returns, or it goes on because the throttle turned the
    press down on the clock sample it took last but one, and then it
    keeps the board object. *)
Lemma interval_iter_held_b (led_duration : Q) (s : locals) (w : World) :
  List.length (pixels w) = N_PIXELS ->
  (0 <= led_current s < 10)%Z ->
  exists r w',
    (forall pfuel, interval_iter E pfuel led_duration s w = Done r w')
    /\ (instant w' <= 6 + instant w)%nat
    /\ ((exists x, r = Return x)
        \/ (exists s1 m,
              r = Next s1
              /\ (0 <= led_current s1 < 10)%Z
              /\ List.length (pixels w') = N_PIXELS
              /\ cpx w' = cpx w
              /\ instant w' = S m
              /\ (instant w <= m)%nat
              /\ Qgtb (clock E m - last_button_b (cpx w))
                      (sensitivity (cpx w)) = false)).
Proof.
  intros Hlen Hrange.
  destruct (interval_tick_runs led_duration s w Hlen Hrange)
    as (r1 & w1 & Htick & Hc1 & Hs1 & Hlen1 & Hi1 & Hi1' & Hr1).
  destruct r1 as [x | s1].
  - do 2 eexists. split; [|split].
    + intro pfuel. unfold interval_iter.
      rewrite (bind_eq _ _ _ _ _ Htick). reflexivity.
    + lia.
    + left. exists x. reflexivity.
  - assert (Hpause : forall pfuel,
               interval_pause E pfuel s1 w1 = Done s1 (advance w1)).
    { intro pfuel. unfold interval_pause, bind.
      rewrite single_press_a_eq, a_untouched. reflexivity. }
    destruct (Qgtb (clock E (S (S (instant w1))) - last_button_b (cpx w1))
                (sensitivity (cpx w1))) eqn:Hg.
    + do 2 eexists. split; [|split].
      * intro pfuel. unfold interval_iter.
        rewrite (bind_eq _ _ _ _ _ Htick), (bind_eq _ _ _ _ _ (Hpause pfuel)).
        unfold interval_cancel.
        rewrite (bind_eq _ _ _ _ _
                   (eq_trans (single_press_b_eq E (advance w1))
                      ltac:(cbn [instant cpx advance];
                            rewrite b_held, Hg; reflexivity))).
        cbv beta iota.
        erewrite bind_eq by (apply flash_2_ok; exact Hlen1). reflexivity.
      * cbn [instant]. lia.
      * left. exists Cancelled. reflexivity.
    + do 2 eexists. split; [|split].
      * intro pfuel. unfold interval_iter.
        rewrite (bind_eq _ _ _ _ _ Htick), (bind_eq _ _ _ _ _ (Hpause pfuel)).
        unfold interval_cancel.
        rewrite (bind_eq _ _ _ _ _
                   (eq_trans (single_press_b_eq E (advance w1))
                      ltac:(cbn [instant cpx advance];
                            rewrite b_held, Hg; reflexivity))).
        reflexivity.
      * cbn [instant advance]. lia.
      * right. exists s1, (S (S (instant w1))).
        cbn [instant pixels cpx advance].
        split; [reflexivity|]. split; [apply Hr1; reflexivity|].
        split; [exact Hlen1|]. split; [exact Hc1|].
        split; [reflexivity|]. split; [lia|].
        rewrite <- Hc1. exact Hg.
Qed.

(** The loop of [interval] with button B held: once every clock sample
    from the [N]-th on passes the throttle of channel B, the loop
    returns within six samples of the later of [N] and the start. *)
Lemma interval_loop_held_b (led_duration : Q) (N d : nat) :
  forall s w,
    List.length (pixels w) = N_PIXELS ->
    (0 <= led_current s < 10)%Z ->
    (forall m, (N <= m)%nat ->
       Qgtb (clock E m - last_button_b (cpx w)) (sensitivity (cpx w)) = true) ->
    (N <= instant w + d)%nat ->
    exists fuel x w',
      (forall pfuel,
         interval_loop E pfuel fuel led_duration s w = Done x w')
      /\ (instant w' <= Nat.max (instant w) N + 6)%nat.
Proof.
  induction d as [|d IH]; intros s w Hlen Hrange Hev HN;
    destruct (interval_iter_held_b led_duration s w Hlen Hrange)
      as (r & w1 & Hit & Hi6
          & [[x ->]
            | (s1 & m & -> & Hr1 & Hlen1 & Hc1 & Him & Hm & Hf)]).
  - exists 1%nat, x, w1. split; [|lia]. intro pfuel. cbn [interval_loop].
    rewrite (bind_eq _ _ _ _ _ (Hit pfuel)). reflexivity.
  - rewrite (Hev m ltac:(lia)) in Hf. discriminate Hf.
  - exists 1%nat, x, w1. split; [|lia]. intro pfuel. cbn [interval_loop].
    rewrite (bind_eq _ _ _ _ _ (Hit pfuel)). reflexivity.
  - assert (HmN : (m < N)%nat).
    { destruct (Nat.lt_ge_cases m N) as [Hlt | Hge]; [exact Hlt|].
      rewrite (Hev m Hge) in Hf. discriminate Hf. }
    destruct (IH s1 w1 Hlen1 Hr1) as (fuel & x & w' & Hrun & Hi').
    + intros k Hk. rewrite Hc1. apply Hev. exact Hk.
    + lia.
    + exists (S fuel), x, w'. split; [|lia]. intro pfuel.
      cbn [interval_loop].
      rewrite (bind_eq _ _ _ _ _ (Hit pfuel)). apply Hrun.
Qed.

End HeldB.

(** X14.  An interval can always be stopped, and the press takes effect
    at once.  With button B held down and button A untouched, on a ring
    of ten cells and a clock that never goes back: once every clock
    sample from the [N]-th on is more than [sensitivity] after the last
    trigger time of channel B, [interval] returns, having taken at most
    six samples after the later of the [N]-th and the one that follows
    its start.  If the configured duration has not elapsed by then, on
    a board of either orientation, it returns through the cancel exit:
    the abort animation is the last thing written, no tone is played
    and the ring is dark.  On a clock that passes every bound there is
    such an [N]. *)
Theorem held_b_ends_interval (E : Env) (duration : Q) (color : RGB)
  (w : World) (N : nat) :
  monotone E ->
  (forall n, raw_a E n = false) -> (forall n, raw_b E n = true) ->
  List.length (pixels w) = N_PIXELS ->
  (0 <= start_led (self w) < 10)%Z ->
  (forall m, (N <= m)%nat ->
     sensitivity (cpx w) < clock E m - last_button_b (cpx w)) ->
  let deadline := (Nat.max (S (instant w)) N + 6)%nat in
  (exists fuel x w',
     interval E fuel duration color w = Done x w'
     /\ (instant w' <= deadline)%nat
     /\ (forall usb_down : bool,
           start_led (self w) = (if usb_down then 4 else 9)%Z ->
           stop_led (self w) = (if usb_down then 5 else 0)%Z ->
           clock E deadline - clock E (instant w) <= duration ->
           x = Cancelled
           /\ pixels w' = repeat black N_PIXELS
           /\ exists evs,
                trace w' = trace w ++ evs ++ abort_animation
                /\ existsb is_tone (evs ++ abort_animation) = false))
  /\ (unbounded E ->
      exists N', forall m, (N' <= m)%nat ->
        sensitivity (cpx w) < clock E m - last_button_b (cpx w)).
Proof.
  intros Hmono Ha Hb Hlen Hrange HN deadline. split.
  - set (w0 := advance (mkWorld (instant w) (repeat color N_PIXELS)
                          (trace w ++ [EvSetAll (repeat color N_PIXELS)])
                          (cpx w) (self w))).
    destruct (interval_loop_held_b E Ha Hb (duration / 10) N N
                (mkLocals (clock E (instant w)) (start_led (self w))) w0)
      as (fuel & x & w' & Hrun & Hi).
    + reflexivity.
    + exact Hrange.
    + intros m Hm. cbn [cpx w0 advance]. apply Qgtb_true. apply HN. exact Hm.
    + lia.
    + assert (Hint : interval E fuel duration color w = Done x w').
      { unfold interval.
        rewrite (bind_eq _ _ _ _ _
                   (pixels_set_all_ok (repeat color N_PIXELS) w
                      ltac:(rewrite repeat_length; symmetry; exact Hlen))).
        unfold bind, monotonic, get_world. cbn [instant self advance].
        apply Hrun. }
      assert (Hdl : (instant w' <= deadline)%nat).
      { unfold deadline. unfold w0 in Hi. cbn [instant advance] in Hi.
        exact Hi. }
      exists fuel, x, w'. splits.
      * exact Hint.
      * exact Hdl.
      * intros usb_down Hstart Hstop Hshort.
        assert (Hx : x = Cancelled).
        { destruct x; [|reflexivity]. exfalso.
          pose proof (interval_completed_late E fuel duration color usb_down
                        w w' Hmono Hstart Hstop Hint) as Hlate.
          pose proof (clock_le E Hmono (instant w' - 2) deadline
                        ltac:(lia)) as Hle.
          lra. }
        subst x. split; [reflexivity|].
        apply interval_cancelled in Hint.
        destruct Hint as (evs & Htr & _ & Htone & w1 & w2 & _ & Hf).
        apply flash_2_done in Hf. destruct Hf as [_ ->].
        split; [reflexivity|].
        exists evs. split; [exact Htr | exact Htone].
  - intro Hunb.
    destruct (throttle_passes E (last_button_b (cpx w)) (sensitivity (cpx w))
                Hmono Hunb) as [N' HN'].
    exists N'. intros m Hm. apply Qgtb_true. apply HN'. exact Hm.
Qed.

Lemma E_hold_b_monotone : monotone E_hold_b.
Proof.
  intro n. unfold E_hold_b, clock, Qle. cbn [Qnum Qden]. lia.
Qed.

Lemma E_hold_b_unbounded : unbounded E_hold_b.
Proof.
  intros [p q]. exists (Z.to_nat (8 * Z.abs p + 1)).
  unfold E_hold_b, clock, Qlt. cbn [Qnum Qden].
  rewrite Z2Nat.id by lia.
  pose proof (Pos2Z.is_pos q). nia.
Qed.

Lemma held_b_ends_interval_witness :
  exists fuel x w',
    interval E_hold_b fuel 2700 (0, 0, 5)%Z (fresh_world true) = Done x w'
    /\ (instant w' <= 9)%nat
    /\ (forall usb_down : bool,
          start_led (self (fresh_world true)) = (if usb_down then 4 else 9)%Z ->
          stop_led (self (fresh_world true)) = (if usb_down then 5 else 0)%Z ->
          clock E_hold_b 9 - clock E_hold_b 0 <= 2700 ->
          x = Cancelled
          /\ pixels w' = repeat black N_PIXELS
          /\ exists evs,
               trace w' = [] ++ evs ++ abort_animation
               /\ existsb is_tone (evs ++ abort_animation) = false).
Proof.
  refine (proj1 (held_b_ends_interval E_hold_b 2700 (0, 0, 5)%Z
                   (fresh_world true) 3 E_hold_b_monotone _ _ _ _ _)).
  - intro n. reflexivity.
  - intro n. reflexivity.
  - reflexivity.
  - unfold fresh_world, fresh_pomodoro. cbn [start_led self]. lia.
  - intros m Hm. unfold E_hold_b, fresh_world.
    cbn [clock cpx sensitivity last_button_b].
    unfold Qlt, Qminus, Qplus, Qopp. cbn [Qnum Qden]. lia.
Defined.

(** ** The constructor *)

(** X15.  [Pomodoro(usb_down)] never raises, whatever the store it is
    called in: its three default durations pass the setters.  The timer
    it builds reads 45, 10 and 20 minutes through the getters, its
    schedule names only periods that [intervals] has (so a session
    cannot fail with [KeyError]), its idle cell is a cell of the ring,
    and building it takes one clock sample and touches neither the
    pixels nor the board object. *)
Theorem constructor_gives_usable_timer (E : Env) (usb_down : bool)
  (w : World) :
  exists w1,
    Pomodoro_init E usb_down w = Done tt w1
    /\ (exists v, work_duration w1 = Done v w1 /\ v == 45)
    /\ (exists v, short_break w1 = Done v w1 /\ v == 10)
    /\ (exists v, long_break w1 = Done v w1 /\ v == 20)
    /\ known_tags (self w1) (schedule (self w1))
    /\ (0 <= idle_led (self w1) < 10)%Z
    /\ idle_time (self w1) = clock E (instant w)
    /\ instant w1 = S (instant w)
    /\ pixels w1 = pixels w /\ trace w1 = trace w /\ cpx w1 = cpx w.
Proof.
  eexists. split.
  - unfold Pomodoro_init, bind, work_duration_setter, short_break_setter,
      long_break_setter, modify, monotonic. cbn. reflexivity.
  - cbn [self with_self schedule idle_led idle_time instant pixels trace cpx
           advance].
    split; [eexists; split; [reflexivity | cbn; reflexivity]|].
    split; [eexists; split; [reflexivity | cbn; reflexivity]|].
    split; [eexists; split; [reflexivity | cbn; reflexivity]|].
    split.
    { unfold known_tags. cbn. repeat constructor; discriminate. }
    split; [lia|].
    repeat split.
Qed.

(** ** Rounding in the duration properties *)



